(** * Spillable and copy-on-write device buffers of cudf

    A shallow embedding of
    [python/cudf/cudf/core/buffer/spillable_buffer.py] and
    [python/cudf/cudf/core/buffer/cow_buffer.py].

    Python objects live in a store indexed by references; a method takes the
    reference of [self] and runs in a state-and-exception monad over the
    store, so that aliasing (a slice and its base, two copy-on-write buffers
    on one allocation) and the state left behind by a raised exception are
    both visible.  Device memory is a flat byte-addressed memory with a bump
    allocator that can run out of space; host memory is a store of byte
    arrays, and a [memoryview] is a window on one of them. *)

From Stdlib Require Import ZArith String List Lia.
From stdpp Require Import base gmap strings list.
Local Open Scope Z_scope.

Abbreviation byte := Byte.byte.

(** ** Exceptions and the state-and-exception monad *)

(** The Python exception classes the two modules can raise.  The
    [ValueError]s carry the constant part of their message, which is how the
    raise sites are told apart. *)
Inductive exn :=
| ValueError (msg : string)
| MemoryError
| KeyError (key : string)
| TypeError
| AssertionError
| IndexError (msg : string)
| OverflowError
| ReferenceError.

Inductive Result (A : Type) :=
| Ok (a : A)
| Raise (e : exn).
Arguments Ok {A} a.
Arguments Raise {A} e.

(** A computation returns a value or raises, and in both cases leaves a
    state behind: what was mutated before a [raise] stays mutated. *)
Definition M (S A : Type) : Type := S -> Result A * S.

#[global] Instance M_ret {S} : MRet (M S) := λ A a s, (Ok a, s).
#[global] Instance M_bind {S} : MBind (M S) := λ A B k m s,
  match m s with
  | (Ok a, s') => k a s'
  | (Raise e, s') => (Raise e, s')
  end.

Definition raise {S A} (e : exn) : M S A := λ s, (Raise e, s).
Definition gets {S A} (f : S -> A) : M S A := λ s, (Ok (f s), s).
Definition modify {S} (f : S -> S) : M S unit := λ s, (Ok tt, f s).

(** [assert c] *)
Definition assert {S} (c : bool) : M S unit :=
  if c then mret tt else raise AssertionError.

(** ** Device memory (the [rmm] allocator, an external collaborator)

    The allocator hands out address ranges above [brk], never one it handed
    out before, and fails once [limit] would be passed. *)

Record Device := {
  dmem : Z -> byte;
  brk : Z;
  limit : Z
}.

(** A handle on a device allocation, [rmm.DeviceBuffer]: its [ptr] and
    [size] properties. *)
Record DeviceBuffer := {
  db_ptr : Z;
  db_size : Z
}.

#[global] Instance DeviceBuffer_eq_dec : EqDecision DeviceBuffer.
Proof. solve_decision. Defined.

Definition dread (d : Device) (p : Z) (n : nat) : list byte :=
  map (λ i, dmem d (p + Z.of_nat i)) (seq 0 n).

Definition dwrite (p : Z) (bs : list byte) (d : Device) : Device :=
  {| dmem := λ a,
       if bool_decide (p ≤ a < p + Z.of_nat (length bs))
       then nth (Z.to_nat (a - p)) bs Byte.x00
       else dmem d a;
     brk := brk d;
     limit := limit d |}.

Definition dalloc (n : Z) (d : Device) : option (Z * Device) :=
  if bool_decide (brk d + n ≤ limit d)
  then Some (brk d, {| dmem := dmem d; brk := brk d + n; limit := limit d |})
  else None.

(** [rmm.DeviceBuffer(ptr=p, size=n)] with [p] a device pointer: a new
    allocation of [n] bytes filled with the [n] bytes at [p]. *)
Definition DeviceBuffer_from_ptr (p n : Z) (d : Device)
  : option (DeviceBuffer * Device) :=
  match dalloc n d with
  | Some (q, d') =>
      Some ({| db_ptr := q; db_size := n |},
            dwrite q (dread d p (Z.to_nat n)) d')
  | None => None
  end.

(** ** Host memory: byte arrays and memoryviews *)

Record memview := {
  mv_obj : nat;
  mv_start : Z;
  mv_len : Z;
  c_contiguous : bool
}.

#[global] Instance memview_eq_dec : EqDecision memview.
Proof. solve_decision. Defined.

Definition mv_read (h : gmap nat (list byte)) (mv : memview) : list byte :=
  take (Z.to_nat (mv_len mv))
       (drop (Z.to_nat (mv_start mv)) (default [] (h !! mv_obj mv))).

Definition mv_write (mv : memview) (bs : list byte)
    (h : gmap nat (list byte)) : gmap nat (list byte) :=
  let l := default [] (h !! mv_obj mv) in
  <[mv_obj mv :=
      take (Z.to_nat (mv_start mv)) l ++ bs
      ++ drop (Z.to_nat (mv_start mv + mv_len mv)) l]> h.

(** Python's slice index adjustment ([PySlice_AdjustIndices], step 1) for
    [v[start:stop]] on a sequence of length [len]. *)
Definition slice_adjust (len i : Z) : Z :=
  if bool_decide (i < 0)
  then (if bool_decide (i + len < 0) then 0 else i + len)
  else (if bool_decide (len ≤ i) then len else i).

Definition mv_slice (mv : memview) (start stop : Z) : memview :=
  let a := slice_adjust (mv_len mv) start in
  let b := slice_adjust (mv_len mv) stop in
  {| mv_obj := mv_obj mv;
     mv_start := mv_start mv + a;
     mv_len := if bool_decide (a < b) then b - a else 0;
     c_contiguous := c_contiguous mv |}.

(** ** spillable_buffer.py *)

(** A value stored in the [_ptr_desc] dictionary: the string under ["type"]
    or the memoryview under ["memoryview"]. *)
Inductive desc_val :=
| DStr (s : string)
| DView (mv : memview).

#[global] Instance desc_val_eq_dec : EqDecision desc_val.
Proof. solve_decision. Defined.

(** An entry of the manager's statistics. *)
Inductive stat_event :=
| LogSpill (src : desc_val) (dst : string) (nbytes : Z) (time : Z)
| LogExpose (buf : nat).

#[global] Instance stat_event_eq_dec : EqDecision stat_event.
Proof. solve_decision. Defined.

Module SpillableBuffer.

(** The attributes of a [SpillableBuffer]: those of [Buffer] ([_owner],
    [_ptr], [_size]) and its own.  [_spill_locks] is the [WeakSet] of
    spill locks, as the set of its members that are alive. *)
Record t := {
  _owner : option DeviceBuffer;
  _ptr : Z;
  _size : Z;
  _spill_locks : gset nat;
  _last_accessed : Z;
  _ptr_desc : gmap string desc_val;
  _exposed : bool
}.

Definition set_owner (o : option DeviceBuffer) (b : t) : t :=
  {| _owner := o; _ptr := _ptr b; _size := _size b;
     _spill_locks := _spill_locks b; _last_accessed := _last_accessed b;
     _ptr_desc := _ptr_desc b; _exposed := _exposed b |}.
Definition set_ptr (p : Z) (b : t) : t :=
  {| _owner := _owner b; _ptr := p; _size := _size b;
     _spill_locks := _spill_locks b; _last_accessed := _last_accessed b;
     _ptr_desc := _ptr_desc b; _exposed := _exposed b |}.
Definition set_spill_locks (f : gset nat -> gset nat) (b : t) : t :=
  {| _owner := _owner b; _ptr := _ptr b; _size := _size b;
     _spill_locks := f (_spill_locks b); _last_accessed := _last_accessed b;
     _ptr_desc := _ptr_desc b; _exposed := _exposed b |}.
Definition set_last_accessed (x : Z) (b : t) : t :=
  {| _owner := _owner b; _ptr := _ptr b; _size := _size b;
     _spill_locks := _spill_locks b; _last_accessed := x;
     _ptr_desc := _ptr_desc b; _exposed := _exposed b |}.
Definition set_ptr_desc
    (f : gmap string desc_val -> gmap string desc_val) (b : t) : t :=
  {| _owner := _owner b; _ptr := _ptr b; _size := _size b;
     _spill_locks := _spill_locks b; _last_accessed := _last_accessed b;
     _ptr_desc := f (_ptr_desc b); _exposed := _exposed b |}.
Definition set_exposed (x : bool) (b : t) : t :=
  {| _owner := _owner b; _ptr := _ptr b; _size := _size b;
     _spill_locks := _spill_locks b; _last_accessed := _last_accessed b;
     _ptr_desc := _ptr_desc b; _exposed := x |}.

(** The interpreter state the module runs in: the device, the host byte
    arrays, the clock behind [time.perf_counter] and [time.monotonic],
    the live [SpillableBuffer] objects (which is also what the manager has
    registered), the counter of [SpillLock] identities and the statistics
    of the manager. *)
Record World := {
  device : Device;
  host : gmap nat (list byte);
  next_host : nat;
  clock : Z;
  objs : gmap nat t;
  next_ref : nat;
  next_lock : nat;
  statistics : list stat_event
}.

Definition set_device (f : Device -> Device) (w : World) : World :=
  {| device := f (device w); host := host w; next_host := next_host w;
     clock := clock w; objs := objs w; next_ref := next_ref w;
     next_lock := next_lock w; statistics := statistics w |}.
Definition set_host (f : gmap nat (list byte) -> gmap nat (list byte))
    (w : World) : World :=
  {| device := device w; host := f (host w); next_host := next_host w;
     clock := clock w; objs := objs w; next_ref := next_ref w;
     next_lock := next_lock w; statistics := statistics w |}.
Definition set_next_host (n : nat) (w : World) : World :=
  {| device := device w; host := host w; next_host := n;
     clock := clock w; objs := objs w; next_ref := next_ref w;
     next_lock := next_lock w; statistics := statistics w |}.
Definition set_clock (c : Z) (w : World) : World :=
  {| device := device w; host := host w; next_host := next_host w;
     clock := c; objs := objs w; next_ref := next_ref w;
     next_lock := next_lock w; statistics := statistics w |}.
Definition set_objs (f : gmap nat t -> gmap nat t) (w : World) : World :=
  {| device := device w; host := host w; next_host := next_host w;
     clock := clock w; objs := f (objs w); next_ref := next_ref w;
     next_lock := next_lock w; statistics := statistics w |}.
Definition set_next_ref (n : nat) (w : World) : World :=
  {| device := device w; host := host w; next_host := next_host w;
     clock := clock w; objs := objs w; next_ref := n;
     next_lock := next_lock w; statistics := statistics w |}.
Definition set_next_lock (n : nat) (w : World) : World :=
  {| device := device w; host := host w; next_host := next_host w;
     clock := clock w; objs := objs w; next_ref := next_ref w;
     next_lock := n; statistics := statistics w |}.
Definition set_statistics (f : list stat_event -> list stat_event)
    (w : World) : World :=
  {| device := device w; host := host w; next_host := next_host w;
     clock := clock w; objs := objs w; next_ref := next_ref w;
     next_lock := next_lock w; statistics := f (statistics w) |}.

(** *** Primitives of the runtime *)

(** Reading an attribute of the object behind a reference.  A reference
    held by running code is never dangling; [ReferenceError] stands for
    the case that cannot happen. *)
Definition get_obj (self : nat) : M World t := λ w,
  match objs w !! self with
  | Some b => (Ok b, w)
  | None => (Raise ReferenceError, w)
  end.

(** Assigning to attributes of the object behind a reference. *)
Definition upd_obj (self : nat) (f : t -> t) : M World unit :=
  modify (set_objs (alter f self)).

(** [time.perf_counter()] and [time.monotonic()]: the clock is read and
    has moved on at the next reading. *)
Definition perf_counter : M World Z := λ w,
  (Ok (clock w), set_clock (clock w + 1) w).
Definition monotonic : M World Z := perf_counter.

(** [d[k]] on a dictionary *)
Definition dict_getitem (d : gmap string desc_val) (k : string)
  : M World desc_val :=
  match d !! k with
  | Some v => mret v
  | None => raise (KeyError k)
  end.

(** [self._ptr_desc.pop(k)]: the key is removed from the dictionary of
    the object and its value returned. *)
Definition ptr_desc_pop (self : nat) (k : string) : M World desc_val :=
  b ← get_obj self;
  match _ptr_desc b !! k with
  | Some v => upd_obj self (set_ptr_desc (delete k));; mret v
  | None => raise (KeyError k)
  end.

(** [memoryview(bytearray(n))]: a new zero-filled byte array and the view
    of all of it. *)
Definition bytearray (n : Z) : M World memview :=
  if bool_decide (n < 0) then raise (ValueError "negative count")
  else λ w,
    (Ok {| mv_obj := next_host w; mv_start := 0; mv_len := n;
           c_contiguous := true |},
     set_next_host (S (next_host w))
       (set_host <[next_host w := replicate (Z.to_nat n) Byte.x00]> w)).

(** [rmm._lib.device_buffer.copy_ptr_to_host(ptr, host_mem)]: fills the
    view with the bytes at the device address. *)
Definition copy_ptr_to_host (ptr : Z) (host_mem : memview)
  : M World unit := λ w,
  (Ok tt,
   set_host
     (mv_write host_mem (dread (device w) ptr (Z.to_nat (mv_len host_mem))))
     w).

(** [rmm.DeviceBuffer.to_device(b)]: a new device allocation holding a
    copy of the bytes of the view; [MemoryError] when the device has no
    room for it.  The allocation is the allocator's own: a handler that
    spills other buffers on demand when memory runs short, which the
    manager may install in the allocator, is not part of this model. *)
Definition to_device (v : desc_val) : M World DeviceBuffer :=
  match v with
  | DStr _ => raise TypeError
  | DView mv => λ w,
      match dalloc (mv_len mv) (device w) with
      | Some (p, d') =>
          (Ok {| db_ptr := p; db_size := mv_len mv |},
           set_device (λ _, dwrite p (mv_read (host w) mv) d') w)
      | None => (Raise MemoryError, w)
      end
  end.

(** Modelled from the spec: the statistics sink of the spill manager
    ([log_spill] and [log_expose] of [spill_manager.py], which is not part
    of the sources at hand): purely observational, it records the event
    and never raises. *)
Definition log_spill (src : desc_val) (dst : string) (nbytes time : Z)
  : M World unit :=
  modify (set_statistics (λ l, l ++ [LogSpill src dst nbytes time])).
Definition log_expose (self : nat) : M World unit :=
  modify (set_statistics (λ l, l ++ [LogExpose self])).

(** *** Properties and methods of [SpillableBuffer] *)

Definition size (self : nat) : M World Z :=
  b ← get_obj self; mret (_size b).

Definition exposed (self : nat) : M World bool :=
  b ← get_obj self; mret (_exposed b).

Definition last_accessed (self : nat) : M World Z :=
  b ← get_obj self; mret (_last_accessed b).

(** [not self._exposed and len(self._spill_locks) == 0] on the attributes
    of one buffer *)
Definition spillable_of (b : t) : bool :=
  negb (_exposed b) && bool_decide (base.size (_spill_locks b) = 0%nat).

Definition spillable (self : nat) : M World bool :=
  b ← get_obj self; mret (spillable_of b).

Definition is_spilled (self : nat) : M World bool :=
  b ← get_obj self;
  ty ← dict_getitem (_ptr_desc b) "type";
  mret (negb (bool_decide (ty = DStr "gpu"))).

Definition unspillable_msg : string :=
  "Cannot in-place move an unspillable buffer".
Definition unknown_target_msg (target : string) : string :=
  "Unknown target: " ++ target.

Definition spill (self : nat) (target : string) : M World unit :=
  time_start ← perf_counter;
  b ← get_obj self;
  ptr_type ← dict_getitem (_ptr_desc b) "type";
  if bool_decide (ptr_type = DStr target) then mret tt
  else
    ok ← spillable self;
    if negb ok then raise (ValueError unspillable_msg)
    else
      (if bool_decide (ptr_type = DStr "gpu") && String.eqb target "cpu"
       then
         n ← size self;
         host_mem ← bytearray n;
         b ← get_obj self;
         copy_ptr_to_host (_ptr b) host_mem;;
         upd_obj self (set_ptr_desc <["memoryview" := DView host_mem]>);;
         upd_obj self (set_ptr 0);;
         upd_obj self (set_owner None)
       else if bool_decide (ptr_type = DStr "cpu") && String.eqb target "gpu"
       then
         v ← ptr_desc_pop self "memoryview";
         dev_mem ← to_device v;
         upd_obj self (set_ptr (db_ptr dev_mem));;
         upd_obj self (set_owner (Some dev_mem));;
         b ← get_obj self;
         assert (bool_decide (_size b = db_size dev_mem))
       else raise (ValueError (unknown_target_msg target)));;
      upd_obj self (set_ptr_desc <["type" := DStr target]>);;
      time_end ← perf_counter;
      n ← size self;
      log_spill ptr_type target n (time_end - time_start).


(** [SpillLock()]: a new lock token; it has no state beyond its
    identity. *)
Definition SpillLock_new : M World nat := λ w,
  (Ok (next_lock w), set_next_lock (S (next_lock w)) w).

(** The last reference to a [SpillLock] goes away: the weak sets that
    held it forget it. *)
Definition SpillLock_del (l : nat) : M World unit :=
  modify (set_objs (fmap (set_spill_locks (λ s, s ∖ {[l]})))).

(** Object creation: [cls.__new__(cls)] followed by the assignments of the
    constructor. *)
Definition new_obj (b : t) : M World nat := λ w,
  (Ok (next_ref w),
   set_next_ref (S (next_ref w)) (set_objs <[next_ref w := b]> w)).

(** [_finalize_init] sets [_spill_locks], [_last_accessed], [_ptr_desc]
    and [_exposed] and registers the buffer with the global manager; the
    world is the one of a process that has a global manager, so that the
    [ValueError] for a missing one is not raised. *)
Definition _finalize_init (owner : option DeviceBuffer) (p n : Z)
    (ptr_desc : gmap string desc_val) (exposed : bool) : M World nat :=
  now ← monotonic;
  new_obj {| _owner := owner; _ptr := p; _size := n; _spill_locks := ∅;
             _last_accessed := now; _ptr_desc := ptr_desc;
             _exposed := exposed |}.

(** Modelled from the spec: [Buffer._from_device_memory] of [buffer.py],
    which is not part of the sources at hand, wraps an existing device
    allocation without copying: address, size and owner are those of
    [data]. *)
Definition _from_device_memory (data : DeviceBuffer) (exposed : bool)
  : M World nat :=
  _finalize_init (Some data) (db_ptr data) (db_size data)
    {["type" := DStr "gpu"]} exposed.

Definition _from_host_memory (data : memview) : M World nat :=
  if negb (c_contiguous data)
  then raise (ValueError "Buffer data must be C-contiguous")
  else
    _finalize_init None 0 (mv_len data)
      (<["type" := DStr "cpu"]> {["memoryview" := DView data]}) false.

Section Manager.

(** Modelled from the spec: [SpillManager.spill_to_device_limit] of
    [spill_manager.py], which is not part of the sources at hand.  It
    selects victims among the registered buffers whose [spillable] is
    true and calls their [spill(target="cpu")]; which buffers it picks,
    and in which order, is a policy the spec leaves open, so the choice
    is a parameter. *)
Variable victims : World -> list nat.

Definition spill_victim (r : nat) : M World unit := λ w,
  match objs w !! r with
  | Some b =>
      if spillable_of b
      then spill r "cpu" w
      else (Ok tt, w)
  | None => (Ok tt, w)
  end.

Fixpoint spill_victims (l : list nat) : M World unit :=
  match l with
  | [] => mret tt
  | r :: l' => spill_victim r;; spill_victims l'
  end.

Definition spill_to_device_limit : M World unit := λ w,
  spill_victims (victims w) w.

Definition ptr (self : nat) : M World Z :=
  spill_to_device_limit;;
  b ← get_obj self;
  (if negb (_exposed b) then log_expose self else mret tt);;
  spill self "gpu";;
  upd_obj self (set_exposed true);;
  now ← monotonic;
  upd_obj self (set_last_accessed now);;
  b ← get_obj self;
  mret (_ptr b).

Definition spill_lock (self : nat) (spill_lock : option nat)
  : M World unit :=
  match spill_lock with
  | None =>
      l ← SpillLock_new;
      spill self "gpu";;
      upd_obj self (set_spill_locks (λ s, {[l]} ∪ s));;
      SpillLock_del l
  | Some l =>
      spill self "gpu";;
      upd_obj self (set_spill_locks (λ s, {[l]} ∪ s))
  end.

Definition get_ptr (self : nat) (lock : option nat) : M World Z :=
  match lock with
  | None => ptr self
  | Some l =>
      spill_lock self (Some l);;
      now ← monotonic;
      upd_obj self (set_last_accessed now);;
      b ← get_obj self;
      mret (_ptr b)
  end.

(** [self.get_ptr(spill_lock=SpillLock())]: the lock is a temporary of
    the call, and nothing refers to it once the call has returned. *)
Definition mutable_ptr (self : nat) : M World Z :=
  l ← SpillLock_new;
  p ← get_ptr self (Some l);
  SpillLock_del l;;
  mret p.

End Manager.

Definition memoryview (self : nat) (offset : Z) (size : option Z)
  : M World memview :=
  b ← get_obj self;
  let size := match size with None => _size b | Some n => n end in
  ok ← spillable self;
  if (ok : bool) then
    spill self "cpu";;
    b ← get_obj self;
    v ← dict_getitem (_ptr_desc b) "memoryview";
    match v with
    | DView mv => mret (mv_slice mv offset (offset + size))
    | DStr _ => raise TypeError
    end
  else
    b ← get_obj self;
    ty ← dict_getitem (_ptr_desc b) "type";
    assert (bool_decide (ty = DStr "gpu"));;
    ret ← bytearray size;
    b ← get_obj self;
    copy_ptr_to_host (_ptr b + offset) ret;;
    mret ret.

End SpillableBuffer.

Module SpillableBufferSlice.

(** The attributes [__init__] gives a slice: no [_spill_locks], no
    [_ptr_desc], no [_exposed] and no [_last_accessed].  [_owner] is the
    base too, and [lock] is the lock of the base. *)
Record t := {
  _base : nat;
  _offset : Z;
  _size : Z
}.

Definition __init__ (base : nat) (offset size : Z)
  : M SpillableBuffer.World t :=
  if bool_decide (size < 0)
  then raise (ValueError "size cannot be negative")
  else if bool_decide (offset < 0)
  then raise (ValueError "offset cannot be negative")
  else
    n ← SpillableBuffer.size base;
    if bool_decide (offset + size > n)
    then raise (ValueError
                  "offset+size cannot be greater than the size of base")
    else mret {| _base := base; _offset := offset; _size := size |}.

Section Manager.
Variable victims : SpillableBuffer.World -> list nat.

Definition ptr (self : t) : M SpillableBuffer.World Z :=
  p ← SpillableBuffer.ptr victims (_base self);
  mret (p + _offset self).

Definition get_ptr (self : t) (spill_lock : option nat)
  : M SpillableBuffer.World Z :=
  p ← SpillableBuffer.get_ptr victims (_base self) spill_lock;
  mret (p + _offset self).

(** [mutable_ptr] is inherited; its [self.get_ptr] is the one of the
    slice. *)
Definition mutable_ptr (self : t) : M SpillableBuffer.World Z :=
  l ← SpillableBuffer.SpillLock_new;
  p ← get_ptr self (Some l);
  SpillableBuffer.SpillLock_del l;;
  mret p.

Definition spill_lock (self : t) (spill_lock : option nat)
  : M SpillableBuffer.World unit :=
  SpillableBuffer.spill_lock (_base self) spill_lock.

End Manager.

Definition _getitem (self : t) (offset size : Z)
  : M SpillableBuffer.World t :=
  __init__ (_base self) (offset + _offset self) size.

Definition memoryview (self : t) (offset : Z) (size : option Z)
  : M SpillableBuffer.World memview :=
  let size := match size with None => _size self | Some n => n end in
  SpillableBuffer.memoryview (_base self) (_offset self + offset)
    (Some size).

Definition size (self : t) : M SpillableBuffer.World Z :=
  mret (_size self).

Definition spill (self : t) (target : string)
  : M SpillableBuffer.World unit :=
  SpillableBuffer.spill (_base self) target.

Definition is_spilled (self : t) : M SpillableBuffer.World bool :=
  SpillableBuffer.is_spilled (_base self).

Definition exposed (self : t) : M SpillableBuffer.World bool :=
  SpillableBuffer.exposed (_base self).

Definition spillable (self : t) : M SpillableBuffer.World bool :=
  SpillableBuffer.spillable (_base self).

End SpillableBufferSlice.

(** An instance of [SpillableBuffer]: of the class itself or of its
    subclass [SpillableBufferSlice].  Attribute access on it dispatches on
    the class. *)
Inductive spillable_obj :=
| Base (self : nat)
| Slice (self : SpillableBufferSlice.t).

Definition obj_ptr (victims : SpillableBuffer.World -> list nat)
    (o : spillable_obj) : M SpillableBuffer.World Z :=
  match o with
  | Base r => SpillableBuffer.ptr victims r
  | Slice s => SpillableBufferSlice.ptr victims s
  end.

Definition obj_size (o : spillable_obj) : M SpillableBuffer.World Z :=
  match o with
  | Base r => SpillableBuffer.size r
  | Slice s => SpillableBufferSlice.size s
  end.

Definition obj_get_ptr (victims : SpillableBuffer.World -> list nat)
    (o : spillable_obj) (spill_lock : option nat)
  : M SpillableBuffer.World Z :=
  match o with
  | Base r => SpillableBuffer.get_ptr victims r spill_lock
  | Slice s => SpillableBufferSlice.get_ptr victims s spill_lock
  end.

Definition obj_mutable_ptr (victims : SpillableBuffer.World -> list nat)
    (o : spillable_obj) : M SpillableBuffer.World Z :=
  match o with
  | Base r => SpillableBuffer.mutable_ptr victims r
  | Slice s => SpillableBufferSlice.mutable_ptr victims s
  end.

Definition obj_spill (o : spillable_obj) (target : string)
  : M SpillableBuffer.World unit :=
  match o with
  | Base r => SpillableBuffer.spill r target
  | Slice s => SpillableBufferSlice.spill s target
  end.

Definition obj_spill_lock (o : spillable_obj) (spill_lock : option nat)
  : M SpillableBuffer.World unit :=
  match o with
  | Base r => SpillableBuffer.spill_lock r spill_lock
  | Slice s => SpillableBufferSlice.spill_lock s spill_lock
  end.

Definition obj_memoryview (o : spillable_obj) (offset : Z) (size : option Z)
  : M SpillableBuffer.World memview :=
  match o with
  | Base r => SpillableBuffer.memoryview r offset size
  | Slice s => SpillableBufferSlice.memoryview s offset size
  end.

Definition obj_getitem (o : spillable_obj) (offset size : Z)
  : M SpillableBuffer.World SpillableBufferSlice.t :=
  match o with
  | Base r => SpillableBufferSlice.__init__ r offset size
  | Slice s => SpillableBufferSlice._getitem s offset size
  end.

Module DelayedPointerTuple.

Record t := { _buf : spillable_obj }.

(** What an element of the tuple is: the address or the read-only flag. *)
Inductive item :=
| Address (p : Z)
| Flag (b : bool).

Definition __init__ (buffer : spillable_obj) : t := {| _buf := buffer |}.


Definition __getitem__ (victims : SpillableBuffer.World -> list nat)
    (self : t) (i : Z) : M SpillableBuffer.World item :=
  if bool_decide (i = 0)
  then p ← obj_ptr victims (_buf self); mret (Address p)
  else if bool_decide (i = 1)
  then mret (Flag false)
  else raise (IndexError "tuple index out of range").

End DelayedPointerTuple.

(** The dictionary [__cuda_array_interface__] returns. *)
Record cuda_array_interface := {
  data : DelayedPointerTuple.t;
  shape : Z;
  strides : option Z;
  typestr : string;
  version : Z
}.

Definition __cuda_array_interface__ (self : spillable_obj)
  : M SpillableBuffer.World cuda_array_interface :=
  n ← obj_size self;
  mret {| data := DelayedPointerTuple.__init__ self;
          shape := n;
          strides := None;
          typestr := "|u1";
          version := 0 |}.

(** *** Serialization *)

Definition obj_is_spilled (o : spillable_obj) : M SpillableBuffer.World bool :=
  match o with
  | Base r => SpillableBuffer.is_spilled r
  | Slice s => SpillableBufferSlice.is_spilled s
  end.

(** What [self._owner] is: the device allocation (or [None]) for a buffer,
    the base for a slice. *)
Inductive owner_ref :=
| OwnerDevice (o : option DeviceBuffer)
| OwnerBase (base : nat).

Definition obj_owner (o : spillable_obj) : M SpillableBuffer.World owner_ref :=
  match o with
  | Base r =>
      b ← SpillableBuffer.get_obj r;
      mret (OwnerDevice (SpillableBuffer._owner b))
  | Slice s => mret (OwnerBase (SpillableBufferSlice._base s))
  end.

(** The name of [self.__class__], which is what [pickle.dumps] of a class
    records. *)
Definition class_name (o : spillable_obj) : string :=
  match o with
  | Base _ => "SpillableBuffer"
  | Slice _ => "SpillableBufferSlice"
  end.

(** A frame of a serialized buffer: a view of host bytes, or a plain
    [Buffer] on device memory whose owner is the pair of the serialized
    buffer's owner and a spill lock.

    Modelled from the spec: [Buffer._from_device_memory] and
    [cuda_array_interface_wrapper] of [buffer.py], which is not part of the
    sources at hand, wrap the given address, size and owner without
    copying. *)
Record device_frame := {
  frame_ptr : Z;
  frame_size : Z;
  frame_owner : owner_ref * nat
}.

Inductive frame :=
| HostFrame (mv : memview)
| DeviceFrame (f : device_frame).

Record header := {
  type_serialized : string;
  frame_count : Z
}.

(** [SpillableBuffer.serialize], which slices inherit.  The spill lock of
    a device frame is referred to by the frame, and lives as long as the
    frame does. *)
Definition serialize (victims : SpillableBuffer.World -> list nat)
    (self : spillable_obj) : M SpillableBuffer.World (header * list frame) :=
  let header := {| type_serialized := class_name self; frame_count := 1 |} in
  spilled ← obj_is_spilled self;
  if (spilled : bool) then
    mv ← obj_memoryview self 0 None;
    mret (header, [HostFrame mv])
  else
    spill_lock ← SpillableBuffer.SpillLock_new;
    ptr ← obj_get_ptr victims self (Some spill_lock);
    n ← obj_size self;
    owner ← obj_owner self;
    mret (header,
          [DeviceFrame {| frame_ptr := ptr; frame_size := n;
                          frame_owner := (owner, spill_lock) |}]).

(** ** cow_buffer.py *)

Module CopyOnWriteBuffer.

(** The attributes of a [CopyOnWriteBuffer].  [_instances] is the
    instance attribute: a reference to one [WeakSet] object. *)
Record t := {
  _owner : option DeviceBuffer;
  _ptr : Z;
  _size : Z;
  _instances : nat;
  _zero_copied : bool
}.

Definition set_owner (o : option DeviceBuffer) (b : t) : t :=
  {| _owner := o; _ptr := _ptr b; _size := _size b;
     _instances := _instances b; _zero_copied := _zero_copied b |}.
Definition set_ptr (p : Z) (b : t) : t :=
  {| _owner := _owner b; _ptr := p; _size := _size b;
     _instances := _instances b; _zero_copied := _zero_copied b |}.
Definition set_size (n : Z) (b : t) : t :=
  {| _owner := _owner b; _ptr := _ptr b; _size := n;
     _instances := _instances b; _zero_copied := _zero_copied b |}.
Definition set_instances (s : nat) (b : t) : t :=
  {| _owner := _owner b; _ptr := _ptr b; _size := _size b;
     _instances := s; _zero_copied := _zero_copied b |}.
Definition set_zero_copied (z : bool) (b : t) : t :=
  {| _owner := _owner b; _ptr := _ptr b; _size := _size b;
     _instances := _instances b; _zero_copied := z |}.

(** The interpreter state: the device, the live buffers, the [WeakSet]
    objects (each as the set of its live members) and the class attribute
    [CopyOnWriteBuffer._instances], a [defaultdict] from addresses to
    weak sets. *)
Record World := {
  device : Device;
  objs : gmap nat t;
  next_ref : nat;
  weaksets : gmap nat (gset nat);
  next_weakset : nat;
  cls_instances : gmap Z nat
}.

Definition set_device (f : Device -> Device) (w : World) : World :=
  {| device := f (device w); objs := objs w; next_ref := next_ref w;
     weaksets := weaksets w; next_weakset := next_weakset w;
     cls_instances := cls_instances w |}.
Definition set_objs (f : gmap nat t -> gmap nat t) (w : World) : World :=
  {| device := device w; objs := f (objs w); next_ref := next_ref w;
     weaksets := weaksets w; next_weakset := next_weakset w;
     cls_instances := cls_instances w |}.
Definition set_next_ref (n : nat) (w : World) : World :=
  {| device := device w; objs := objs w; next_ref := n;
     weaksets := weaksets w; next_weakset := next_weakset w;
     cls_instances := cls_instances w |}.
Definition set_weaksets
    (f : gmap nat (gset nat) -> gmap nat (gset nat)) (w : World) : World :=
  {| device := device w; objs := objs w; next_ref := next_ref w;
     weaksets := f (weaksets w); next_weakset := next_weakset w;
     cls_instances := cls_instances w |}.
Definition set_next_weakset (n : nat) (w : World) : World :=
  {| device := device w; objs := objs w; next_ref := next_ref w;
     weaksets := weaksets w; next_weakset := n;
     cls_instances := cls_instances w |}.
Definition set_cls_instances (f : gmap Z nat -> gmap Z nat)
    (w : World) : World :=
  {| device := device w; objs := objs w; next_ref := next_ref w;
     weaksets := weaksets w; next_weakset := next_weakset w;
     cls_instances := f (cls_instances w) |}.

Definition get_obj (self : nat) : M World t := λ w,
  match objs w !! self with
  | Some b => (Ok b, w)
  | None => (Raise ReferenceError, w)
  end.

Definition upd_obj (self : nat) (f : t -> t) : M World unit :=
  modify (set_objs (alter f self)).

(** [CopyOnWriteBuffer.__new__(CopyOnWriteBuffer)] followed by the
    assignments of [_ptr], [_size] and [_owner]; [_instances] and
    [_zero_copied] are not set before [_finalize_init] sets them. *)
Definition new_obj (owner : option DeviceBuffer) (p n : Z) : M World nat :=
  λ w,
  (Ok (next_ref w),
   set_next_ref (S (next_ref w))
     (set_objs <[next_ref w :=
                   {| _owner := owner; _ptr := p; _size := n;
                      _instances := 0%nat; _zero_copied := false |}]> w)).

(** [CopyOnWriteBuffer._instances[p]] on the [defaultdict]: a missing key
    is given a new empty [WeakSet]. *)
Definition cls_instances_getitem (p : Z) : M World nat := λ w,
  match cls_instances w !! p with
  | Some s => (Ok s, w)
  | None =>
      (Ok (next_weakset w),
       set_next_weakset (S (next_weakset w))
         (set_weaksets <[next_weakset w := ∅]>
            (set_cls_instances <[p := next_weakset w]> w)))
  end.

Definition weakset_add (s self : nat) : M World unit :=
  modify (set_weaksets (alter (λ m, {[self]} ∪ m) s)).

Definition weakset_len (s : nat) : M World nat :=
  gets (λ w, base.size (default ∅ (weaksets w !! s))).

(** [rmm.DeviceBuffer(ptr=p, size=n)] and [DeviceBuffer.copy()]: a new
    allocation with the same bytes, [MemoryError] when there is no
    room.  The size is a [size_t] argument, which a negative integer does
    not convert to. *)
Definition DeviceBuffer_new (p n : Z) : M World DeviceBuffer :=
  if bool_decide (n < 0) then raise OverflowError
  else λ w,
    match DeviceBuffer_from_ptr p n (device w) with
    | Some (db, d') => (Ok db, set_device (λ _, d') w)
    | None => (Raise MemoryError, w)
    end.

Definition DeviceBuffer_copy (b : DeviceBuffer) : M World DeviceBuffer :=
  DeviceBuffer_new (db_ptr b) (db_size b).

(** The registration of [_keys_cleanup] with [weakref.finalize] has no
    effect before the buffer is destroyed, and destruction is not among
    the operations modelled here. *)
Definition _finalize_init (self : nat) : M World unit :=
  b ← get_obj self;
  s ← cls_instances_getitem (_ptr b);
  weakset_add s self;;
  s' ← cls_instances_getitem (_ptr b);
  upd_obj self (set_instances s');;
  upd_obj self (set_zero_copied false).

(** Modelled from the spec: [Buffer._from_device_memory] of [buffer.py],
    which is not part of the sources at hand, wraps an existing device
    allocation without copying: address, size and owner are those of
    [data], here given as its three components. *)
Definition _from_device_memory (owner : option DeviceBuffer) (p n : Z)
    (exposed : bool) : M World nat :=
  ret ← new_obj owner p n;
  _finalize_init ret;;
  upd_obj ret (set_zero_copied exposed);;
  mret ret.

Definition _is_shared (self : nat) : M World bool :=
  b ← get_obj self;
  n ← weakset_len (_instances b);
  mret (bool_decide (1 < n)%nat).

Definition _unlink_shared_buffers (self : nat) : M World unit :=
  b ← get_obj self;
  shared ← _is_shared self;
  if negb (_zero_copied b) && shared then
    current_buf ← DeviceBuffer_new (_ptr b) (_size b);
    new_buf ← DeviceBuffer_copy current_buf;
    upd_obj self (set_ptr (db_ptr new_buf));;
    upd_obj self (set_size (db_size new_buf));;
    upd_obj self (set_owner (Some new_buf));;
    _finalize_init self
  else mret tt.

Definition ptr (self : nat) : M World Z :=
  _unlink_shared_buffers self;;
  upd_obj self (set_zero_copied true);;
  b ← get_obj self;
  mret (_ptr b).

Definition mutable_ptr (self : nat) : M World Z :=
  _unlink_shared_buffers self;;
  b ← get_obj self;
  mret (_ptr b).

Definition _getitem (self : nat) (offset size : Z) : M World nat :=
  b ← get_obj self;
  _from_device_memory (_owner b) (_ptr b + offset) size false.

Definition copy (self : nat) (deep : bool) : M World nat :=
  b ← get_obj self;
  if negb deep && negb (_zero_copied b) then
    copied_buf ← new_obj (_owner b) (_ptr b) (_size b);
    _finalize_init copied_buf;;
    mret copied_buf
  else
    db ← DeviceBuffer_new (_ptr b) (_size b);
    _from_device_memory (Some db) (db_ptr db) (db_size db) false.

(** The dictionary of [_get_cuda_array_interface]: the ["data"] pair,
    the shape, and the constant fields. *)
Record array_interface := {
  data : Z * bool;
  shape : Z;
  strides : option Z;
  typestr : string;
  version : Z
}.

Definition _get_cuda_array_interface (self : nat) (readonly : bool)
  : M World array_interface :=
  b ← get_obj self;
  mret {| data := (_ptr b, readonly); shape := _size b; strides := None;
          typestr := "|u1"; version := 0 |}.

Definition __cuda_array_interface__ (self : nat)
  : M World array_interface :=
  _unlink_shared_buffers self;;
  upd_obj self (set_zero_copied true);;
  _get_cuda_array_interface self false.

(** A write of [bs] at device address [p] by whoever holds the pointer. *)
Definition poke (p : Z) (bs : list byte) : M World unit :=
  modify (set_device (dwrite p bs)).

(** The bytes a buffer denotes: the [_size] bytes at [_ptr]. *)
Definition bytes_of (w : World) (self : nat) : list byte :=
  match objs w !! self with
  | Some b => dread (device w) (_ptr b) (Z.to_nat (_size b))
  | None => []
  end.

End CopyOnWriteBuffer.

(** ** Vocabulary of the statements about spillable buffers *)

Module Spillable.
Import SpillableBuffer.

(** The error classes of the design, as the exceptions the code raises for
    them: both [IllegalState] and [InvalidArgument] are [ValueError]s in the
    code, told apart by their raise site. *)
Definition IllegalState : exn := ValueError unspillable_msg.
Definition InvalidArgument (target : string) : exn :=
  ValueError (unknown_target_msg target).
Definition OutOfMemory : exn := MemoryError.

Definition location (b : t) : option desc_val := _ptr_desc b !! "type".
Definition host_view (b : t) : option desc_val := _ptr_desc b !! "memoryview".

(** A buffer in a state the constructors and methods establish: the size is
    not negative, the location is ["gpu"] or ["cpu"], and a buffer on host
    is spillable and holds a view of [_size] bytes of a byte array. *)
Definition wf_buf (b : t) : bool :=
  bool_decide (0 ≤ _size b) &&
  match location b with
  | Some (DStr ty) =>
      if String.eqb ty "gpu" then true
      else if String.eqb ty "cpu" then
        spillable_of b &&
        match host_view b with
        | Some (DView mv) =>
            bool_decide (mv_len mv = _size b) && bool_decide (0 ≤ mv_start mv)
        | _ => false
        end
      else false
  | _ => false
  end.

Definition wf_world (w : World) : Prop :=
  map_Forall (λ r b, wf_buf b = true ∧ (r < next_ref w)%nat) (objs w).

(** The bytes a buffer stands for: the [_size] bytes at [_ptr] when it is
    on device, the bytes of its host view otherwise. *)
Definition contents (w : World) (b : t) : list byte :=
  if bool_decide (location b = Some (DStr "gpu"))
  then dread (device w) (_ptr b) (Z.to_nat (_size b))
  else match host_view b with
       | Some (DView mv) => mv_read (host w) mv
       | _ => []
       end.

(** The clock after one reading. *)
Definition tick (w : World) : World := set_clock (clock w + 1) w.

(** The attributes of a buffer after a move to host, with [mv] the new
    view, and after a move to device, with [dev_mem] the new allocation. *)
Definition spilled_buf (mv : memview) (b : t) : t :=
  set_ptr_desc <["type" := DStr "cpu"]>
    (set_owner None
       (set_ptr 0 (set_ptr_desc <["memoryview" := DView mv]> b))).

Definition unspilled_buf (dev_mem : DeviceBuffer) (b : t) : t :=
  set_ptr_desc <["type" := DStr "gpu"]>
    (set_owner (Some dev_mem)
       (set_ptr (db_ptr dev_mem) (set_ptr_desc (delete "memoryview") b))).

Definition fresh_view (w : World) (n : Z) : memview :=
  {| mv_obj := next_host w; mv_start := 0; mv_len := n;
     c_contiguous := true |}.

(** The world after a successful [spill(target="cpu")] of a buffer on
    device. *)
Definition after_spill_cpu (self : nat) (b : t) (w : World) : World :=
  {| device := device w;
     host := <[next_host w :=
                 dread (device w) (_ptr b) (Z.to_nat (_size b))]> (host w);
     next_host := S (next_host w);
     clock := clock w + 2;
     objs := <[self := spilled_buf (fresh_view w (_size b)) b]> (objs w);
     next_ref := next_ref w;
     next_lock := next_lock w;
     statistics :=
       statistics w ++ [LogSpill (DStr "gpu") "cpu" (_size b) 1] |}.

(** The world after a successful [spill(target="gpu")] of a buffer on
    host whose view is [mv], the allocator having returned address [p] and
    left the device as [d']. *)
Definition after_spill_gpu (self : nat) (b : t) (mv : memview) (p : Z)
    (d' : Device) (w : World) : World :=
  {| device := dwrite p (mv_read (host w) mv) d';
     host := host w;
     next_host := next_host w;
     clock := clock w + 2;
     objs := <[self := unspilled_buf {| db_ptr := p; db_size := mv_len mv |} b]>
               (objs w);
     next_ref := next_ref w;
     next_lock := next_lock w;
     statistics :=
       statistics w ++ [LogSpill (DStr "cpu") "gpu" (_size b) 1] |}.

(** The world a failed allocation in [spill(target="gpu")] leaves. *)
Definition after_spill_gpu_oom (self : nat) (b : t) (w : World) : World :=
  {| device := device w;
     host := host w;
     next_host := next_host w;
     clock := clock w + 1;
     objs := <[self := set_ptr_desc (delete "memoryview") b]> (objs w);
     next_ref := next_ref w;
     next_lock := next_lock w;
     statistics := statistics w |}.

(** The buffer an object stands on, and where in it the object starts. *)
Definition base_of (o : spillable_obj) : nat :=
  match o with
  | Base r => r
  | Slice s => SpillableBufferSlice._base s
  end.

Definition offset_of (o : spillable_obj) : Z :=
  match o with
  | Base _ => 0
  | Slice s => SpillableBufferSlice._offset s
  end.

(** Reading the statistics. *)
Definition is_spill_event (e : stat_event) : bool :=
  match e with
  | LogSpill _ _ _ _ => true
  | LogExpose _ => false
  end.

Definition expose_count (self : nat) (l : list stat_event) : nat :=
  length (filter (λ e, e = LogExpose self) l).

(** Every reference in use was handed out by the object counter. *)
Definition refs_ok (w : World) : Prop :=
  ∀ r, is_Some (objs w !! r) -> (r < next_ref w)%nat.

(** What a pass of the manager may change: buffers stay well formed, none
    appears or disappears, exposure flags, lock sets and sizes stay, and
    the statistics grow by spill events only. *)
Definition manager_frame (w w' : World) : Prop :=
  wf_world w' ∧
  next_ref w' = next_ref w ∧
  next_lock w' = next_lock w ∧
  (∀ r b, objs w !! r = Some b ->
     ∃ b', objs w' !! r = Some b' ∧
           _exposed b' = _exposed b ∧
           _spill_locks b' = _spill_locks b ∧
           _size b' = _size b) ∧
  ∃ evs, statistics w' = statistics w ++ evs ∧
         forallb is_spill_event evs = true.

(** The operations a client of the module can perform, on a buffer or on a
    slice, and the passing of time for spill locks. *)
Inductive op :=
| OSpill (o : spillable_obj) (target : string)
| OPtr (o : spillable_obj)
| OGetPtr (o : spillable_obj) (spill_lock : option nat)
| OMutablePtr (o : spillable_obj)
| OSpillLock (o : spillable_obj) (spill_lock : option nat)
| OMemoryview (o : spillable_obj) (offset : Z) (size : option Z)
| OSlice (o : spillable_obj) (offset size : Z)
| OCudaArrayInterface (o : spillable_obj)
| OGetitem (d : DelayedPointerTuple.t) (i : Z)
| OFromDeviceMemory (data : DeviceBuffer) (exposed : bool)
| OFromHostMemory (data : memview)
| OSpillToDeviceLimit
| ONewLock
| ODelLock (l : nat).

Section Run.
Variable victims : World -> list nat.

Definition run_op (o : op) (w : World) : World :=
  match o with
  | OSpill o target => snd (obj_spill o target w)
  | OPtr o => snd (obj_ptr victims o w)
  | OGetPtr o l => snd (obj_get_ptr victims o l w)
  | OMutablePtr o => snd (obj_mutable_ptr victims o w)
  | OSpillLock o l => snd (obj_spill_lock o l w)
  | OMemoryview o offset size => snd (obj_memoryview o offset size w)
  | OSlice o offset size => snd (obj_getitem o offset size w)
  | OCudaArrayInterface o => snd (__cuda_array_interface__ o w)
  | OGetitem d i => snd (DelayedPointerTuple.__getitem__ victims d i w)
  | OFromDeviceMemory data e => snd (_from_device_memory data e w)
  | OFromHostMemory data => snd (_from_host_memory data w)
  | OSpillToDeviceLimit => snd (spill_to_device_limit victims w)
  | ONewLock => snd (SpillLock_new w)
  | ODelLock l => snd (SpillLock_del l w)
  end.

Definition run_ops (l : list op) (w : World) : World :=
  foldl (λ w o, run_op o w) w l.

End Run.

(** A computation preserves a property of the world, whether it returns
    or raises. *)
Definition pres {A} (P : World -> Prop) (m : M World A) : Prop :=
  ∀ w, P w -> P (snd (m w)).

(** Buffer [r] is there and exposed. *)
Definition is_exposed (r : nat) (w : World) : Prop :=
  refs_ok w ∧ ∃ b, objs w !! r = Some b ∧ _exposed b = true.

(** *** Concrete worlds *)

(** A device whose memory is all zero. *)
Definition blank_device (brk limit : Z) : Device :=
  {| dmem := λ _, Byte.x00; brk := brk; limit := limit |}.

(** A process with no buffer yet: one host byte array of three bytes (the
    data a buffer can be made from) and the given device. *)
Definition initial_world (d : Device) : World :=
  {| device := d;
     host := {[ 0%nat := [Byte.x01; Byte.x02; Byte.x03] ]};
     next_host := 1;
     clock := 0;
     objs := ∅;
     next_ref := 0;
     next_lock := 0;
     statistics := [] |}.

Definition three_bytes : memview :=
  {| mv_obj := 0; mv_start := 0; mv_len := 3; c_contiguous := true |}.

(** Buffer 0 made from the three host bytes, on a device with room for one
    more byte only. *)
Definition host_world_full : World :=
  snd (_from_host_memory three_bytes (initial_world (blank_device 100 101))).

(** The same buffer on a device with room. *)
Definition host_world : World :=
  snd (_from_host_memory three_bytes (initial_world (blank_device 100 1000))).

(** Buffer 0 wrapping four device bytes at address 100: unexposed,
    permanently exposed at creation, and unexposed but spill-locked by
    lock 0. *)
Definition device_world : World :=
  snd (_from_device_memory {| db_ptr := 100; db_size := 4 |} false
         (initial_world (blank_device 104 1000))).

Definition exposed_world : World :=
  snd (_from_device_memory {| db_ptr := 100; db_size := 4 |} true
         (initial_world (blank_device 104 1000))).

Definition locked_world : World :=
  snd ((l ← SpillLock_new; spill_lock 0 (Some l)) device_world).

(** Buffer 0, exposed, wrapping the four zero bytes at address 100 of a
    device whose next byte, at address 104, belongs to another allocation
    and holds [0xff]. *)
Definition neighbour_device : Device :=
  {| dmem := λ a, if bool_decide (a = 104) then Byte.xff else Byte.x00;
     brk := 105;
     limit := 1000 |}.

Definition exposed_neighbour_world : World :=
  snd (_from_device_memory {| db_ptr := 100; db_size := 4 |} true
         (initial_world neighbour_device)).

End Spillable.

(** ** Vocabulary of the statements about copy-on-write buffers *)

Module Cow.
Import CopyOnWriteBuffer.

(** The device [d'] extends [d]: the allocator has only moved forward and
    what lies below the old [brk] reads as before. *)
Definition dev_ext (d d' : Device) : Prop :=
  brk d ≤ brk d' ∧
  ∀ q n, q + Z.of_nat n ≤ brk d -> dread d' q n = dread d q n.

(** A buffer of a state the constructors and methods establish: its bytes lie
    in allocated memory, the class dictionary maps its address to the weak
    set it holds, and it is a member of that set. *)
Definition wf_buf (w : World) (r : nat) (b : t) : Prop :=
  (r < next_ref w)%nat ∧
  0 ≤ _size b ∧
  _ptr b + _size b ≤ brk (device w) ∧
  cls_instances w !! _ptr b = Some (_instances b) ∧
  r ∈ default ∅ (weaksets w !! _instances b).

(** The class dictionary: every weak set it names exists and was numbered
    by the counter, and no weak set is under two addresses. *)
Definition wf_registry (w : World) : Prop :=
  map_Forall (λ p s,
      (s < next_weakset w)%nat ∧ is_Some (weaksets w !! s) ∧
      map_Forall (λ q s', s = s' -> p = q) (cls_instances w))
    (cls_instances w).

Definition cow_wf (w : World) : Prop :=
  map_Forall (wf_buf w) (objs w) ∧ wf_registry w.

#[global] Instance wf_buf_dec w r b : Decision (wf_buf w r b).
Proof. unfold wf_buf. apply _. Defined.

#[global] Instance cow_wf_dec w : Decision (cow_wf w).
Proof. unfold cow_wf, wf_registry. apply _. Defined.

(** What stays true of a buffer [ba] under reference [a] once it is
    zero-copied: the buffer itself, attribute by attribute, that its bytes
    lie in allocated memory, and that the class dictionary has its weak set
    under its address only. *)
Definition frozen (a : nat) (ba : t) (w : World) : Prop :=
  (∀ r, is_Some (objs w !! r) -> (r < next_ref w)%nat) ∧
  objs w !! a = Some ba ∧
  _zero_copied ba = true ∧
  0 ≤ _size ba ∧
  _ptr ba + _size ba ≤ brk (device w) ∧
  (_instances ba < next_weakset w)%nat ∧
  cls_instances w !! _ptr ba = Some (_instances ba) ∧
  (∀ q, cls_instances w !! q = Some (_instances ba) -> q = _ptr ba).

Definition pres {A} (P : World -> Prop) (m : M World A) : Prop :=
  ∀ w, P w -> P (snd (m w)).

(** The operations a client can perform on copy-on-write buffers, and a
    write through a pointer it holds. *)
Inductive op :=
| OPtr (self : nat)
| OMutablePtr (self : nat)
| OCopy (self : nat) (deep : bool)
| OGetitem (self : nat) (offset size : Z)
| OCudaArrayInterface (self : nat)
| OFromDeviceMemory (owner : option DeviceBuffer) (p n : Z) (exposed : bool)
| OPoke (p : Z) (bs : list byte).

Definition run_op (o : op) (w : World) : World :=
  match o with
  | OPtr self => snd (ptr self w)
  | OMutablePtr self => snd (mutable_ptr self w)
  | OCopy self deep => snd (copy self deep w)
  | OGetitem self offset size => snd (_getitem self offset size w)
  | OCudaArrayInterface self => snd (__cuda_array_interface__ self w)
  | OFromDeviceMemory owner p n e => snd (_from_device_memory owner p n e w)
  | OPoke p bs => snd (poke p bs w)
  end.

Definition run_ops (l : list op) (w : World) : World :=
  foldl (λ w o, run_op o w) w l.

(** *** Concrete worlds *)

(** A device with the bytes 7, 8, 9, 10 at addresses 100 to 103, allocated
    up to 104. *)
Definition some_device : Device :=
  {| dmem := λ a, nth (Z.to_nat (a - 100))
                    [Byte.x07; Byte.x08; Byte.x09; Byte.x0a] Byte.x00;
     brk := 104;
     limit := 1000 |}.

Definition no_buffers : World :=
  {| device := some_device; objs := ∅; next_ref := 0; weaksets := ∅;
     next_weakset := 0; cls_instances := ∅ |}.

(** Buffer 0 wrapping those four bytes. *)
Definition one_buffer : World :=
  snd (_from_device_memory (Some {| db_ptr := 100; db_size := 4 |}) 100 4
         false no_buffers).

End Cow.

(** ** Vocabulary of further statements about spillable buffers *)

Module SpillableInv.
Import SpillableBuffer Spillable.

(** Two states of a buffer with the same protection state and size. *)
Definition same_protection (b b' : t) : Prop :=
  _exposed b' = _exposed b ∧
  _spill_locks b' = _spill_locks b ∧
  _size b' = _size b.

(** The store of [w'] is the one of [w] but for buffer [self], whose
    protection state and size are as they were. *)
Definition touched_only (self : nat) (w w' : World) : Prop :=
  next_ref w' = next_ref w ∧
  next_lock w' = next_lock w ∧
  ∃ f, objs w' = alter f self (objs w) ∧ ∀ b, same_protection b (f b).

(** Every buffer that is exposed or locked is on device. *)
Definition protected_on_device (w : World) : Prop :=
  refs_ok w ∧
  ∀ r b, objs w !! r = Some b -> spillable_of b = false ->
         location b = Some (DStr "gpu").

(** Buffer [r] is in a state [Q], in a world whose references are in order
    and whose future locks are all among the locks [L]. *)
Definition pinned (r : nat) (Q : t -> Prop) (L : nat -> Prop)
    (w : World) : Prop :=
  refs_ok w ∧
  (∀ l, (next_lock w ≤ l)%nat -> L l) ∧
  ∃ b, objs w !! r = Some b ∧ Q b.

(** A buffer that is exposed and on device at address [p]. *)
Definition exposed_at (p : Z) (b : t) : Prop :=
  _exposed b = true ∧ location b = Some (DStr "gpu") ∧ _ptr b = p.

(** A buffer that holds lock [l] and is on device at address [p]. *)
Definition locked_at (l : nat) (p : Z) (b : t) : Prop :=
  l ∈ _spill_locks b ∧ location b = Some (DStr "gpu") ∧ _ptr b = p.

(** The operations of a client, with serialization among them. *)
Inductive action :=
| Act (o : op)
| ASerialize (o : spillable_obj).

Definition run_action (victims : World -> list nat) (a : action)
    (w : World) : World :=
  match a with
  | Act o => run_op victims o w
  | ASerialize o => snd (serialize victims o w)
  end.

Definition run_actions (victims : World -> list nat) (l : list action)
    (w : World) : World :=
  foldl (λ w a, run_action victims a w) w l.

(** An action that lets no lock die but locks among [L]. *)
Definition spares (L : nat -> Prop) (a : action) : Prop :=
  match a with
  | Act (ODelLock l) => L l
  | _ => True
  end.

(** What [serialize] reports of an object whose base is [b]: the header,
    the size and the owner. *)
Definition header_of (o : spillable_obj) : header :=
  {| type_serialized := class_name o; frame_count := 1 |}.

Definition size_in (o : spillable_obj) (b : t) : Z :=
  match o with
  | Base _ => _size b
  | Slice s => SpillableBufferSlice._size s
  end.

Definition owner_in (o : spillable_obj) (b : t) : owner_ref :=
  match o with
  | Base _ => OwnerDevice (_owner b)
  | Slice s => OwnerBase (SpillableBufferSlice._base s)
  end.

(** The slice [s] lies within its base. *)
Definition slice_within (s : SpillableBufferSlice.t) (w : World) : Prop :=
  ∃ b, objs w !! SpillableBufferSlice._base s = Some b ∧
       0 ≤ SpillableBufferSlice._offset s ∧
       0 ≤ SpillableBufferSlice._size s ∧
       SpillableBufferSlice._offset s + SpillableBufferSlice._size s ≤ _size b.

(** A computation that, when it returns, returns the device address held
    by buffer [self]. *)
Definition returns_ptr_of (self : nat) (m : M World Z) : Prop :=
  ∀ w q, fst (m w) = Ok q ->
         ∃ b, objs (snd (m w)) !! self = Some b ∧ q = _ptr b.

End SpillableInv.

(** ** Vocabulary of further statements about copy-on-write buffers *)

Module CowInv.
Import CopyOnWriteBuffer Cow.

(** The weak sets were numbered by the counter. *)
Definition weaksets_ok (w : World) : Prop :=
  ∀ s, is_Some (weaksets w !! s) -> (s < next_weakset w)%nat.

(** Every weak set of [w0] is still there in [w], with the members it had. *)
Definition grown_from (w0 w : World) : Prop :=
  weaksets_ok w ∧
  ∀ s X, weaksets w0 !! s = Some X -> ∃ X', weaksets w !! s = Some X' ∧ X ⊆ X'.

(** Buffer [r] is a member of the weak set it holds, and that set is the
    one the class dictionary has under the address of the buffer. *)
Definition registered (w : World) (r : nat) (b : t) : Prop :=
  cls_instances w !! _ptr b = Some (_instances b) ∧
  r ∈ default ∅ (weaksets w !! _instances b).

(** The class dictionary is consistent with the buffers, but possibly for
    the buffer [skip]: references and weak sets were numbered by the
    counters, the dictionary names weak sets that exist, and every buffer
    is registered. *)
Definition registry_ok_except (skip : option nat) (w : World) : Prop :=
  (∀ r, is_Some (objs w !! r) -> (r < next_ref w)%nat) ∧
  weaksets_ok w ∧
  (∀ p s, cls_instances w !! p = Some s -> is_Some (weaksets w !! s)) ∧
  ∀ r b, Some r ≠ skip -> objs w !! r = Some b -> registered w r b.

Definition registry_ok (w : World) : Prop := registry_ok_except None w.

End CowInv.

(** * Proofs *)

(** ** Running computations *)

Ltac munfold :=
  unfold mbind, M_bind, mret, M_ret, raise, gets, modify, assert.

Lemma alter_lookup_insert {K A} `{Countable K} (f : A -> A) (m : gmap K A) i x :
  m !! i = Some x -> alter f i m = <[i := f x]> m.
Proof.
  intros Hx. apply map_eq. intros j. destruct (decide (i = j)) as [->|Hne].
  - by rewrite lookup_alter_eq, lookup_insert_eq, Hx.
  - by rewrite lookup_alter_ne, lookup_insert_ne.
Qed.

(** ** Device and host memory *)

Lemma length_dread d p n : length (dread d p n) = n.
Proof. unfold dread. by rewrite length_map, length_seq. Qed.

Lemma lookup_dread d p n i :
  (i < n)%nat -> dread d p n !! i = Some (dmem d (p + Z.of_nat i)).
Proof.
  intros Hi. unfold dread.
  change (map ?f ?l) with (f <$> l).
  rewrite list_lookup_fmap, lookup_seq_lt by done. done.
Qed.

Lemma dread_sub d p n k m :
  (k + m ≤ n)%nat ->
  take m (drop k (dread d p n)) = dread d (p + Z.of_nat k) m.
Proof.
  intros Hle. apply list_eq. intros i.
  destruct (decide (i < m)%nat) as [Hi|Hi].
  - rewrite lookup_take_lt, lookup_drop by done.
    rewrite !lookup_dread by lia. do 2 f_equal. lia.
  - rewrite lookup_take_ge by lia.
    symmetry. apply lookup_ge_None. rewrite length_dread. lia.
Qed.

Lemma dread_dwrite_same d p bs :
  dread (dwrite p bs d) p (length bs) = bs.
Proof.
  apply list_eq. intros i.
  destruct (decide (i < length bs)%nat) as [Hi|Hi].
  - rewrite lookup_dread by done. simpl.
    rewrite bool_decide_eq_true_2 by lia.
    replace (Z.to_nat (p + Z.of_nat i - p)) with i by lia.
    destruct (lookup_lt_is_Some_2 bs i Hi) as [x Hx].
    rewrite Hx. f_equal. by apply nth_lookup_Some.
  - rewrite (proj2 (lookup_ge_None bs i)) by lia.
    apply lookup_ge_None. rewrite length_dread. lia.
Qed.

Lemma dread_dwrite_disjoint d p bs q n :
  q + Z.of_nat n ≤ p ∨ p + Z.of_nat (length bs) ≤ q ->
  dread (dwrite p bs d) q n = dread d q n.
Proof.
  intros Hdis. apply list_eq. intros i.
  destruct (decide (i < n)%nat) as [Hi|Hi].
  - rewrite !lookup_dread by done. simpl.
    rewrite bool_decide_eq_false_2 by lia. done.
  - rewrite !(proj2 (lookup_ge_None _ i)); [done| |];
      rewrite length_dread; lia.
Qed.

Lemma slice_adjust_in_range len i :
  0 ≤ i ≤ len -> slice_adjust len i = i.
Proof.
  intros Hi. unfold slice_adjust.
  rewrite bool_decide_eq_false_2 by lia.
  case_bool_decide; lia.
Qed.

(** ** Spillable buffers *)

Module SpillableFacts.
Import SpillableBuffer Spillable.

Ltac sunfold :=
  unfold spill, ptr_desc_pop, to_device, bytearray, copy_ptr_to_host,
    log_spill, log_expose, spillable, size, exposed, is_spilled,
    dict_getitem, upd_obj, get_obj, perf_counter, monotonic;
  munfold.

(** One round of symbolic execution: reduce, read the store and the
    dictionaries through the hypotheses at hand, and decide the tests whose
    outcome is known. *)
Ltac sstep :=
  simpl;
  repeat match goal with
  | H : objs _ !! _ = Some _ |- _ => rewrite H
  | H : _ptr_desc _ !! _ = _ |- _ => rewrite H
  | H : spillable_of _ = _ |- _ => rewrite H
  | H : dalloc _ _ = _ |- _ => rewrite H
  end;
  rewrite ?lookup_alter_eq, ?lookup_insert_eq;
  repeat match goal with
  | |- context [bool_decide ?P] =>
      first [ rewrite (bool_decide_eq_true_2 P) by (done || lia)
            | rewrite (bool_decide_eq_false_2 P) by (done || lia || congruence) ]
  end.

Ltac srun := sunfold; repeat (progress sstep).

Lemma World_ext (w1 w2 : World) :
  device w1 = device w2 -> host w1 = host w2 ->
  next_host w1 = next_host w2 -> clock w1 = clock w2 ->
  objs w1 = objs w2 -> next_ref w1 = next_ref w2 ->
  next_lock w1 = next_lock w2 -> statistics w1 = statistics w2 ->
  w1 = w2.
Proof. destruct w1, w2. simpl. intros. by subst. Qed.

Lemma spill_same w self b target :
  objs w !! self = Some b ->
  location b = Some (DStr target) ->
  spill self target w = (Ok tt, tick w).
Proof.
  unfold location. intros Hb Ht. sunfold. simpl. rewrite Hb, Ht.
  rewrite bool_decide_eq_true_2 by done. done.
Qed.

Lemma spill_unspillable w self b target ty :
  objs w !! self = Some b ->
  location b = Some ty ->
  ty ≠ DStr target ->
  spillable_of b = false ->
  spill self target w = (Raise IllegalState, tick w).
Proof.
  unfold location. intros Hb Ht Hne Hs. sunfold. simpl. rewrite Hb, Ht.
  rewrite bool_decide_eq_false_2 by done. simpl.
  rewrite Hb. simpl. rewrite Hs. done.
Qed.

Lemma spill_unknown w self b target ty :
  objs w !! self = Some b ->
  location b = Some (DStr ty) ->
  ty ≠ target -> target ≠ "cpu" -> target ≠ "gpu" ->
  spillable_of b = true ->
  spill self target w = (Raise (InvalidArgument target), tick w).
Proof.
  unfold location. intros Hb Ht Hne Hc Hg Hs. sunfold. simpl. rewrite Hb, Ht.
  rewrite bool_decide_eq_false_2 by congruence. simpl.
  rewrite Hb. simpl. rewrite Hs. simpl.
  rewrite (proj2 (String.eqb_neq target "cpu")) by done.
  rewrite (proj2 (String.eqb_neq target "gpu")) by done.
  rewrite !andb_false_r. done.
Qed.

Lemma mv_write_fresh h k n bs :
  length bs = n ->
  mv_write {| mv_obj := k; mv_start := 0; mv_len := Z.of_nat n;
              c_contiguous := true |} bs
    (<[k := replicate n Byte.x00]> h) = <[k := bs]> h.
Proof.
  intros Hlen. unfold mv_write. simpl.
  rewrite lookup_insert_eq. simpl.
  rewrite insert_insert_eq. f_equal.
  rewrite drop_ge by (rewrite length_replicate; lia).
  by rewrite app_nil_r.
Qed.

Lemma spill_gpu_to_cpu w self b :
  objs w !! self = Some b ->
  location b = Some (DStr "gpu") ->
  spillable_of b = true ->
  0 ≤ _size b ->
  spill self "cpu" w = (Ok tt, after_spill_cpu self b w).
Proof.
  unfold location. intros Hb Ht Hs Hsz. srun.
  f_equal. apply World_ext; simpl; try done.
  - pose proof (mv_write_fresh (host w) (next_host w) (Z.to_nat (_size b))
                  (dread (device w) (_ptr b) (Z.to_nat (_size b)))
                  (length_dread _ _ _)) as Hw.
    rewrite Z2Nat.id in Hw by done. exact Hw.
  - lia.
  - rewrite !alter_alter_eq. by apply alter_lookup_insert.
  - do 3 f_equal. lia.
Qed.

Lemma spill_cpu_to_gpu w self b mv p d' :
  objs w !! self = Some b ->
  location b = Some (DStr "cpu") ->
  host_view b = Some (DView mv) ->
  spillable_of b = true ->
  mv_len mv = _size b ->
  dalloc (mv_len mv) (device w) = Some (p, d') ->
  spill self "gpu" w = (Ok tt, after_spill_gpu self b mv p d' w).
Proof.
  unfold location, host_view. intros Hb Ht Hv Hs Hlen Ha. srun.
  f_equal. apply World_ext; simpl; try done.
  - lia.
  - rewrite !alter_alter_eq. by apply alter_lookup_insert.
  - do 3 f_equal. lia.
Qed.

Lemma spill_cpu_to_gpu_oom w self b mv :
  objs w !! self = Some b ->
  location b = Some (DStr "cpu") ->
  host_view b = Some (DView mv) ->
  spillable_of b = true ->
  dalloc (mv_len mv) (device w) = None ->
  spill self "gpu" w = (Raise MemoryError, after_spill_gpu_oom self b w).
Proof.
  unfold location, host_view. intros Hb Ht Hv Hs Ha. srun.
  f_equal. apply World_ext; simpl; try done.
  by apply alter_lookup_insert.
Qed.

Lemma spillable_of_false b :
  spillable_of b = false ↔ _exposed b = true ∨ _spill_locks b ≠ ∅.
Proof.
  unfold spillable_of. rewrite andb_false_iff, negb_false_iff.
  rewrite bool_decide_eq_false. rewrite size_empty_iff.
  by rewrite leibniz_equiv_iff.
Qed.

Lemma spillable_run w self b :
  objs w !! self = Some b -> spillable self w = (Ok (spillable_of b), w).
Proof. intros Hb. by srun. Qed.

Lemma lookup_tick w self : objs (tick w) !! self = objs w !! self.
Proof. done. Qed.

(** C1 (what the code does): on a buffer on host, when the device
    allocation of [spill(target="gpu")] fails, [MemoryError] propagates,
    the location is still host and nothing is logged, but the buffer no
    longer holds its host bytes: the ["memoryview"] entry was popped from
    [_ptr_desc] before the allocation was attempted and is not put back. *)
Theorem spill_gpu_alloc_failure_loses_host_view w self b mv :
  objs w !! self = Some b ->
  location b = Some (DStr "cpu") ->
  host_view b = Some (DView mv) ->
  spillable_of b = true ->
  dalloc (mv_len mv) (device w) = None ->
  ∃ w' b',
    spill self "gpu" w = (Raise OutOfMemory, w') ∧
    objs w' !! self = Some b' ∧
    location b' = Some (DStr "cpu") ∧
    statistics w' = statistics w ∧
    host w' = host w ∧
    host_view b' = None.
Proof.
  intros Hb Ht Hv Hs Ha.
  exists (after_spill_gpu_oom self b w), (set_ptr_desc (delete "memoryview") b).
  split; [by eapply spill_cpu_to_gpu_oom|].
  simpl. rewrite lookup_insert_eq.
  unfold location, host_view in *. simpl.
  rewrite lookup_delete_eq, lookup_delete_ne by done. done.
Qed.

Lemma spill_gpu_alloc_failure_witness :
  ∃ w' b',
    spill 0 "gpu" host_world_full = (Raise OutOfMemory, w') ∧
    objs w' !! 0%nat = Some b' ∧
    location b' = Some (DStr "cpu") ∧
    statistics w' = statistics host_world_full ∧
    host w' = host host_world_full ∧
    host_view b' = None.
Proof.
  eapply (spill_gpu_alloc_failure_loses_host_view host_world_full 0 _ three_bytes);
    by vm_compute.
Defined.

(** C2: [spillable] is false exactly when the buffer is exposed or its set
    of live spill locks is not empty, and [spill(target="cpu")] on a buffer
    that is on device and not spillable raises the [ValueError] of an
    illegal state and leaves the buffer as it was, on device. *)
Theorem unspillable_buffer_refuses_spill w self b :
  objs w !! self = Some b ->
  (spillable self w = (Ok false, w) ↔
     _exposed b = true ∨ _spill_locks b ≠ ∅) ∧
  (location b = Some (DStr "gpu") ->
   spillable_of b = false ->
   ∃ w', spill self "cpu" w = (Raise IllegalState, w') ∧
         objs w' = objs w ∧
         is_spilled self w' = (Ok false, w')).
Proof.
  intros Hb. split.
  - rewrite (spillable_run _ _ _ Hb), <- spillable_of_false.
    split; [intros Heq; by injection Heq|by intros ->].
  - intros Ht Hs. exists (tick w). split; [|split; [done|]].
    + by eapply spill_unspillable.
    + unfold location in Ht. srun. done.
Qed.

Lemma unspillable_buffer_refuses_spill_witness :
  (spillable 0 locked_world = (Ok false, locked_world)) ∧
  ∃ w', spill 0 "cpu" locked_world = (Raise IllegalState, w') ∧
        objs w' = objs locked_world ∧
        is_spilled 0 w' = (Ok false, w').
Proof.
  assert (Hb : objs locked_world !! 0%nat =
               Some (set_spill_locks (λ _, {[0%nat]})
                       {| _owner := Some {| db_ptr := 100; db_size := 4 |};
                          _ptr := 100; _size := 4; _spill_locks := ∅;
                          _last_accessed := 0;
                          _ptr_desc := {["type" := DStr "gpu"]};
                          _exposed := false |})) by (by vm_compute).
  pose proof (unspillable_buffer_refuses_spill locked_world 0 _ Hb) as [H1 H2].
  split.
  - apply H1. right. simpl. apply non_empty_singleton_L.
  - apply H2; by vm_compute.
Defined.

(** C6 (as the code has it): for a target other than ["cpu"] and ["gpu"],
    [spill] fails with the [ValueError] of an unknown target when the buffer
    is spillable; when it is exposed or locked the spillable test comes
    first and the [ValueError] is the one of an illegal state.  In both
    cases the buffer is left as it was. *)
Theorem spill_unknown_target w self b ty target :
  objs w !! self = Some b ->
  location b = Some (DStr ty) ->
  ty = "cpu" ∨ ty = "gpu" ->
  target ≠ "cpu" -> target ≠ "gpu" ->
  ∃ w',
    spill self target w =
      (Raise (if spillable_of b then InvalidArgument target
              else IllegalState), w') ∧
    objs w' = objs w.
Proof.
  intros Hb Ht Hty Hc Hg. exists (tick w). split; [|done].
  destruct (spillable_of b) eqn:Hs.
  - eapply spill_unknown; eauto. destruct Hty; congruence.
  - eapply spill_unspillable; eauto. destruct Hty; congruence.
Qed.

Lemma spill_unknown_target_witness :
  ∃ w',
    spill 0 "disk" device_world = (Raise (InvalidArgument "disk"), w') ∧
    objs w' = objs device_world.
Proof.
  assert (Hb : objs device_world !! 0%nat =
               Some {| _owner := Some {| db_ptr := 100; db_size := 4 |};
                       _ptr := 100; _size := 4; _spill_locks := ∅;
                       _last_accessed := 0;
                       _ptr_desc := {["type" := DStr "gpu"]};
                       _exposed := false |}) by (by vm_compute).
  apply (spill_unknown_target device_world 0 _ "gpu" "disk" Hb);
    [by vm_compute | by right | done | done].
Defined.

(** C6 (counterexample): on a buffer that was exposed at creation,
    [spill(target="disk")] does not fail with the error of an unknown
    target but with the one of an illegal state. *)
Lemma spill_unknown_target_exposed_counterexample :
  fst (spill 0 "disk" exposed_world) = Raise IllegalState ∧
  fst (spill 0 "disk" exposed_world) ≠ Raise (InvalidArgument "disk").
Proof. split; [by vm_compute|]. vm_compute. discriminate. Qed.

Lemma wf_buf_cases b :
  wf_buf b = true ->
  0 ≤ _size b ∧
  (location b = Some (DStr "gpu") ∨
   (location b = Some (DStr "cpu") ∧ spillable_of b = true ∧
    ∃ mv, host_view b = Some (DView mv) ∧ mv_len mv = _size b ∧
          0 ≤ mv_start mv)).
Proof.
  unfold wf_buf. intros H.
  apply andb_true_iff in H as [Hsz H]. apply bool_decide_eq_true in Hsz.
  split; [done|].
  destruct (location b) as [[ty|]|]; try done.
  destruct (String.eqb ty "gpu") eqn:Hg.
  { apply String.eqb_eq in Hg as ->. by left. }
  destruct (String.eqb ty "cpu") eqn:Hc; [|done].
  apply String.eqb_eq in Hc as ->. right.
  apply andb_true_iff in H as [Hs H].
  destruct (host_view b) as [[|mv]|]; try done.
  apply andb_true_iff in H as [H1 H2].
  apply bool_decide_eq_true in H1, H2. eauto 10.
Qed.

Lemma take_drop_take {A} (l : list A) n k m :
  (k + n ≤ m)%nat -> take n (drop k (take m l)) = take n (drop k l).
Proof.
  intros Hle. rewrite <- (take_drop m l) at 2.
  destruct (decide (m ≤ length l)%nat) as [Hm|Hm].
  - rewrite drop_app_le by (rewrite length_take; lia).
    rewrite take_app_le; [done|]. rewrite length_drop, length_take. lia.
  - rewrite (drop_ge l m) by lia. by rewrite app_nil_r.
Qed.

Lemma mv_read_slice h mv offset n :
  0 ≤ mv_start mv -> 0 ≤ offset -> 0 ≤ n -> offset + n ≤ mv_len mv ->
  mv_read h (mv_slice mv offset (offset + n)) =
  take (Z.to_nat n) (drop (Z.to_nat offset) (mv_read h mv)).
Proof.
  intros Hst Ho Hn Hle. unfold mv_read, mv_slice. simpl.
  rewrite !slice_adjust_in_range by lia.
  replace (if bool_decide (offset < offset + n) then offset + n - offset else 0)
    with n by (case_bool_decide; lia).
  rewrite take_drop_take by lia.
  rewrite drop_drop. do 2 f_equal. lia.
Qed.

Ltac vunfold :=
  unfold memoryview, bytearray, copy_ptr_to_host, spillable, size,
    dict_getitem, upd_obj, get_obj;
  munfold.

(** A slice of a view, with the clamping of Python's slices. *)
Lemma mv_read_slice_clamped h mv offset n :
  0 ≤ mv_start mv -> 0 ≤ mv_len mv -> 0 ≤ offset -> 0 ≤ n ->
  mv_read h (mv_slice mv offset (offset + n)) =
  take (Z.to_nat n) (drop (Z.to_nat offset) (mv_read h mv)).
Proof.
  intros Hst Hlen Ho Hn.
  destruct (decide (offset + n ≤ mv_len mv)) as [Hin|Hout];
    [by apply mv_read_slice|].
  unfold mv_read, mv_slice, slice_adjust. simpl.
  rewrite (bool_decide_eq_false_2 (offset < 0)) by lia.
  rewrite (bool_decide_eq_false_2 (offset + n < 0)) by lia.
  rewrite (bool_decide_eq_true_2 (mv_len mv ≤ offset + n)) by lia.
  rewrite skipn_firstn_comm, take_take, drop_drop.
  destruct (decide (mv_len mv ≤ offset)) as [Hbeyond|Hinside].
  - rewrite (bool_decide_eq_true_2 (mv_len mv ≤ offset)) by done.
    rewrite (bool_decide_eq_false_2 (mv_len mv < mv_len mv)) by lia.
    replace (Z.to_nat n `min` (Z.to_nat (mv_len mv) - Z.to_nat offset))%nat
      with 0%nat by lia.
    done.
  - rewrite (bool_decide_eq_false_2 (mv_len mv ≤ offset)) by done.
    rewrite (bool_decide_eq_true_2 (offset < mv_len mv)) by lia.
    f_equal; [lia|]. f_equal. lia.
Qed.

Lemma drop_dread d p n k :
  drop k (dread d p n) = dread d (p + Z.of_nat k) (n - k).
Proof.
  destruct (decide (k ≤ n)%nat) as [Hk|Hk].
  - rewrite <- (dread_sub d p n k (n - k)) by lia.
    rewrite take_ge; [done|]. rewrite length_drop, length_dread. lia.
  - rewrite drop_ge by (rewrite length_dread; lia).
    by replace (n - k)%nat with 0%nat by lia.
Qed.

(** C10: [memoryview()] on a spillable buffer moves the buffer to host and
    returns a slice of the buffer's own host view, whose bytes are the
    contents of the buffer at the requested offset and size, cut at the end
    of the buffer as Python's slices are.  On a buffer that is exposed or
    locked, which is on device, it leaves the buffer as it is and returns
    the view of a new host byte array filled with [size] device bytes from
    [_ptr + offset]: these are the contents of the buffer at the requested
    offset and size when the request lies within the buffer, but a request
    that goes beyond its end, as [memoryview(offset=k)] with the default
    size does for every [k > 0], is not cut: the view is longer than what
    the buffer holds from that offset, and its last bytes are the device
    bytes that follow the buffer. *)
Theorem memoryview_reads_past_buffer w self b offset size n :
  objs w !! self = Some b ->
  wf_buf b = true ->
  n = default (_size b) size ->
  0 ≤ offset -> 0 ≤ n ->
  ∃ mv w' b',
    memoryview self offset size w = (Ok mv, w') ∧
    objs w' !! self = Some b' ∧
    (spillable_of b = true ->
       location b' = Some (DStr "cpu") ∧
       (∃ hv, host_view b' = Some (DView hv) ∧
              mv = mv_slice hv offset (offset + n) ∧
              mv_obj mv = mv_obj hv) ∧
       mv_read (host w') mv =
         take (Z.to_nat n) (drop (Z.to_nat offset) (contents w b))) ∧
    (spillable_of b = false ->
       location b = Some (DStr "gpu") ∧
       objs w' = objs w ∧
       mv = fresh_view w n ∧
       next_host w' = S (next_host w) ∧
       mv_read (host w') mv = dread (device w) (_ptr b + offset) (Z.to_nat n) ∧
       (offset + n ≤ _size b ->
          mv_read (host w') mv =
            take (Z.to_nat n) (drop (Z.to_nat offset) (contents w b))) ∧
       (_size b < offset + n -> 0 < n ->
          (length (take (Z.to_nat n) (drop (Z.to_nat offset) (contents w b)))
           < length (mv_read (host w') mv))%nat ∧
          (offset ≤ _size b ->
             drop (Z.to_nat (_size b - offset)) (mv_read (host w') mv) =
               dread (device w) (_ptr b + _size b)
                     (Z.to_nat (offset + n - _size b))))).
Proof.
  intros Hb Hwf Hn Ho Hn0.
  destruct (wf_buf_cases _ Hwf) as [Hsz [Hg|(Hc & Hs & hv & Hv & Hlen & Hst)]].
  - destruct (spillable_of b) eqn:Hs.
    + (* spillable, on device: moved to host *)
      exists (mv_slice (fresh_view w (_size b)) offset (offset + n)),
        (after_spill_cpu self b w), (spilled_buf (fresh_view w (_size b)) b).
      split.
      { vunfold. repeat (progress sstep).
        rewrite (spill_gpu_to_cpu _ _ _ Hb Hg Hs Hsz). simpl.
        rewrite lookup_insert_eq. simpl.
        rewrite lookup_insert_ne, lookup_insert_eq by done. simpl.
        destruct size; simpl in Hn; by subst. }
      split; [by simpl; rewrite lookup_insert_eq|].
      split; [|done]. intros _. split.
      { unfold location. simpl. by rewrite lookup_insert_eq. }
      split.
      { eexists. split; [|split; reflexivity].
        unfold host_view. simpl.
        by rewrite lookup_insert_ne, lookup_insert_eq. }
      rewrite mv_read_slice_clamped by (simpl; lia).
      unfold mv_read, contents. simpl. rewrite lookup_insert_eq. simpl.
      rewrite bool_decide_eq_true_2 by done.
      change (Z.to_nat 0) with 0%nat.
      rewrite drop_0.
      rewrite (take_ge (dread _ _ _)) by (rewrite length_dread; lia).
      done.
    + (* not spillable, on device: a new host copy *)
      exists (fresh_view w n),
        (set_next_host (S (next_host w))
           (set_host <[next_host w :=
                         dread (device w) (_ptr b + offset) (Z.to_nat n)]> w)),
        b.
      assert (Hread : mv_read
                (<[next_host w :=
                     dread (device w) (_ptr b + offset) (Z.to_nat n)]> (host w))
                (fresh_view w n)
              = dread (device w) (_ptr b + offset) (Z.to_nat n)).
      { unfold mv_read. simpl. rewrite lookup_insert_eq. simpl.
        change (Z.to_nat 0) with 0%nat. rewrite drop_0.
        apply take_ge. rewrite length_dread. lia. }
      assert (Hcont : contents w b
                      = dread (device w) (_ptr b) (Z.to_nat (_size b)))
        by (unfold contents; by rewrite bool_decide_eq_true_2).
      unfold location in Hg.
      split.
      { vunfold.
        replace (match size with Some n0 => n0 | None => _size b end) with n
          by (destruct size; simpl in Hn; by subst).
        repeat (progress sstep).
        replace (match size with Some n0 => n0 | None => _size b end) with n
          by (destruct size; simpl in Hn; by subst).
        repeat (progress sstep).
        f_equal. apply World_ext; simpl; try done.
        pose proof (mv_write_fresh (host w) (next_host w) (Z.to_nat n)
                      (dread (device w) (_ptr b + offset) (Z.to_nat n))
                      (length_dread _ _ _)) as Hw.
        rewrite Z2Nat.id in Hw by done. exact Hw. }
      split; [done|]. split; [done|]. intros _.
      split; [done|]. split; [done|]. split; [done|]. split; [done|].
      simpl. rewrite Hread. split; [done|]. split.
      * intros Hle. rewrite Hcont, dread_sub by lia. f_equal. lia.
      * intros Hpast Hpos. rewrite Hcont. split.
        -- rewrite length_take, length_drop, !length_dread. lia.
        -- intros Hoff. rewrite drop_dread. f_equal; lia.
  - (* on host already *)
    exists (mv_slice hv offset (offset + n)), (tick w), b.
    split.
    { vunfold. repeat (progress sstep).
      rewrite (spill_same _ _ _ _ Hb Hc). unfold host_view in Hv.
      repeat (progress sstep).
      destruct size; simpl in Hn; by subst. }
    split; [done|]. split; [|congruence]. intros _.
    split; [done|]. split; [by exists hv|].
    rewrite mv_read_slice_clamped by lia. unfold contents. simpl.
    rewrite bool_decide_eq_false_2 by (rewrite Hc; congruence).
    by rewrite Hv.
Qed.

Lemma memoryview_reads_past_buffer_witness :
  ∃ mv w',
    memoryview 0 1 None exposed_neighbour_world = (Ok mv, w') ∧
    objs w' = objs exposed_neighbour_world ∧
    mv_read (host w') mv = [Byte.x00; Byte.x00; Byte.x00; Byte.xff] ∧
    ∃ b, objs exposed_neighbour_world !! 0%nat = Some b ∧
         drop 1 (contents exposed_neighbour_world b)
           = [Byte.x00; Byte.x00; Byte.x00].
Proof.
  assert (Hb : ∃ b, objs exposed_neighbour_world !! 0%nat = Some b ∧
                    wf_buf b = true ∧ spillable_of b = false ∧
                    _ptr b = 100 ∧ _size b = 4 ∧
                    drop 1 (contents exposed_neighbour_world b)
                      = [Byte.x00; Byte.x00; Byte.x00])
    by (by vm_compute; eauto 10).
  destruct Hb as (b & Hb & Hwf & Hs & Hp & Hsz & Hcont).
  destruct (memoryview_reads_past_buffer exposed_neighbour_world 0 b 1 None 4
              Hb Hwf)
    as (mv & w' & b' & Hrun & _ & _ & Hun); [by rewrite Hsz|lia|lia|].
  destruct (Hun Hs) as (_ & Hobjs & _ & _ & Hread & _).
  exists mv, w'. split; [done|]. split; [done|]. split; [|by exists b].
  rewrite Hread, Hp. by vm_compute.
Defined.

(** *** The manager's pass *)

Lemma wf_buf_spilled w b :
  0 ≤ _size b -> spillable_of b = true ->
  wf_buf (spilled_buf (fresh_view w (_size b)) b) = true.
Proof.
  intros Hsz Hs. unfold wf_buf, location, host_view. simpl.
  rewrite lookup_insert_eq. simpl.
  rewrite lookup_insert_ne, lookup_insert_eq by done.
  unfold spillable_of in *. simpl. rewrite Hs.
  by rewrite !bool_decide_eq_true_2 by done.
Qed.

Lemma wf_buf_unspilled db b :
  0 ≤ _size b -> wf_buf (unspilled_buf db b) = true.
Proof.
  intros Hsz. unfold wf_buf, location. simpl.
  rewrite lookup_insert_eq. simpl.
  by rewrite bool_decide_eq_true_2 by done.
Qed.

Lemma wf_world_lookup w r b :
  wf_world w -> objs w !! r = Some b -> wf_buf b = true.
Proof. intros Hwf Hb. by destruct (Hwf r b Hb). Qed.

Lemma wf_world_refs_ok w : wf_world w -> refs_ok w.
Proof. intros Hwf r [b Hb]. by destruct (Hwf r b Hb). Qed.

Lemma wf_world_update w w' self b b' :
  wf_world w -> objs w !! self = Some b -> wf_buf b' = true ->
  objs w' = <[self := b']> (objs w) -> next_ref w' = next_ref w ->
  wf_world w'.
Proof.
  intros Hwf Hb Hb' Hobjs Href r x. rewrite Hobjs, Href.
  destruct (decide (self = r)) as [->|Hne].
  - rewrite lookup_insert_eq. intros [= <-]. split; [done|].
    by destruct (Hwf r b Hb).
  - rewrite lookup_insert_ne by done. apply Hwf.
Qed.

Lemma manager_frame_refl w : wf_world w -> manager_frame w w.
Proof.
  intros Hwf. split; [done|]. split; [done|]. split; [done|]. split.
  - intros r b Hb. by exists b.
  - exists []. by rewrite app_nil_r.
Qed.

Lemma manager_frame_trans w1 w2 w3 :
  manager_frame w1 w2 -> manager_frame w2 w3 -> manager_frame w1 w3.
Proof.
  intros (_ & Hr1 & Hl1 & Ho1 & evs1 & Hs1 & He1)
         (Hwf & Hr2 & Hl2 & Ho2 & evs2 & Hs2 & He2).
  split; [done|]. split; [congruence|]. split; [congruence|]. split.
  - intros r b Hb. destruct (Ho1 r b Hb) as (b' & Hb' & ? & ? & ?).
    destruct (Ho2 r b' Hb') as (b'' & Hb'' & ? & ? & ?).
    exists b''. split; [done|]. split; [congruence|]. split; congruence.
  - exists (evs1 ++ evs2). split.
    + rewrite Hs2, Hs1. by rewrite app_assoc.
    + rewrite forallb_app. by rewrite He1, He2.
Qed.

Lemma manager_frame_tick w : wf_world w -> manager_frame w (tick w).
Proof.
  intros Hwf. split; [done|]. split; [done|]. split; [done|]. split.
  - intros r b Hb. by exists b.
  - exists []. by rewrite app_nil_r.
Qed.

Lemma manager_frame_spill_cpu w self b :
  wf_world w -> objs w !! self = Some b -> spillable_of b = true ->
  manager_frame w (after_spill_cpu self b w).
Proof.
  intros Hwf Hb Hs.
  destruct (wf_buf_cases _ (wf_world_lookup _ _ _ Hwf Hb)) as [Hsz _].
  split; [|split; [done|split; [done|split]]].
  - eapply wf_world_update; eauto. by apply wf_buf_spilled.
  - intros r x Hx. simpl. destruct (decide (self = r)) as [->|Hne].
    + rewrite lookup_insert_eq. eexists. split; [done|].
      replace x with b by congruence. done.
    + rewrite lookup_insert_ne by done. by exists x.
  - by eexists.
Qed.

Lemma spill_victim_frame w r :
  wf_world w ->
  ∃ w', spill_victim r w = (Ok tt, w') ∧ manager_frame w w'.
Proof.
  intros Hwf. unfold spill_victim.
  destruct (objs w !! r) as [b|] eqn:Hb;
    [|by eauto using manager_frame_refl].
  destruct (spillable_of b) eqn:Hs; [|by eauto using manager_frame_refl].
  destruct (wf_buf_cases _ (wf_world_lookup _ _ _ Hwf Hb))
    as [Hsz [Hg|(Hc & _)]].
  - rewrite (spill_gpu_to_cpu _ _ _ Hb Hg Hs Hsz).
    eauto using manager_frame_spill_cpu.
  - rewrite (spill_same _ _ _ _ Hb Hc). eauto using manager_frame_tick.
Qed.

Lemma spill_victims_frame l w :
  wf_world w ->
  ∃ w', spill_victims l w = (Ok tt, w') ∧ manager_frame w w'.
Proof.
  revert w. induction l as [|r l IH]; intros w Hwf.
  - exists w. split; [done|]. by apply manager_frame_refl.
  - destruct (spill_victim_frame w r Hwf) as (w1 & Hrun1 & Hf1).
    destruct (IH w1 (proj1 Hf1)) as (w2 & Hrun2 & Hf2).
    exists w2. split; [|by eapply manager_frame_trans].
    simpl. munfold. by rewrite Hrun1.
Qed.

Lemma spill_to_device_limit_frame victims w :
  wf_world w ->
  ∃ w', spill_to_device_limit victims w = (Ok tt, w') ∧ manager_frame w w'.
Proof. intros Hwf. unfold spill_to_device_limit. by apply spill_victims_frame. Qed.

Lemma expose_count_app self l1 l2 :
  expose_count self (l1 ++ l2) = (expose_count self l1 + expose_count self l2)%nat.
Proof. unfold expose_count. by rewrite filter_app, length_app. Qed.

Lemma expose_count_spill_events self evs :
  forallb is_spill_event evs = true -> expose_count self evs = 0%nat.
Proof.
  unfold expose_count. induction evs as [|e evs IH]; [done|].
  simpl. intros [He Hevs]%andb_true_iff.
  rewrite filter_cons. destruct e; [|done].
  rewrite decide_False by done. by apply IH.
Qed.

(** *** Raw pointer access *)

Ltac punfold :=
  unfold ptr, get_ptr, spill_lock, mutable_ptr, SpillLock_new, SpillLock_del,
    log_expose, upd_obj, get_obj, monotonic, perf_counter;
  munfold.

(** [ptr] once the manager's pass is over, on a buffer [b0] of the world
    [w0] the pass left. *)
Lemma ptr_after_manager victims w w0 self b0 :
  spill_to_device_limit victims w = (Ok tt, w0) ->
  wf_world w0 ->
  objs w0 !! self = Some b0 ->
  match ptr victims self w with
  | (Ok p, w') =>
      ∃ b', objs w' = <[self := b']> (objs w0) ∧
            next_ref w' = next_ref w0 ∧
            wf_buf b' = true ∧
            location b' = Some (DStr "gpu") ∧
            _exposed b' = true ∧
            _spill_locks b' = _spill_locks b0 ∧
            p = _ptr b' ∧
            ∃ evs, statistics w' =
                     statistics w0
                     ++ (if _exposed b0 then [] else [LogExpose self]) ++ evs ∧
                   forallb is_spill_event evs = true
  | (Raise e, w') =>
      e = OutOfMemory ∧
      ∃ b', objs w' !! self = Some b' ∧ _exposed b' = _exposed b0
  end.
Proof.
  intros Hman Hwf Hb0.
  set (w1 := if _exposed b0 then w0
             else set_statistics (λ l, l ++ [LogExpose self]) w0).
  assert (Hb1 : objs w1 !! self = Some b0) by (unfold w1; by destruct (_exposed b0)).
  assert (Hstat : statistics w1 =
            statistics w0 ++ (if _exposed b0 then [] else [LogExpose self])).
  { unfold w1. destruct (_exposed b0); simpl; [by rewrite app_nil_r|done]. }
  assert (Hobjs1 : objs w1 = objs w0) by (unfold w1; by destruct (_exposed b0)).
  assert (Href1 : next_ref w1 = next_ref w0) by (unfold w1; by destruct (_exposed b0)).
  assert (Hrun : ptr victims self w =
     ((spill self "gpu";;
       upd_obj self (set_exposed true);;
       now ← monotonic;
       upd_obj self (set_last_accessed now);;
       b ← get_obj self;
       mret (_ptr b)) w1)).
  { unfold ptr at 1. munfold. rewrite Hman. unfold get_obj at 1. rewrite Hb0.
    unfold w1, log_expose. munfold. by destruct (_exposed b0). }
  rewrite Hrun. clear Hrun.
  destruct (wf_buf_cases _ (wf_world_lookup _ _ _ Hwf Hb0))
    as [Hsz [Hg|(Hc & Hs & mv & Hv & Hlen & Hst)]].
  - (* on device: nothing to move *)
    punfold. rewrite (spill_same _ _ _ _ Hb1 Hg).
    repeat (progress sstep).
    eexists. split.
    { rewrite alter_alter_eq. rewrite Hobjs1.
      apply alter_lookup_insert. exact Hb0. }
    split; [done|]. split.
    { unfold wf_buf, location in *. simpl. rewrite Hg. simpl.
      by rewrite bool_decide_eq_true_2. }
    split; [done|]. split; [done|]. split; [done|]. split; [done|].
    exists []. by rewrite app_nil_r.
  - (* on host: a device allocation is needed *)
    destruct (dalloc (mv_len mv) (device w1)) as [[p d']|] eqn:Ha.
    + punfold. rewrite (spill_cpu_to_gpu _ _ _ _ _ _ Hb1 Hc Hv Hs Hlen Ha).
      repeat (progress sstep).
      eexists. split.
      { rewrite !alter_insert_eq. rewrite Hobjs1. reflexivity. }
      split; [done|]. split.
      { unfold wf_buf, location. simpl. rewrite lookup_insert_eq. simpl.
        by rewrite bool_decide_eq_true_2. }
      split; [by unfold location; simpl; rewrite lookup_insert_eq|].
      split; [done|]. split; [done|]. split; [done|].
      eexists. rewrite Hstat, <- app_assoc. split; [reflexivity|done].
    + punfold. rewrite (spill_cpu_to_gpu_oom _ _ _ _ Hb1 Hc Hv Hs Ha).
      split; [done|]. simpl. rewrite lookup_insert_eq. by eexists.
Qed.

(** *** Exposure is permanent *)

Section Preservation.
Context {P : World -> Prop}.

Lemma pres_bind {A B} (m : M World A) (k : A -> M World B) :
  pres P m -> (∀ a, pres P (k a)) -> pres P (m ≫= k).
Proof.
  intros Hm Hk w HP. specialize (Hm w HP). munfold.
  destruct (m w) as [[a|e] w']; simpl in *; [by apply Hk|done].
Qed.

Lemma pres_mret {A} (a : A) : pres P (mret a).
Proof. by intros w HP. Qed.

Lemma pres_raise {A} e : pres P (raise (A := A) e).
Proof. by intros w HP. Qed.

Lemma pres_assert c : pres P (assert c).
Proof. destruct c; [apply pres_mret|apply pres_raise]. Qed.

End Preservation.

Create HintDb pres.

Section Exposed.
Variable r : nat.

Lemma is_exposed_frame w w' :
  objs w' = objs w -> next_ref w' = next_ref w ->
  is_exposed r w -> is_exposed r w'.
Proof.
  intros Ho Hr [Hrefs Hb]. split.
  - intros k. rewrite Ho, Hr. apply Hrefs.
  - by rewrite Ho.
Qed.

Lemma pres_get_obj self : pres (is_exposed r) (get_obj self).
Proof. intros w HP. unfold get_obj. by destruct (objs w !! self). Qed.

Lemma pres_upd_obj self f :
  (∀ b, _exposed b = true -> _exposed (f b) = true) ->
  pres (is_exposed r) (upd_obj self f).
Proof.
  intros Hf w [Hrefs (b & Hb & He)]. split.
  - intros k. simpl. rewrite lookup_alter_is_Some. apply Hrefs.
  - simpl. destruct (decide (self = r)) as [->|Hne].
    + rewrite lookup_alter_eq, Hb. simpl. eauto.
    + rewrite lookup_alter_ne by done. eauto.
Qed.

Lemma pres_perf_counter : pres (is_exposed r) perf_counter.
Proof. intros w. by apply is_exposed_frame. Qed.

Lemma pres_monotonic : pres (is_exposed r) monotonic.
Proof. apply pres_perf_counter. Qed.

Lemma pres_bytearray n : pres (is_exposed r) (bytearray n).
Proof.
  intros w. unfold bytearray. case_bool_decide; [done|].
  by apply is_exposed_frame.
Qed.

Lemma pres_copy_ptr_to_host p mv : pres (is_exposed r) (copy_ptr_to_host p mv).
Proof. intros w. by apply is_exposed_frame. Qed.

Lemma pres_to_device v : pres (is_exposed r) (to_device v).
Proof.
  intros w. destruct v as [|mv]; [done|]. simpl.
  destruct (dalloc _ _) as [[p d']|]; [|done]. by apply is_exposed_frame.
Qed.

Lemma pres_log_spill src dst n t : pres (is_exposed r) (log_spill src dst n t).
Proof. intros w. by apply is_exposed_frame. Qed.

Lemma pres_log_expose self : pres (is_exposed r) (log_expose self).
Proof. intros w. by apply is_exposed_frame. Qed.

Lemma pres_dict_getitem d k : pres (is_exposed r) (dict_getitem d k).
Proof. unfold dict_getitem. destruct (d !! k); [apply pres_mret|apply pres_raise]. Qed.

Lemma pres_SpillLock_new : pres (is_exposed r) SpillLock_new.
Proof. intros w. by apply is_exposed_frame. Qed.

Lemma pres_SpillLock_del l : pres (is_exposed r) (SpillLock_del l).
Proof.
  intros w [Hrefs (b & Hb & He)]. split.
  - intros k. simpl. rewrite lookup_fmap, fmap_is_Some. apply Hrefs.
  - simpl. rewrite lookup_fmap, Hb. simpl. eauto.
Qed.

Lemma pres_new_obj b : pres (is_exposed r) (new_obj b).
Proof.
  intros w [Hrefs (x & Hx & He)].
  assert (next_ref w ≠ r) as Hne.
  { intros <-. specialize (Hrefs (next_ref w) (mk_is_Some _ _ Hx)). lia. }
  split.
  - intros k. simpl. rewrite lookup_insert_is_Some.
    intros [<-|[_ Hk]]; [lia|]. specialize (Hrefs k Hk). lia.
  - simpl. rewrite lookup_insert_ne by done. eauto.
Qed.

Hint Resolve pres_get_obj pres_perf_counter pres_monotonic pres_bytearray
  pres_copy_ptr_to_host pres_to_device pres_log_spill pres_log_expose
  pres_dict_getitem pres_SpillLock_new pres_SpillLock_del pres_new_obj
  : pres.

Ltac pres_go :=
  repeat first
    [ solve [eauto with pres]
    | apply pres_bind; [|intros ?]
    | apply pres_mret
    | apply pres_raise
    | apply pres_assert
    | apply pres_upd_obj; solve [intros ?; simpl; done]
    | match goal with
      | |- pres _ (if ?c then _ else _) => destruct c
      | |- pres _ (match ?x with _ => _ end) => destruct x
      end ].

Lemma pres_size self : pres (is_exposed r) (size self).
Proof. unfold size. pres_go. Qed.

Lemma pres_spillable self : pres (is_exposed r) (spillable self).
Proof. unfold spillable. pres_go. Qed.

Lemma pres_ptr_desc_pop self k : pres (is_exposed r) (ptr_desc_pop self k).
Proof. unfold ptr_desc_pop. pres_go. Qed.

Hint Resolve pres_size pres_spillable pres_ptr_desc_pop : pres.

Lemma pres_spill self target : pres (is_exposed r) (spill self target).
Proof. unfold spill. pres_go. Qed.

Hint Resolve pres_spill : pres.

Lemma pres_spill_victims l : pres (is_exposed r) (spill_victims l).
Proof.
  induction l as [|k l IH]; simpl; [apply pres_mret|].
  apply pres_bind; [|done].
  intros w HP. unfold spill_victim.
  destruct (objs w !! k) as [b|]; [|done].
  destruct (spillable_of b); [|done]. by apply pres_spill.
Qed.

Lemma pres_spill_to_device_limit victims :
  pres (is_exposed r) (spill_to_device_limit victims).
Proof. intros w. apply pres_spill_victims. Qed.

Hint Resolve pres_spill_to_device_limit : pres.

Lemma pres_ptr victims self : pres (is_exposed r) (ptr victims self).
Proof. unfold ptr. pres_go. Qed.

Lemma pres_spill_lock self l : pres (is_exposed r) (spill_lock self l).
Proof. unfold spill_lock. pres_go. Qed.

Hint Resolve pres_ptr pres_spill_lock : pres.

Lemma pres_get_ptr victims self l : pres (is_exposed r) (get_ptr victims self l).
Proof. unfold get_ptr. pres_go. Qed.

Hint Resolve pres_get_ptr : pres.

Lemma pres_mutable_ptr victims self :
  pres (is_exposed r) (mutable_ptr victims self).
Proof. unfold mutable_ptr. pres_go. Qed.

Lemma pres_memoryview self offset n :
  pres (is_exposed r) (memoryview self offset n).
Proof. unfold memoryview. pres_go. Qed.

Lemma pres_from_device_memory data e :
  pres (is_exposed r) (_from_device_memory data e).
Proof. unfold _from_device_memory, _finalize_init. pres_go. Qed.

Lemma pres_from_host_memory data :
  pres (is_exposed r) (_from_host_memory data).
Proof. unfold _from_host_memory, _finalize_init. pres_go. Qed.

Lemma pres_slice_init base offset n :
  pres (is_exposed r) (SpillableBufferSlice.__init__ base offset n).
Proof. unfold SpillableBufferSlice.__init__. pres_go. Qed.

Hint Resolve pres_mutable_ptr pres_memoryview pres_from_device_memory
  pres_from_host_memory pres_slice_init : pres.

Lemma pres_obj_ptr victims o : pres (is_exposed r) (obj_ptr victims o).
Proof.
  destruct o; simpl; [eauto with pres|].
  unfold SpillableBufferSlice.ptr. pres_go.
Qed.

Lemma pres_obj_size o : pres (is_exposed r) (obj_size o).
Proof.
  destruct o; simpl; [eauto with pres|].
  unfold SpillableBufferSlice.size. pres_go.
Qed.

Lemma pres_obj_get_ptr victims o l :
  pres (is_exposed r) (obj_get_ptr victims o l).
Proof.
  destruct o; simpl; [eauto with pres|].
  unfold SpillableBufferSlice.get_ptr. pres_go.
Qed.

Lemma pres_obj_mutable_ptr victims o :
  pres (is_exposed r) (obj_mutable_ptr victims o).
Proof.
  destruct o; simpl; [eauto with pres|].
  unfold SpillableBufferSlice.mutable_ptr, SpillableBufferSlice.get_ptr.
  pres_go.
Qed.

Lemma pres_obj_spill o target : pres (is_exposed r) (obj_spill o target).
Proof. destruct o; simpl; apply pres_spill. Qed.

Lemma pres_obj_spill_lock o l : pres (is_exposed r) (obj_spill_lock o l).
Proof. destruct o; simpl; apply pres_spill_lock. Qed.

Lemma pres_obj_memoryview o offset n :
  pres (is_exposed r) (obj_memoryview o offset n).
Proof. destruct o; simpl; apply pres_memoryview. Qed.

Lemma pres_obj_getitem o offset n :
  pres (is_exposed r) (obj_getitem o offset n).
Proof. destruct o; simpl; apply pres_slice_init. Qed.

Hint Resolve pres_obj_ptr pres_obj_size : pres.

Lemma pres_cuda_array_interface o :
  pres (is_exposed r) (__cuda_array_interface__ o).
Proof. unfold __cuda_array_interface__. pres_go. Qed.

Lemma pres_getitem victims d i :
  pres (is_exposed r) (DelayedPointerTuple.__getitem__ victims d i).
Proof. unfold DelayedPointerTuple.__getitem__. pres_go. Qed.

Lemma pres_run_op victims o w :
  is_exposed r w -> is_exposed r (run_op victims o w).
Proof.
  revert w. destruct o; simpl.
  - apply pres_obj_spill.
  - apply pres_obj_ptr.
  - apply pres_obj_get_ptr.
  - apply pres_obj_mutable_ptr.
  - apply pres_obj_spill_lock.
  - apply pres_obj_memoryview.
  - apply pres_obj_getitem.
  - apply pres_cuda_array_interface.
  - apply pres_getitem.
  - apply pres_from_device_memory.
  - apply pres_from_host_memory.
  - apply pres_spill_to_device_limit.
  - apply pres_SpillLock_new.
  - apply pres_SpillLock_del.
Qed.

Lemma pres_run_ops victims l w :
  is_exposed r w -> is_exposed r (run_ops victims l w).
Proof.
  revert w. induction l as [|o l IH]; intros w HP; [done|].
  simpl. apply IH. by apply pres_run_op.
Qed.

End Exposed.

Lemma exposed_not_spillable b : _exposed b = true -> spillable_of b = false.
Proof. intros He. unfold spillable_of. by rewrite He. Qed.


Lemma lock_added_then_dropped (l : nat) (X : gset nat) :
  ({[l]} ∪ X) ∖ {[l]} = X ∖ {[l]}.
Proof.
  apply set_eq. intros x.
  rewrite !elem_of_difference, elem_of_union, elem_of_singleton. tauto.
Qed.

Lemma lock_not_in_dropped (l : nat) (X : gset nat) : l ∉ X ∖ {[l]}.
Proof.
  intros [_ Hl]%elem_of_difference. apply Hl. by apply elem_of_singleton.
Qed.

Lemma lock_in_added (l : nat) (X : gset nat) : l ∈ {[l]} ∪ X.
Proof. apply elem_of_union_l. by apply elem_of_singleton. Qed.

Lemma lock_added_nonempty (l : nat) (X : gset nat) : {[l]} ∪ X ≠ ∅.
Proof.
  intros Hempty. apply (not_elem_of_empty (C := gset nat) l).
  rewrite <- Hempty. apply lock_in_added.
Qed.


(** C5: access to the raw pointer without a lock ([ptr], which is what
    [get_ptr] does when the lock is omitted) first lets the manager spill to
    the device limit; when it returns, the buffer is on device and exposed,
    the address returned is its device address, and an exposure event was
    logged if and only if the buffer was not exposed before.  From then on
    the buffer stays exposed, hence unspillable, whatever operations follow.
    The only way the access fails is the [MemoryError] of the device
    allocation that brings the buffer back, which leaves the exposed flag
    as it was. *)
Theorem raw_pointer_access_exposes victims w self b :
  wf_world w ->
  objs w !! self = Some b ->
  get_ptr victims self None = ptr victims self ∧
  ∃ w0,
    spill_to_device_limit victims w = (Ok tt, w0) ∧
    match ptr victims self w with
    | (Ok p, w') =>
        statistics w0 `prefix_of` statistics w' ∧
        expose_count self (statistics w') =
          (expose_count self (statistics w)
           + if _exposed b then 0 else 1)%nat ∧
        (∃ b', objs w' !! self = Some b' ∧
               location b' = Some (DStr "gpu") ∧
               _exposed b' = true ∧
               p = _ptr b') ∧
        ∀ ops, ∃ b'',
          objs (run_ops victims ops w') !! self = Some b'' ∧
          _exposed b'' = true ∧
          spillable_of b'' = false
    | (Raise e, w') =>
        e = OutOfMemory ∧
        ∃ b', objs w' !! self = Some b' ∧ _exposed b' = _exposed b
    end.
Proof.
  intros Hwf Hb. split; [done|].
  destruct (spill_to_device_limit_frame victims w Hwf)
    as (w0 & Hman & Hwf0 & Hr0 & Hl0 & Ho0 & evs0 & Hs0 & He0).
  destruct (Ho0 self b Hb) as (b0 & Hb0 & Hexp0 & Hlocks0 & Hsz0).
  exists w0. split; [done|].
  pose proof (ptr_after_manager victims w w0 self b0 Hman Hwf0 Hb0) as Hptr.
  destruct (ptr victims self w) as [[p|e] w'].
  2:{ destruct Hptr as (-> & b' & Hb' & Hexp). split; [done|].
      exists b'. split; [done|]. congruence. }
  destruct Hptr as (b' & Hobjs & Href & Hwfb & Hloc & Hexp & Hlocks & Hp
                    & evs & Hstat & Hevs).
  assert (Hb' : objs w' !! self = Some b')
    by (by rewrite Hobjs, lookup_insert_eq).
  split; [|split; [|split]].
  - rewrite Hstat. by apply prefix_app_r.
  - rewrite Hstat, Hs0, !expose_count_app, Hexp0.
    rewrite (expose_count_spill_events _ _ He0).
    rewrite (expose_count_spill_events _ _ Hevs).
    destruct (_exposed b); simpl; [lia|].
    unfold expose_count. simpl. rewrite filter_cons, decide_True by done.
    simpl. lia.
  - by exists b'.
  - intros ops.
    assert (is_exposed self w') as Hexposed.
    { split; [|by eauto].
      intros k. rewrite Hobjs, Href, lookup_insert_is_Some.
      intros [<-|[_ Hk]].
      - by destruct (Hwf0 _ _ Hb0).
      - destruct Hk as [x Hx]. by destruct (Hwf0 _ _ Hx). }
    destruct (pres_run_ops self victims ops w' Hexposed)
      as [_ (b'' & Hb'' & He'')].
    exists b''. split; [done|]. split; [done|].
    by apply exposed_not_spillable.
Qed.

Lemma raw_pointer_access_exposes_witness :
  ∃ p w',
    ptr (λ _, [0%nat]) 0 device_world = (Ok p, w') ∧
    expose_count 0 (statistics w') = 1%nat ∧
    ∀ ops, ∃ b'',
      objs (run_ops (λ _, [0%nat]) ops w') !! 0%nat = Some b'' ∧
      _exposed b'' = true ∧
      spillable_of b'' = false.
Proof.
  assert (Hwf : wf_world device_world).
  { intros r x. unfold device_world. simpl.
    rewrite lookup_insert_Some. intros [[<- <-]|[_ Hx]]; [|done].
    split; [by vm_compute|lia]. }
  pose proof (raw_pointer_access_exposes (λ _, [0%nat]) device_world 0 _ Hwf
                (lookup_insert_eq _ _ _)) as [_ (w0 & _ & H)].
  destruct (ptr (λ _, [0%nat]) 0 device_world) as [[p|e] w'] eqn:Hrun;
    [|by vm_compute in Hrun].
  destruct H as (_ & Hcount & _ & Hperm).
  exists p, w'. split; [done|]. split; [|done].
  rewrite Hcount. by vm_compute.
Defined.

(** *** Pointer access under a spill lock *)

Lemma get_ptr_locked victims w self b l :
  objs w !! self = Some b ->
  wf_buf b = true ->
  match get_ptr victims self (Some l) w with
  | (Ok p, w') =>
      ∃ b', objs w' = <[self := b']> (objs w) ∧
            next_lock w' = next_lock w ∧
            wf_buf b' = true ∧
            location b' = Some (DStr "gpu") ∧
            _exposed b' = _exposed b ∧
            _spill_locks b' = {[l]} ∪ _spill_locks b ∧
            _size b' = _size b ∧
            p = _ptr b'
  | (Raise e, w') =>
      e = OutOfMemory ∧
      ∃ b', objs w' = <[self := b']> (objs w) ∧
            next_lock w' = next_lock w ∧
            _exposed b' = _exposed b ∧
            _spill_locks b' = _spill_locks b
  end.
Proof.
  intros Hb Hwf.
  destruct (wf_buf_cases _ Hwf) as [Hsz [Hg|(Hc & Hs & mv & Hv & Hlen & Hst)]].
  - punfold. rewrite (spill_same _ _ _ _ Hb Hg).
    repeat (progress sstep).
    eexists. split.
    { rewrite alter_alter_eq. apply alter_lookup_insert. exact Hb. }
    split; [done|]. split.
    { unfold wf_buf, location in *. simpl. rewrite Hg. simpl.
      by rewrite bool_decide_eq_true_2. }
    done.
  - destruct (dalloc (mv_len mv) (device w)) as [[p d']|] eqn:Ha.
    + punfold. rewrite (spill_cpu_to_gpu _ _ _ _ _ _ Hb Hc Hv Hs Hlen Ha).
      repeat (progress sstep).
      eexists. split; [by rewrite !alter_insert_eq|].
      split; [done|]. split.
      { unfold wf_buf, location. simpl. rewrite lookup_insert_eq. simpl.
        by rewrite bool_decide_eq_true_2. }
      split; [by unfold location; simpl; rewrite lookup_insert_eq|].
      done.
    + punfold. rewrite (spill_cpu_to_gpu_oom _ _ _ _ Hb Hc Hv Hs Ha).
      split; [done|]. by eexists.
Qed.






(** The scenario of a lock that comes and goes, then an exposure: under the
    lock the buffer cannot be moved, without it it can, and once its raw
    pointer was taken it cannot be moved ever again. *)
Example lock_then_expose_scenario :
  let w0 := device_world in
  let w1 := snd ((l ← SpillLock_new; get_ptr (λ _, []) 0 (Some l)) w0) in
  let w2 := snd (SpillLock_del 0 w1) in
  let w3 := snd (spill 0 "cpu" w2) in
  let w4 := snd (get_ptr (λ _, []) 0 None w3) in
  fst (spill 0 "cpu" w1) = Raise IllegalState ∧
  fst (spill 0 "cpu" w2) = Ok tt ∧
  fst (is_spilled 0 w3) = Ok true ∧
  fst (get_ptr (λ _, []) 0 None w3) = Ok 104 ∧
  fst (is_spilled 0 w4) = Ok false ∧
  fst (exposed 0 w4) = Ok true ∧
  fst (spill 0 "cpu" w4) = Raise IllegalState.
Proof. repeat split; by vm_compute. Qed.

(** *** The array interface *)



(** *** Slices *)

(** C7: a slice is its base, an offset and a size and nothing else.
    [spill], [spill_lock], [is_spilled], [exposed] and [spillable] of the
    slice are those of the base, [ptr] and [get_ptr] are those of the base
    with the offset added, slicing a slice gives a slice of the same base,
    and making a slice changes nothing.  So, after any operations, what two
    slices of one base and the base itself report of location and
    protection is the same. *)
Theorem slice_delegates_to_base victims (s : SpillableBufferSlice.t) w :
  let base := SpillableBufferSlice._base s in
  let off := SpillableBufferSlice._offset s in
  (∀ target, SpillableBufferSlice.spill s target w = spill base target w) ∧
  (∀ l, SpillableBufferSlice.spill_lock s l w = spill_lock base l w) ∧
  SpillableBufferSlice.is_spilled s w = is_spilled base w ∧
  SpillableBufferSlice.exposed s w = exposed base w ∧
  SpillableBufferSlice.spillable s w = spillable base w ∧
  (∀ l, SpillableBufferSlice.get_ptr victims s l w =
        match get_ptr victims base l w with
        | (Ok p, w') => (Ok (p + off), w')
        | (Raise e, w') => (Raise e, w')
        end) ∧
  SpillableBufferSlice.ptr victims s w =
    match ptr victims base w with
    | (Ok p, w') => (Ok (p + off), w')
    | (Raise e, w') => (Raise e, w')
    end ∧
  (∀ offset n,
     match SpillableBufferSlice._getitem s offset n w with
     | (Ok s', w') =>
         w' = w ∧
         s' = {| SpillableBufferSlice._base := base;
                 SpillableBufferSlice._offset := offset + off;
                 SpillableBufferSlice._size := n |}
     | (Raise e, w') => w' = w
     end) ∧
  (∀ off2 n2 ops,
     let s2 := {| SpillableBufferSlice._base := base;
                  SpillableBufferSlice._offset := off2;
                  SpillableBufferSlice._size := n2 |} in
     let w' := run_ops victims ops w in
     SpillableBufferSlice.is_spilled s w' = is_spilled base w' ∧
     SpillableBufferSlice.is_spilled s2 w' = is_spilled base w' ∧
     SpillableBufferSlice.exposed s w' = exposed base w' ∧
     SpillableBufferSlice.exposed s2 w' = exposed base w' ∧
     SpillableBufferSlice.spillable s w' = spillable base w' ∧
     SpillableBufferSlice.spillable s2 w' = spillable base w').
Proof.
  simpl. repeat (split; [done|]). split; [|done].
  intros offset n.
  unfold SpillableBufferSlice._getitem, SpillableBufferSlice.__init__.
  repeat case_bool_decide; try done.
  unfold size, get_obj. munfold.
  destruct (objs w !! SpillableBufferSlice._base s); [|done].
  simpl. by case_bool_decide.
Qed.

End SpillableFacts.

(** ** Copy-on-write buffers *)

Module CowFacts.
Import CopyOnWriteBuffer Cow.

Ltac cunfold :=
  unfold ptr, mutable_ptr, copy, _getitem, _from_device_memory,
    _unlink_shared_buffers, _is_shared, _finalize_init, DeviceBuffer_copy,
    DeviceBuffer_new, weakset_len, weakset_add, cls_instances_getitem,
    new_obj, upd_obj, get_obj, poke;
  munfold.

(** *** The allocator *)

Lemma dev_ext_refl d : dev_ext d d.
Proof. split; [lia|done]. Qed.

Lemma dev_ext_trans d1 d2 d3 : dev_ext d1 d2 -> dev_ext d2 d3 -> dev_ext d1 d3.
Proof.
  intros [Hb1 Hr1] [Hb2 Hr2]. split; [lia|].
  intros q n Hq. rewrite Hr2 by lia. by apply Hr1.
Qed.

Lemma DeviceBuffer_from_ptr_spec p n d db d' :
  0 ≤ n ->
  DeviceBuffer_from_ptr p n d = Some (db, d') ->
  db = {| db_ptr := brk d; db_size := n |} ∧
  brk d' = brk d + n ∧
  dev_ext d d' ∧
  dread d' (brk d) (Z.to_nat n) = dread d p (Z.to_nat n).
Proof.
  intros Hn. unfold DeviceBuffer_from_ptr, dalloc.
  case_bool_decide; [|done]. intros [= <- <-]. simpl.
  split; [done|]. split; [done|]. split; [split|].
  - simpl. lia.
  - intros q k Hq. rewrite dread_dwrite_disjoint by (left; simpl; lia). done.
  - pose proof (dread_dwrite_same
                  {| dmem := dmem d; brk := brk d + n; limit := limit d |}
                  (brk d) (dread d p (Z.to_nat n))) as Hsame.
    by rewrite length_dread in Hsame.
Qed.

Lemma DeviceBuffer_new_spec p n w :
  0 ≤ n ->
  match DeviceBuffer_new p n w with
  | (Ok db, w') =>
      db = {| db_ptr := brk (device w); db_size := n |} ∧
      brk (device w') = brk (device w) + n ∧
      dev_ext (device w) (device w') ∧
      dread (device w') (brk (device w)) (Z.to_nat n)
        = dread (device w) p (Z.to_nat n) ∧
      objs w' = objs w ∧ next_ref w' = next_ref w ∧
      weaksets w' = weaksets w ∧ next_weakset w' = next_weakset w ∧
      cls_instances w' = cls_instances w
  | (Raise e, w') => e = MemoryError ∧ w' = w
  end.
Proof.
  intros Hn. unfold DeviceBuffer_new.
  rewrite bool_decide_eq_false_2 by lia.
  destruct (DeviceBuffer_from_ptr p n (device w)) as [[db d']|] eqn:Ha;
    [|done].
  destruct (DeviceBuffer_from_ptr_spec _ _ _ _ _ Hn Ha) as (-> & ? & ? & ?).
  done.
Qed.

(** *** Registration in the class dictionary *)

Lemma CowWorld_ext (w1 w2 : World) :
  device w1 = device w2 -> objs w1 = objs w2 ->
  next_ref w1 = next_ref w2 -> weaksets w1 = weaksets w2 ->
  next_weakset w1 = next_weakset w2 ->
  cls_instances w1 = cls_instances w2 ->
  w1 = w2.
Proof. destruct w1, w2. simpl. intros. by subst. Qed.

(** [_finalize_init] when the address of the buffer is in the class
    dictionary: the buffer joins the weak set found there. *)
Lemma finalize_init_known w self b s :
  objs w !! self = Some b ->
  cls_instances w !! _ptr b = Some s ->
  _finalize_init self w =
    (Ok tt,
     set_objs <[self := set_zero_copied false (set_instances s b)]>
       (set_weaksets (alter (λ m, {[self]} ∪ m) s) w)).
Proof.
  intros Hb Hs. cunfold. simpl. rewrite Hb. simpl. rewrite Hs. simpl.
  rewrite Hs. simpl. f_equal. apply CowWorld_ext; simpl; try done.
  rewrite alter_alter_eq. by rewrite (alter_lookup_insert _ _ _ _ Hb).
Qed.

(** [_finalize_init] when it is not: a new weak set is made for it. *)
Lemma finalize_init_fresh w self b :
  objs w !! self = Some b ->
  cls_instances w !! _ptr b = None ->
  _finalize_init self w =
    (Ok tt,
     {| device := device w;
        objs := <[self := set_zero_copied false
                            (set_instances (next_weakset w) b)]> (objs w);
        next_ref := next_ref w;
        weaksets := <[next_weakset w := {[self]} ∪ ∅]> (weaksets w);
        next_weakset := S (next_weakset w);
        cls_instances := <[_ptr b := next_weakset w]> (cls_instances w) |}).
Proof.
  intros Hb Hs. cunfold. simpl. rewrite Hb. simpl. rewrite Hs. simpl.
  rewrite lookup_insert_eq. simpl. f_equal. apply CowWorld_ext; simpl; try done.
  - rewrite alter_alter_eq. by rewrite (alter_lookup_insert _ _ _ _ Hb).
  - by rewrite alter_insert_eq.
Qed.

Lemma wf_registry_frame w w' :
  cls_instances w' = cls_instances w ->
  weaksets w' = weaksets w ->
  next_weakset w' = next_weakset w ->
  wf_registry w -> wf_registry w'.
Proof. unfold wf_registry. by intros -> -> ->. Qed.

Lemma wf_registry_unique w p q s :
  wf_registry w ->
  cls_instances w !! p = Some s -> cls_instances w !! q = Some s -> p = q.
Proof.
  intros Hwf Hp Hq. destruct (Hwf p s Hp) as (_ & _ & Hinj).
  by apply (Hinj q s Hq).
Qed.

Lemma wf_registry_known w s self :
  wf_registry w ->
  wf_registry (set_weaksets (alter (λ m, {[self]} ∪ m) s) w).
Proof.
  intros Hwf p s' Hp. destruct (Hwf p s' Hp) as (Hlt & Hsome & Hinj).
  split; [done|]. split; [|done].
  simpl. by apply lookup_alter_is_Some.
Qed.

Lemma wf_registry_fresh w p X d o r :
  wf_registry w ->
  cls_instances w !! p = None ->
  wf_registry
    {| device := d; objs := o; next_ref := r;
       weaksets := <[next_weakset w := X]> (weaksets w);
       next_weakset := S (next_weakset w);
       cls_instances := <[p := next_weakset w]> (cls_instances w) |}.
Proof.
  intros Hwf Hnone q s. simpl. rewrite lookup_insert_Some.
  intros [[<- <-]|[Hne Hq]].
  - split; [lia|]. split; [by rewrite lookup_insert_eq|].
    intros q' s'. rewrite lookup_insert_Some.
    intros [[<- _]|[_ Hq']] Heq; [done|]. subst s'.
    destruct (Hwf q' _ Hq') as (Hlt & _). lia.
  - destruct (Hwf q s Hq) as (Hlt & Hsome & Hinj).
    split; [lia|]. split.
    { rewrite lookup_insert_is_Some. right. split; [lia|done]. }
    intros q' s'. rewrite lookup_insert_Some.
    intros [[<- <-]|[_ Hq']] Heq; [lia|]. by apply (Hinj q' s' Hq').
Qed.

(** What [_finalize_init] does in both cases. *)
Lemma finalize_init_frame w self b :
  objs w !! self = Some b ->
  ∃ s w',
    _finalize_init self w = (Ok tt, w') ∧
    device w' = device w ∧
    next_ref w' = next_ref w ∧
    objs w' = <[self := set_zero_copied false (set_instances s b)]> (objs w) ∧
    cls_instances w' !! _ptr b = Some s ∧
    (wf_registry w -> wf_registry w').
Proof.
  intros Hb. destruct (cls_instances w !! _ptr b) as [s|] eqn:Hs.
  - eexists _, _. split; [by apply finalize_init_known|].
    split; [done|]. split; [done|]. split; [done|]. split; [done|].
    intros Hwf.
    apply (wf_registry_frame
             (set_weaksets (alter (λ m, {[self]} ∪ m) s) w)); try done.
    by apply wf_registry_known.
  - eexists _, _. split; [by apply finalize_init_fresh|].
    split; [done|]. split; [done|]. split; [done|].
    split; [by simpl; rewrite lookup_insert_eq|].
    intros Hwf. by apply wf_registry_fresh.
Qed.

(** *** Construction and copies *)

Lemma from_device_memory_spec w owner p n e :
  ∃ s w',
    _from_device_memory owner p n e w = (Ok (next_ref w), w') ∧
    device w' = device w ∧
    next_ref w' = S (next_ref w) ∧
    objs w' = <[next_ref w :=
                  {| _owner := owner; _ptr := p; _size := n;
                     _instances := s; _zero_copied := e |}]> (objs w) ∧
    ((cls_instances w !! p = Some s ∧
      cls_instances w' = cls_instances w ∧
      weaksets w' = alter (λ m, {[next_ref w]} ∪ m) s (weaksets w) ∧
      next_weakset w' = next_weakset w) ∨
     (cls_instances w !! p = None ∧
      s = next_weakset w ∧
      cls_instances w' = <[p := s]> (cls_instances w) ∧
      weaksets w' = <[s := {[next_ref w]} ∪ ∅]> (weaksets w) ∧
      next_weakset w' = S s)).
Proof.
  set (b0 := {| _owner := owner; _ptr := p; _size := n;
                _instances := 0%nat; _zero_copied := false |}).
  set (w1 := set_next_ref (S (next_ref w)) (set_objs <[next_ref w := b0]> w)).
  assert (Hb0 : objs w1 !! next_ref w = Some b0)
    by (simpl; by rewrite lookup_insert_eq).
  assert (Hrun : _from_device_memory owner p n e w =
            ((_finalize_init (next_ref w);;
              upd_obj (next_ref w) (set_zero_copied e);;
              mret (next_ref w)) w1)) by done.
  rewrite Hrun. clear Hrun. munfold.
  destruct (cls_instances w !! p) as [s|] eqn:Hs.
  - rewrite (finalize_init_known w1 _ b0 s Hb0 Hs).
    exists s. eexists. split; [reflexivity|]. simpl.
    split; [done|]. split; [done|]. split.
    { rewrite alter_insert_eq, insert_insert_eq. done. }
    left. done.
  - rewrite (finalize_init_fresh w1 _ b0 Hb0 Hs).
    exists (next_weakset w). eexists. split; [reflexivity|]. simpl.
    split; [done|]. split; [done|]. split.
    { rewrite alter_insert_eq, insert_insert_eq. done. }
    right. done.
Qed.

(** [copy] when it copies the bytes: asked to ([deep]) or because the
    buffer is zero-copied. *)
Lemma copy_physical w a ba deep :
  objs w !! a = Some ba ->
  0 ≤ _size ba ->
  deep = true ∨ _zero_copied ba = true ->
  match copy a deep w with
  | (Ok b, w') =>
      b = next_ref w ∧
      ∃ bb, objs w' = <[b := bb]> (objs w) ∧
            next_ref w' = S (next_ref w) ∧
            _ptr bb = brk (device w) ∧
            _size bb = _size ba ∧
            _zero_copied bb = false ∧
            _owner bb = Some {| db_ptr := brk (device w);
                                db_size := _size ba |} ∧
            brk (device w') = brk (device w) + _size ba ∧
            dev_ext (device w) (device w') ∧
            dread (device w') (_ptr bb) (Z.to_nat (_size bb))
              = dread (device w) (_ptr ba) (Z.to_nat (_size ba)) ∧
            ((cls_instances w !! brk (device w) = Some (_instances bb) ∧
              weaksets w' = alter (λ m, {[b]} ∪ m) (_instances bb) (weaksets w))
             ∨ (cls_instances w !! brk (device w) = None ∧
                _instances bb = next_weakset w ∧
                weaksets w' = <[_instances bb := {[b]} ∪ ∅]> (weaksets w)))
  | (Raise e, w') => e = MemoryError ∧ w' = w
  end.
Proof.
  intros Ha Hsz Hphys.
  assert (Hrun : copy a deep w =
            ((db ← DeviceBuffer_new (_ptr ba) (_size ba);
              _from_device_memory (Some db) (db_ptr db) (db_size db) false) w)).
  { unfold copy, get_obj. munfold. rewrite Ha.
    destruct Hphys as [->| ->]; [done|]. by rewrite andb_false_r. }
  rewrite Hrun. clear Hrun. munfold.
  pose proof (DeviceBuffer_new_spec (_ptr ba) (_size ba) w Hsz) as Hnew.
  destruct (DeviceBuffer_new (_ptr ba) (_size ba) w) as [[db|e] w1];
    [|done].
  destruct Hnew as (-> & Hbrk & Hext & Hread & Hobjs & Href & Hws & Hnw & Hreg).
  simpl.
  destruct (from_device_memory_spec w1
              (Some {| db_ptr := brk (device w); db_size := _size ba |})
              (brk (device w)) (_size ba) false)
    as (s & w' & Hrun & Hdev & Href' & Hobjs' & Hcase).
  rewrite Hrun. split; [congruence|].
  eexists. split; [by rewrite Hobjs', Href, Hobjs|]. simpl.
  split; [congruence|]. split; [done|]. split; [done|]. split; [done|].
  split; [done|]. split; [congruence|]. split; [by rewrite Hdev|].
  split; [by rewrite Hdev|].
  rewrite Hreg, Hws, Hnw in Hcase.
  destruct Hcase as [(? & ? & ? & ?)|(? & ? & ? & ? & ?)]; [left|right]; done.
Qed.

(** [copy(deep=False)] of a buffer that is not zero-copied: a new buffer on
    the same bytes, member of the same weak set. *)
Lemma copy_shallow w a ba :
  objs w !! a = Some ba ->
  _zero_copied ba = false ->
  cls_instances w !! _ptr ba = Some (_instances ba) ->
  ∃ w',
    copy a false w = (Ok (next_ref w), w') ∧
    device w' = device w ∧
    next_ref w' = S (next_ref w) ∧
    objs w' = <[next_ref w :=
                  {| _owner := _owner ba; _ptr := _ptr ba; _size := _size ba;
                     _instances := _instances ba; _zero_copied := false |}]>
                (objs w) ∧
    weaksets w' =
      alter (λ m, {[next_ref w]} ∪ m) (_instances ba) (weaksets w) ∧
    cls_instances w' = cls_instances w.
Proof.
  intros Ha Hzc Hreg.
  set (b0 := {| _owner := _owner ba; _ptr := _ptr ba; _size := _size ba;
                _instances := 0%nat; _zero_copied := false |}).
  set (w1 := set_next_ref (S (next_ref w)) (set_objs <[next_ref w := b0]> w)).
  assert (Hb0 : objs w1 !! next_ref w = Some b0)
    by (simpl; by rewrite lookup_insert_eq).
  assert (Hrun : copy a false w =
            ((_finalize_init (next_ref w);; mret (next_ref w)) w1)).
  { unfold copy, get_obj. munfold. by rewrite Ha, Hzc. }
  rewrite Hrun. clear Hrun. munfold.
  rewrite (finalize_init_known w1 _ b0 (_instances ba) Hb0 Hreg).
  eexists. split; [reflexivity|]. simpl.
  split; [done|]. split; [done|]. split; [|done].
  by rewrite insert_insert_eq.
Qed.

(** Whether a buffer counts as shared: its weak set has more than one
    member. *)
Lemma is_shared_run w b bb :
  objs w !! b = Some bb ->
  _is_shared b w =
    (Ok (bool_decide
           (1 < base.size (default ∅ (weaksets w !! _instances bb)))%nat), w).
Proof. intros Hb. unfold _is_shared, weakset_len, get_obj. munfold. by rewrite Hb. Qed.

(** [_unlink_shared_buffers] on a buffer that is shared and not
    zero-copied: two allocations, and the buffer moves to the second. *)
Lemma unlink_shared w b bb :
  objs w !! b = Some bb ->
  0 ≤ _size bb ->
  _zero_copied bb = false ->
  (1 < base.size (default ∅ (weaksets w !! _instances bb)))%nat ->
  match _unlink_shared_buffers b w with
  | (Ok _, w') =>
      ∃ s, objs w' =
             <[b := {| _owner := Some {| db_ptr := brk (device w) + _size bb;
                                         db_size := _size bb |};
                       _ptr := brk (device w) + _size bb;
                       _size := _size bb;
                       _instances := s;
                       _zero_copied := false |}]> (objs w) ∧
           next_ref w' = next_ref w ∧
           dev_ext (device w) (device w') ∧
           dread (device w') (brk (device w) + _size bb)
                 (Z.to_nat (_size bb))
             = dread (device w) (_ptr bb) (Z.to_nat (_size bb)) ∧
           brk (device w) + _size bb + _size bb ≤ brk (device w') ∧
           cls_instances w' !! (brk (device w) + _size bb) = Some s ∧
           (wf_registry w -> wf_registry w')
  | (Raise e, w') =>
      e = MemoryError ∧ objs w' = objs w ∧ next_ref w' = next_ref w ∧
      dev_ext (device w) (device w')
  end.
Proof.
  intros Hb Hsz Hzc Hshared.
  assert (Hrun : _unlink_shared_buffers b w =
    ((current_buf ← DeviceBuffer_new (_ptr bb) (_size bb);
      new_buf ← DeviceBuffer_copy current_buf;
      upd_obj b (set_ptr (db_ptr new_buf));;
      upd_obj b (set_size (db_size new_buf));;
      upd_obj b (set_owner (Some new_buf));;
      _finalize_init b) w)).
  { unfold _unlink_shared_buffers. munfold. unfold get_obj at 1. rewrite Hb.
    rewrite (is_shared_run _ _ _ Hb), Hzc. simpl.
    by rewrite bool_decide_eq_true_2. }
  rewrite Hrun. clear Hrun. munfold.
  pose proof (DeviceBuffer_new_spec (_ptr bb) (_size bb) w Hsz) as Hnew1.
  destruct (DeviceBuffer_new (_ptr bb) (_size bb) w) as [[db1|e] w1];
    [|by destruct Hnew1 as [-> ->]; eauto using dev_ext_refl].
  destruct Hnew1 as (-> & Hbrk1 & Hext1 & Hread1 & Hobjs1 & Href1
                     & Hws1 & Hnw1 & Hreg1).
  unfold DeviceBuffer_copy. simpl.
  pose proof (DeviceBuffer_new_spec (brk (device w)) (_size bb) w1 Hsz) as Hnew2.
  destruct (DeviceBuffer_new (brk (device w)) (_size bb) w1) as [[db2|e] w2];
    [|by destruct Hnew2 as [-> ->]].
  destruct Hnew2 as (-> & Hbrk2 & Hext2 & Hread2 & Hobjs2 & Href2
                     & Hws2 & Hnw2 & Hreg2).
  unfold upd_obj. munfold. simpl.
  set (bb' := set_owner (Some {| db_ptr := brk (device w1);
                                 db_size := _size bb |})
                (set_size (_size bb) (set_ptr (brk (device w1)) bb))).
  set (w3 := set_objs _ (set_objs _ (set_objs _ w2))).
  assert (Hb3 : objs w3 !! b = Some bb').
  { unfold w3. simpl. rewrite !lookup_alter_eq, Hobjs2, Hobjs1, Hb. done. }
  destruct (finalize_init_frame w3 b bb' Hb3)
    as (s & w' & Hfin & Hdev & Href & Hobjs & Hregs & Hwfr).
  rewrite Hfin. exists s.
  assert (Hobjs3 : objs w3 = <[b := bb']> (objs w)).
  { unfold w3. simpl. rewrite !alter_alter_eq, Hobjs2, Hobjs1.
    by rewrite (alter_lookup_insert _ _ _ _ Hb). }
  split.
  { rewrite Hobjs, Hobjs3, insert_insert_eq. unfold bb'. simpl.
    by rewrite Hbrk1. }
  split; [unfold w3 in Href; simpl in Href; congruence|].
  rewrite Hdev. unfold w3. simpl.
  split; [by eapply dev_ext_trans|].
  split.
  { rewrite <- Hbrk1, Hread2. by rewrite <- Hread1. }
  split; [lia|]. split.
  { unfold bb' in Hregs. simpl in Hregs. by rewrite <- Hbrk1. }
  intros Hwf. apply Hwfr.
  apply (wf_registry_frame w); [| |..|done]; unfold w3; simpl; congruence.
Qed.

(** [_unlink_shared_buffers] otherwise: nothing happens. *)
Lemma unlink_unshared w b bb :
  objs w !! b = Some bb ->
  _zero_copied bb = true ∨
  ¬ (1 < base.size (default ∅ (weaksets w !! _instances bb)))%nat ->
  _unlink_shared_buffers b w = (Ok tt, w).
Proof.
  intros Hb Hor. unfold _unlink_shared_buffers. munfold.
  unfold get_obj at 1. rewrite Hb. rewrite (is_shared_run _ _ _ Hb).
  destruct Hor as [->|Hns]; [done|].
  rewrite bool_decide_eq_false_2 by done. by rewrite andb_false_r.
Qed.

(** [mutable_ptr], whatever the state of the buffer: the address returned
    is the buffer's, the bytes there are the bytes the buffer had, memory
    allocated before is untouched, and the address is the old one or lies
    in memory allocated by the call; it is the latter when the buffer was
    shared and not zero-copied. *)
Lemma mutable_ptr_spec w b bb :
  objs w !! b = Some bb ->
  0 ≤ _size bb ->
  match mutable_ptr b w with
  | (Ok p, w') =>
      ∃ bb', objs w' = <[b := bb']> (objs w) ∧
             next_ref w' = next_ref w ∧
             p = _ptr bb' ∧
             _size bb' = _size bb ∧
             dev_ext (device w) (device w') ∧
             dread (device w') p (Z.to_nat (_size bb))
               = dread (device w) (_ptr bb) (Z.to_nat (_size bb)) ∧
             (p = _ptr bb ∨ brk (device w) ≤ p) ∧
             (_zero_copied bb = false ->
              (1 < base.size (default ∅ (weaksets w !! _instances bb)))%nat ->
              brk (device w) ≤ p)
  | (Raise e, w') =>
      e = MemoryError ∧ objs w' = objs w ∧ next_ref w' = next_ref w ∧
      dev_ext (device w) (device w')
  end.
Proof.
  intros Hb Hsz. unfold mutable_ptr. munfold.
  destruct (_zero_copied bb) eqn:Hzc;
    [|destruct (decide (1 < base.size
                          (default ∅ (weaksets w !! _instances bb)))%nat)
        as [Hsh|Hsh]].
  - rewrite (unlink_unshared _ _ _ Hb) by (by left).
    unfold get_obj. rewrite Hb. exists bb.
    split; [by rewrite insert_id|].
    split; [done|]. split; [done|]. split; [done|].
    split; [apply dev_ext_refl|]. split; [done|]. split; [by left|done].
  - pose proof (unlink_shared w b bb Hb Hsz Hzc Hsh) as H.
    destruct (_unlink_shared_buffers b w) as [[[]|e] w']; [|done].
    destruct H as (s & Hobjs & Href & Hext & Hread & _).
    unfold get_obj. rewrite Hobjs, lookup_insert_eq.
    eexists. split; [done|]. simpl.
    split; [done|]. split; [done|]. split; [done|].
    split; [done|]. split; [done|].
    split; [right; lia|]. intros _ _. lia.
  - rewrite (unlink_unshared _ _ _ Hb) by (by right).
    unfold get_obj. rewrite Hb. exists bb.
    split; [by rewrite insert_id|].
    split; [done|]. split; [done|]. split; [done|].
    split; [apply dev_ext_refl|]. split; [done|]. split; [by left|done].
Qed.

(** *** Isolation *)

Lemma size_two_members (X : gset nat) x y :
  x ∈ X -> y ∈ X -> x ≠ y -> (1 < base.size X)%nat.
Proof.
  intros Hx Hy Hne.
  assert (Hsub : ({[x]} ∪ {[y]} : gset nat) ⊆ X).
  { intros z [Hz|Hz]%elem_of_union; apply elem_of_singleton in Hz; by subst. }
  apply subseteq_size in Hsub.
  rewrite size_union in Hsub.
  - rewrite !size_singleton in Hsub. lia.
  - intros z Hz1 Hz2. apply elem_of_singleton in Hz1, Hz2. congruence.
Qed.

Lemma cow_wf_lookup w r b :
  cow_wf w -> objs w !! r = Some b -> wf_buf w r b.
Proof. intros [Hobjs _] Hb. by apply Hobjs. Qed.

Lemma bytes_of_lookup w r b :
  objs w !! r = Some b ->
  bytes_of w r = dread (device w) (_ptr b) (Z.to_nat (_size b)).
Proof. intros Hb. unfold bytes_of. by rewrite Hb. Qed.

Lemma dev_ext_read d d' p n :
  dev_ext d d' -> 0 ≤ n -> p + n ≤ brk d ->
  dread d' p (Z.to_nat n) = dread d p (Z.to_nat n).
Proof. intros [_ Hframe] Hn Hp. apply Hframe. lia. Qed.

(** C3: for [b = a.copy(deep=False)], [a] and [b] read the same bytes;
    [b.mutable_ptr] keeps the bytes of [b] and, when [a] is not zero-copied,
    returns an address in memory allocated by the call (the shared buffer
    is rebound to a new physical copy); and a write at or above the address
    returned, so any write into [b] through that pointer, leaves the bytes
    read through [a] what they were.  The calls fail only with the
    [MemoryError] of an allocation, and then too [a] reads what it read. *)
Theorem copy_on_write_isolation w a ba :
  cow_wf w ->
  objs w !! a = Some ba ->
  match copy a false w with
  | (Ok b, w1) =>
      bytes_of w1 b = bytes_of w1 a ∧
      bytes_of w1 a = bytes_of w a ∧
      match mutable_ptr b w1 with
      | (Ok p, w2) =>
          (_zero_copied ba = false -> brk (device w1) ≤ p) ∧
          (∃ bb, objs w2 !! b = Some bb ∧ p = _ptr bb ∧ _size bb = _size ba) ∧
          bytes_of w2 b = bytes_of w1 b ∧
          bytes_of w2 a = bytes_of w a ∧
          ∀ off bs, 0 ≤ off ->
            bytes_of (snd (poke (p + off) bs w2)) a = bytes_of w a
      | (Raise e, w2) => e = MemoryError ∧ bytes_of w2 a = bytes_of w a
      end
  | (Raise e, w1) => e = MemoryError ∧ w1 = w
  end.
Proof.
  intros Hwf Ha.
  destruct (cow_wf_lookup _ _ _ Hwf Ha) as (Href & Hsz & Hbrk & Hreg & Hmem).
  assert (Hne : next_ref w ≠ a) by lia.
  (* what is needed of the copy, in both cases *)
  assert (Hcopy :
    match copy a false w with
    | (Ok b, w1) =>
        b = next_ref w ∧
        ∃ bb, objs w1 = <[b := bb]> (objs w) ∧
              _size bb = _size ba ∧
              dev_ext (device w) (device w1) ∧
              dread (device w1) (_ptr bb) (Z.to_nat (_size bb))
                = dread (device w) (_ptr ba) (Z.to_nat (_size ba)) ∧
              (_ptr bb = _ptr ba ∧ _zero_copied ba = false ∧
               _zero_copied bb = false ∧ device w1 = device w ∧
               (1 < base.size (default ∅ (weaksets w1 !! _instances bb)))%nat
               ∨ _zero_copied ba = true ∧ _ptr ba + _size ba ≤ _ptr bb)
    | (Raise e, w1) => e = MemoryError ∧ w1 = w
    end).
  { destruct (_zero_copied ba) eqn:Hzc.
    - pose proof (copy_physical w a ba false Ha Hsz (or_intror Hzc)) as H.
      destruct (copy a false w) as [[b|e] w1]; [|done].
      destruct H as (-> & bb & Hobjs & _ & Hptr & Hsize & _ & _ & _ & Hext
                     & Hread & _).
      split; [done|]. exists bb. repeat (split; [done|]). right.
      split; [done|]. lia.
    - destruct (copy_shallow w a ba Ha Hzc Hreg)
        as (w1 & Hrun & Hdev & _ & Hobjs & Hws & _).
      rewrite Hrun. split; [done|]. eexists. split; [exact Hobjs|]. simpl.
      split; [done|]. rewrite Hdev. split; [apply dev_ext_refl|].
      split; [done|]. left. repeat (split; [done|]).
      rewrite Hws, lookup_alter_eq.
      destruct (weaksets w !! _instances ba) as [X|] eqn:HX; simpl in *;
        [|by apply not_elem_of_empty in Hmem].
      apply (size_two_members _ a (next_ref w)); [|by apply elem_of_union_l, elem_of_singleton|done].
      by apply elem_of_union_r. }
  destruct (copy a false w) as [[b|e] w1]; [|done].
  destruct Hcopy as (-> & bb & Hobjs1 & Hsize & Hext1 & Hread1 & Hcase).
  assert (Ha1 : objs w1 !! a = Some ba)
    by (by rewrite Hobjs1, lookup_insert_ne).
  assert (Hb1 : objs w1 !! next_ref w = Some bb)
    by (by rewrite Hobjs1, lookup_insert_eq).
  assert (Hbytes1 : bytes_of w1 a = bytes_of w a).
  { rewrite (bytes_of_lookup _ _ _ Ha1), (bytes_of_lookup _ _ _ Ha).
    by apply dev_ext_read. }
  split.
  { rewrite Hbytes1, (bytes_of_lookup _ _ _ Hb1), (bytes_of_lookup _ _ _ Ha).
    done. }
  split; [done|].
  assert (Hsz1 : 0 ≤ _size bb) by lia.
  pose proof (mutable_ptr_spec w1 _ bb Hb1 Hsz1) as Hmp.
  assert (Hbrk1 : _ptr ba + _size ba ≤ brk (device w1))
    by (destruct Hext1; lia).
  destruct (mutable_ptr (next_ref w) w1) as [[p|e] w2].
  - destruct Hmp as (bb' & Hobjs2 & _ & Hp & Hsize' & Hext2 & Hread2 & Hwhere
                     & Hfresh).
    assert (Ha2 : objs w2 !! a = Some ba)
      by (by rewrite Hobjs2, lookup_insert_ne).
    assert (Hb2 : objs w2 !! next_ref w = Some bb')
      by (by rewrite Hobjs2, lookup_insert_eq).
    assert (Hbytes2 : bytes_of w2 a = bytes_of w a).
    { rewrite <- Hbytes1.
      rewrite (bytes_of_lookup _ _ _ Ha2), (bytes_of_lookup _ _ _ Ha1).
      by apply dev_ext_read. }
    assert (Hbelow : _ptr ba + _size ba ≤ p).
    { destruct Hcase as [(Hsame & _ & Hzc & _ & Hsh)|[_ Hdis]].
      - specialize (Hfresh Hzc Hsh). lia.
      - destruct Hwhere as [->|Hge]; lia. }
    split.
    { intros Hzc. destruct Hcase as [(_ & _ & Hzc' & _ & Hsh)|[Hzc' _]];
        [eauto|congruence]. }
    split; [exists bb'; split; [done|]; split; [done|lia]|].
    split.
    { rewrite (bytes_of_lookup _ _ _ Hb2), (bytes_of_lookup _ _ _ Hb1).
      rewrite Hsize', <- Hp. done. }
    split; [done|].
    intros off bs Hoff. rewrite <- Hbytes2.
    unfold bytes_of, poke. munfold. simpl. rewrite Ha2.
    apply dread_dwrite_disjoint. left. lia.
  - destruct Hmp as (-> & Hobjs2 & _ & Hext2). split; [done|].
    rewrite <- Hbytes1.
    assert (Ha2 : objs w2 !! a = Some ba) by (by rewrite Hobjs2).
    rewrite (bytes_of_lookup _ _ _ Ha2), (bytes_of_lookup _ _ _ Ha1).
    by apply dev_ext_read.
Qed.

Lemma one_buffer_wf : cow_wf one_buffer.
Proof. apply (bool_decide_unpack _). by vm_compute. Qed.

Lemma copy_on_write_isolation_witness :
  ∃ b w1 p w2,
    copy 0 false one_buffer = (Ok b, w1) ∧
    mutable_ptr b w1 = (Ok p, w2) ∧
    bytes_of (snd (poke (p + 1) [Byte.xff] w2)) 0 = bytes_of one_buffer 0.
Proof.
  assert (Ha : objs one_buffer !! 0%nat =
               Some {| _owner := Some {| db_ptr := 100; db_size := 4 |};
                       _ptr := 100; _size := 4; _instances := 0;
                       _zero_copied := false |}) by (by vm_compute).
  pose proof (copy_on_write_isolation one_buffer 0 _ one_buffer_wf Ha) as H.
  destruct (copy 0 false one_buffer) as [[b|e] w1] eqn:Hcopy;
    [|by vm_compute in Hcopy].
  destruct H as (_ & _ & H).
  destruct (mutable_ptr b w1) as [[p|e] w2] eqn:Hmp.
  - destruct H as (_ & _ & _ & _ & H). exists b, w1, p, w2.
    split; [done|]. split; [done|]. by apply H.
  - exfalso. vm_compute in Hcopy. injection Hcopy as <- <-.
    by vm_compute in Hmp.
Defined.

(** *** Zero-copied buffers stay as they are *)

Section CowPreservation.
Context {P : World -> Prop}.

Lemma cpres_bind {A B} (m : M World A) (k : A -> M World B) :
  pres P m -> (∀ x, pres P (k x)) -> pres P (m ≫= k).
Proof.
  intros Hm Hk w HP. specialize (Hm w HP). munfold.
  destruct (m w) as [[x|e] w']; simpl in *; [by apply Hk|done].
Qed.

Lemma cpres_mret {A} (x : A) : pres P (mret x).
Proof. by intros w HP. Qed.

Lemma cpres_raise {A} e : pres P (raise (A := A) e).
Proof. by intros w HP. Qed.

End CowPreservation.

Create HintDb cpres.

Section Frozen.
Variables (a : nat) (ba : t).
Hypothesis Hzc : _zero_copied ba = true.

Lemma cpres_get_obj self : pres (frozen a ba) (get_obj self).
Proof. intros w HP. unfold get_obj. by destruct (objs w !! self). Qed.

Lemma cpres_upd_obj self f :
  (self = a -> f ba = ba) -> pres (frozen a ba) (upd_obj self f).
Proof.
  intros Hf w (Hrefs & Ha & Hrest). split; [|split; [|done]].
  - intros r. simpl. rewrite lookup_alter_is_Some. apply Hrefs.
  - simpl. destruct (decide (self = a)) as [->|Hne].
    + rewrite lookup_alter_eq, Ha. simpl. by rewrite Hf.
    + by rewrite lookup_alter_ne.
Qed.

Lemma cpres_new_obj_bind {B} owner p n (k : nat -> M World B) :
  (∀ r, r ≠ a -> pres (frozen a ba) (k r)) ->
  pres (frozen a ba) (new_obj owner p n ≫= k).
Proof.
  intros Hk w (Hrefs & Ha & Hrest).
  assert (Hne : next_ref w ≠ a).
  { intros <-. specialize (Hrefs _ (mk_is_Some _ _ Ha)). lia. }
  apply (Hk _ Hne). split; [|split; [|done]].
  - intros r. simpl. rewrite lookup_insert_is_Some.
    intros [<-|[_ Hr]]; [lia|]. specialize (Hrefs r Hr). lia.
  - simpl. by rewrite lookup_insert_ne.
Qed.

Lemma cpres_cls_instances_getitem p :
  pres (frozen a ba) (cls_instances_getitem p).
Proof.
  intros w HP. unfold cls_instances_getitem.
  destruct (cls_instances w !! p) as [s|] eqn:Hp; [done|].
  destruct HP as (Hrefs & Ha & ? & ? & ? & Hlt & Hreg & Huniq).
  unfold frozen. simpl. repeat (split; [done|]). split; [lia|]. split.
  - rewrite lookup_insert_ne; [done|]. intros Heq. rewrite Heq in Hp.
    congruence.
  - intros q. rewrite lookup_insert_Some. intros [[_ Heq]|[_ Hq]]; [lia|].
    by apply Huniq.
Qed.

Lemma cpres_weakset_add s self : pres (frozen a ba) (weakset_add s self).
Proof. by intros w HP. Qed.

Lemma cpres_weakset_len s : pres (frozen a ba) (weakset_len s).
Proof. by intros w HP. Qed.

Lemma cpres_DeviceBuffer_new p n : pres (frozen a ba) (DeviceBuffer_new p n).
Proof.
  intros w HP. unfold DeviceBuffer_new. case_bool_decide; [done|].
  destruct (DeviceBuffer_from_ptr p n (device w)) as [[db d']|] eqn:Hd;
    [|done].
  assert (Hn : 0 ≤ n) by lia.
  destruct (DeviceBuffer_from_ptr_spec _ _ _ _ _ Hn Hd) as (_ & Hbrk & _).
  destruct HP as (? & ? & ? & ? & ? & ?).
  unfold frozen. simpl. repeat (split; [done|]). split; [lia|done].
Qed.

Lemma cpres_poke p bs : pres (frozen a ba) (poke p bs).
Proof. by intros w HP. Qed.

Hint Resolve cpres_get_obj cpres_cls_instances_getitem cpres_weakset_add
  cpres_weakset_len cpres_DeviceBuffer_new cpres_poke : cpres.

Ltac cpres_go :=
  repeat first
    [ solve [eauto with cpres]
    | apply cpres_new_obj_bind; intros ? ?
    | apply cpres_bind; [|intros ?]
    | apply cpres_mret
    | apply cpres_raise
    | apply cpres_upd_obj; solve [intros; congruence]
    | match goal with
      | |- pres _ (if ?c then _ else _) => destruct c
      end ].

Lemma cpres_finalize_init self :
  self ≠ a -> pres (frozen a ba) (_finalize_init self).
Proof. intros Hne. unfold _finalize_init. cpres_go. Qed.

Lemma cpres_is_shared self : pres (frozen a ba) (_is_shared self).
Proof. unfold _is_shared. cpres_go. Qed.

Hint Resolve cpres_finalize_init cpres_is_shared : cpres.

Lemma cpres_unlink self : pres (frozen a ba) (_unlink_shared_buffers self).
Proof.
  destruct (decide (self = a)) as [->|Hne].
  - intros w HP. destruct HP as (Hrefs & Ha & Hrest).
    rewrite (unlink_unshared _ _ _ Ha) by (by left). done.
  - unfold _unlink_shared_buffers, DeviceBuffer_copy. cpres_go.
Qed.

Lemma set_zero_copied_frozen : set_zero_copied true ba = ba.
Proof. destruct ba. simpl in *. by subst. Qed.

Hint Resolve cpres_unlink : cpres.

Lemma cpres_ptr self : pres (frozen a ba) (ptr self).
Proof.
  unfold ptr. apply cpres_bind; [apply cpres_unlink|intros _].
  apply cpres_bind; [|intros _; cpres_go].
  apply cpres_upd_obj. intros _. apply set_zero_copied_frozen.
Qed.

Lemma cpres_mutable_ptr self : pres (frozen a ba) (mutable_ptr self).
Proof. unfold mutable_ptr. cpres_go. Qed.

Lemma cpres_from_device_memory owner p n e :
  pres (frozen a ba) (_from_device_memory owner p n e).
Proof. unfold _from_device_memory. cpres_go. Qed.

Hint Resolve cpres_from_device_memory : cpres.

Lemma cpres_copy self deep : pres (frozen a ba) (copy self deep).
Proof. unfold copy. cpres_go. Qed.

Lemma cpres_getitem self offset n : pres (frozen a ba) (_getitem self offset n).
Proof. unfold _getitem. cpres_go. Qed.

Lemma cpres_cuda_array_interface self :
  pres (frozen a ba) (__cuda_array_interface__ self).
Proof.
  unfold __cuda_array_interface__, _get_cuda_array_interface.
  apply cpres_bind; [apply cpres_unlink|intros _].
  apply cpres_bind; [|intros _; cpres_go].
  apply cpres_upd_obj. intros _. apply set_zero_copied_frozen.
Qed.

Lemma cpres_run_op o w : frozen a ba w -> frozen a ba (run_op o w).
Proof.
  revert w. destruct o; simpl.
  - apply cpres_ptr.
  - apply cpres_mutable_ptr.
  - apply cpres_copy.
  - apply cpres_getitem.
  - apply cpres_cuda_array_interface.
  - apply cpres_from_device_memory.
  - apply cpres_poke.
Qed.

Lemma cpres_run_ops l w : frozen a ba w -> frozen a ba (run_ops l w).
Proof.
  revert w. induction l as [|o l IH]; intros w HP; [done|].
  simpl. apply IH. by apply cpres_run_op.
Qed.

End Frozen.

Lemma frozen_intro w a ba :
  (∀ r, is_Some (objs w !! r) -> (r < next_ref w)%nat) ->
  wf_registry w ->
  objs w !! a = Some ba ->
  _zero_copied ba = true ->
  0 ≤ _size ba ->
  _ptr ba + _size ba ≤ brk (device w) ->
  cls_instances w !! _ptr ba = Some (_instances ba) ->
  frozen a ba w.
Proof.
  intros Hrefs Hwfr Ha Hzc Hsz Hbrk Hreg.
  repeat (split; [done|]). split.
  - by destruct (Hwfr _ _ Hreg).
  - split; [done|]. intros q Hq.
    by apply (wf_registry_unique w q (_ptr ba) (_instances ba)).
Qed.

(** [ptr] leaves the buffer zero-copied, in a state that no operation
    changes any more. *)
Lemma ptr_freezes w a ba0 :
  cow_wf w ->
  objs w !! a = Some ba0 ->
  match ptr a w with
  | (Ok p, w1) => ∃ ba, frozen a ba w1 ∧ p = _ptr ba
  | (Raise e, w1) => e = MemoryError
  end.
Proof.
  intros Hwf Ha.
  destruct (cow_wf_lookup _ _ _ Hwf Ha) as (Href & Hsz & Hbrk & Hreg & Hmem).
  assert (Hrefs : ∀ r, is_Some (objs w !! r) -> (r < next_ref w)%nat).
  { intros r [x Hx]. by destruct (cow_wf_lookup _ _ _ Hwf Hx). }
  destruct Hwf as [_ Hwfr].
  unfold ptr. munfold.
  assert (Hstay : _unlink_shared_buffers a w = (Ok tt, w) ->
    match
      (let (r, s') := _unlink_shared_buffers a w in
       match r with
       | Ok a0 =>
           let (r0, s'0) := upd_obj a (set_zero_copied true) s' in
           match r0 with
           | Ok _ =>
               let (r1, s'1) := get_obj a s'0 in
               match r1 with
               | Ok b => (Ok (_ptr b), s'1)
               | Raise e => (Raise e, s'1)
               end
           | Raise e => (Raise e, s'0)
           end
       | Raise e => (Raise e, s')
       end)
    with
    | (Ok p, w1) => ∃ ba, frozen a ba w1 ∧ p = _ptr ba
    | (Raise e, _) => e = MemoryError
    end).
  { intros ->. unfold upd_obj, get_obj. munfold. simpl.
    rewrite lookup_alter_eq, Ha. simpl.
    exists (set_zero_copied true ba0). split; [|done].
    apply frozen_intro; simpl; try done.
    - intros r. rewrite lookup_alter_is_Some. apply Hrefs.
    - by rewrite lookup_alter_eq, Ha. }
  destruct (_zero_copied ba0) eqn:Hzc;
    [|destruct (decide (1 < base.size
                          (default ∅ (weaksets w !! _instances ba0)))%nat)
        as [Hsh|Hsh]].
  - apply Hstay. apply (unlink_unshared _ _ _ Ha). by left.
  - clear Hstay.
    pose proof (unlink_shared w a ba0 Ha Hsz Hzc Hsh) as H.
    destruct (_unlink_shared_buffers a w) as [[[]|e] w']; [|by destruct H].
    destruct H as (s & Hobjs & Href' & Hext & Hread & Hbrk' & Hreg' & Hwfr').
    unfold upd_obj, get_obj. munfold. simpl.
    rewrite lookup_alter_eq, Hobjs, lookup_insert_eq. simpl.
    exists {| _owner := Some {| db_ptr := brk (device w) + _size ba0;
                                db_size := _size ba0 |};
              _ptr := brk (device w) + _size ba0;
              _size := _size ba0;
              _instances := s;
              _zero_copied := true |}.
    split; [|reflexivity].
    apply frozen_intro; simpl; try done.
    + intros r. rewrite lookup_alter_is_Some, Hobjs, Href'.
      rewrite lookup_insert_is_Some. intros [<-|[_ Hr]]; [done|].
      by apply Hrefs.
    + apply (wf_registry_frame w'); try done. by apply Hwfr'.
    + by rewrite lookup_alter_eq, Hobjs, lookup_insert_eq.
  - apply Hstay. apply (unlink_unshared _ _ _ Ha). by right.
Qed.

(** C4: once [ptr] has returned on a buffer, the buffer is zero-copied and
    stays so, with all its attributes, whatever operations follow; and
    every [copy(deep=False)] of it from then on does what [copy(deep=True)]
    does: it leaves the buffer as it is and makes a new buffer at the
    address the allocator hands out, on memory disjoint from the buffer's,
    holding a copy of its bytes, and (for a buffer that is not empty) on a
    weak set that is not the buffer's, whose members stay what they
    were. *)
Theorem zero_copied_copies_physically w a ba0 :
  cow_wf w ->
  objs w !! a = Some ba0 ->
  match ptr a w with
  | (Ok p, w1) =>
      ∃ ba,
        objs w1 !! a = Some ba ∧ _zero_copied ba = true ∧ p = _ptr ba ∧
        ∀ ops,
          let w2 := run_ops ops w1 in
          objs w2 !! a = Some ba ∧
          copy a false w2 = copy a true w2 ∧
          match copy a false w2 with
          | (Ok b, w3) =>
              b ≠ a ∧
              objs w3 !! a = Some ba ∧
              ∃ bb,
                objs w3 !! b = Some bb ∧
                _ptr bb = brk (device w2) ∧
                brk (device w3) = brk (device w2) + _size ba ∧
                _ptr ba + _size ba ≤ _ptr bb ∧
                bytes_of w3 b = bytes_of w2 a ∧
                (0 < _size ba ->
                 _instances bb ≠ _instances ba ∧
                 weaksets w3 !! _instances ba = weaksets w2 !! _instances ba)
          | (Raise e, w3) => e = MemoryError ∧ w3 = w2
          end
  | (Raise e, w1) => e = MemoryError
  end.
Proof.
  intros Hwf Ha. pose proof (ptr_freezes w a ba0 Hwf Ha) as Hptr.
  destruct (ptr a w) as [[p|e] w1]; [|done].
  destruct Hptr as (ba & Hfrozen & ->). exists ba.
  pose proof Hfrozen as (_ & Ha1 & Hzc & _).
  split; [done|]. split; [done|]. split; [done|].
  intros ops w2.
  pose proof (cpres_run_ops a ba Hzc ops w1 Hfrozen) as Hfrozen2.
  fold w2 in Hfrozen2.
  destruct Hfrozen2 as (Hrefs & Ha2 & _ & Hsz & Hbrk & Hlt & Hreg & Huniq).
  split; [done|]. split.
  { unfold copy, get_obj. munfold. rewrite Ha2, Hzc. done. }
  pose proof (copy_physical w2 a ba false Ha2 Hsz (or_intror Hzc)) as Hcopy.
  destruct (copy a false w2) as [[b|e] w3]; [|done].
  destruct Hcopy as (-> & bb & Hobjs & _ & Hptr & Hsize & _ & _ & Hbrk3
                     & Hext & Hread & Hcase).
  assert (Hne : next_ref w2 ≠ a).
  { intros Heq. specialize (Hrefs a (mk_is_Some _ _ Ha2)). lia. }
  assert (Ha3 : objs w3 !! a = Some ba)
    by (by rewrite Hobjs, lookup_insert_ne).
  assert (Hb3 : objs w3 !! next_ref w2 = Some bb)
    by (by rewrite Hobjs, lookup_insert_eq).
  split; [done|]. split; [done|]. exists bb.
  split; [done|]. split; [done|]. split; [done|]. split; [lia|]. split.
  { rewrite (bytes_of_lookup _ _ _ Hb3), (bytes_of_lookup _ _ _ Ha2). done. }
  intros Hpos.
  destruct Hcase as [[Hknown ->]|(Hnone & Hinst & ->)].
  - assert (_instances bb ≠ _instances ba) as Hdiff.
    { intros Heq. rewrite Heq in Hknown. specialize (Huniq _ Hknown). lia. }
    split; [done|]. by rewrite lookup_alter_ne.
  - assert (_instances bb ≠ _instances ba) as Hdiff by lia.
    split; [done|]. by rewrite lookup_insert_ne.
Qed.

Lemma zero_copied_copies_physically_witness :
  ∃ p w1 b w3 bb,
    ptr 0 one_buffer = (Ok p, w1) ∧
    copy 0 false (run_ops [OCopy 0 false; OMutablePtr 0] w1) = (Ok b, w3) ∧
    objs w3 !! b = Some bb ∧
    _ptr bb = brk (device (run_ops [OCopy 0 false; OMutablePtr 0] w1)) ∧
    bytes_of w3 b = [Byte.x07; Byte.x08; Byte.x09; Byte.x0a].
Proof.
  assert (Ha : objs one_buffer !! 0%nat =
               Some {| _owner := Some {| db_ptr := 100; db_size := 4 |};
                       _ptr := 100; _size := 4; _instances := 0;
                       _zero_copied := false |}) by (by vm_compute).
  pose proof (zero_copied_copies_physically one_buffer 0 _ one_buffer_wf Ha)
    as H.
  destruct (ptr 0 one_buffer) as [[p|e] w1] eqn:Hptr;
    [|by vm_compute in Hptr].
  destruct H as (ba & _ & _ & _ & H).
  specialize (H [OCopy 0 false; OMutablePtr 0]). simpl in H.
  destruct H as (_ & _ & H).
  destruct (copy 0 false _) as [[b|e] w3] eqn:Hcopy.
  - destruct H as (_ & _ & bb & Hb & Hp & _ & _ & Hbytes & _).
    exists p, w1, b, w3, bb. split; [done|]. split; [done|].
    split; [done|]. split; [done|]. rewrite Hbytes.
    vm_compute in Hptr. injection Hptr as <- <-. by vm_compute.
  - exfalso. vm_compute in Hptr. injection Hptr as <- <-.
    by vm_compute in Hcopy.
Defined.

End CowFacts.

(** ** Further properties of spillable buffers *)

Module SpillableExtras.
Import SpillableBuffer Spillable SpillableInv SpillableFacts.

(** *** What [spill] can touch *)

Lemma same_protection_refl b : same_protection b b.
Proof. done. Qed.

Lemma touched_only_refl self w : touched_only self w w.
Proof.
  split; [done|]. split; [done|]. exists id. split; [by rewrite alter_id|done].
Qed.

Section Touched.
Variables (self : nat) (w0 : World).

Lemma touched_frame w w' :
  objs w' = objs w -> next_ref w' = next_ref w -> next_lock w' = next_lock w ->
  touched_only self w0 w -> touched_only self w0 w'.
Proof.
  intros Ho Hr Hl (? & ? & f & Hf & Hp).
  split; [congruence|]. split; [congruence|]. exists f. by rewrite Ho.
Qed.

Lemma tpres_get_obj r : pres (touched_only self w0) (get_obj r).
Proof. intros w HP. unfold get_obj. by destruct (objs w !! r). Qed.

Lemma tpres_upd_obj g :
  (∀ b, same_protection b (g b)) ->
  pres (touched_only self w0) (upd_obj self g).
Proof.
  intros Hg w (? & ? & f & Hf & Hp).
  split; [done|]. split; [done|]. exists (g ∘ f). split.
  - simpl. by rewrite Hf, alter_alter_eq.
  - intros b. destruct (Hp b) as (? & ? & ?).
    destruct (Hg (f b)) as (? & ? & ?). unfold same_protection. simpl.
    split; [congruence|]. split; congruence.
Qed.

Lemma tpres_perf_counter : pres (touched_only self w0) perf_counter.
Proof. intros w. by apply touched_frame. Qed.

Lemma tpres_bytearray n : pres (touched_only self w0) (bytearray n).
Proof.
  intros w. unfold bytearray. case_bool_decide; [done|].
  by apply touched_frame.
Qed.

Lemma tpres_copy_ptr_to_host p mv :
  pres (touched_only self w0) (copy_ptr_to_host p mv).
Proof. intros w. by apply touched_frame. Qed.

Lemma tpres_to_device v : pres (touched_only self w0) (to_device v).
Proof.
  intros w. destruct v as [|mv]; [done|]. simpl.
  destruct (dalloc _ _) as [[p d']|]; [|done]. by apply touched_frame.
Qed.

Lemma tpres_log_spill src dst n t :
  pres (touched_only self w0) (log_spill src dst n t).
Proof. intros w. by apply touched_frame. Qed.

Lemma tpres_dict_getitem d k : pres (touched_only self w0) (dict_getitem d k).
Proof.
  unfold dict_getitem. destruct (d !! k); [apply pres_mret|apply pres_raise].
Qed.

End Touched.

Create HintDb tpres.

#[local] Hint Resolve tpres_get_obj tpres_perf_counter tpres_bytearray
  tpres_copy_ptr_to_host tpres_to_device tpres_log_spill tpres_dict_getitem
  : tpres.

Ltac tpres_go :=
  repeat first
    [ solve [eauto with tpres]
    | apply pres_bind; [|intros ?]
    | apply pres_mret
    | apply pres_raise
    | apply pres_assert
    | apply tpres_upd_obj; solve [intros ?; done]
    | match goal with
      | |- pres _ (if ?c then _ else _) => destruct c
      | |- pres _ (match ?x with _ => _ end) => destruct x
      end ].

Lemma spill_touches_self_only self target w :
  touched_only self w (snd (spill self target w)).
Proof.
  assert (pres (touched_only self w) (spill self target)) as Hpres.
  { unfold spill, spillable, size, ptr_desc_pop. tpres_go. }
  apply Hpres, touched_only_refl.
Qed.

(** A buffer that is not spillable is left as it is. *)
Lemma spill_unspillable_unchanged self target w b :
  objs w !! self = Some b ->
  spillable_of b = false ->
  objs (snd (spill self target w)) = objs w.
Proof.
  intros Hb Hs. sunfold. simpl. rewrite Hb. simpl.
  destruct (_ptr_desc b !! "type") as [ty|]; [|done]. simpl.
  case_bool_decide; [done|]. simpl. rewrite Hb. simpl. by rewrite Hs.
Qed.

(** X2: [spill], whatever the target and whether it returns or raises,
    changes of no buffer the exposed flag, the lock set or the size, and
    leaves every buffer that is exposed or locked exactly as it is. *)
Theorem spill_leaves_protected_buffers_alone self target w r b :
  objs w !! r = Some b ->
  ∃ b', objs (snd (spill self target w)) !! r = Some b' ∧
        _exposed b' = _exposed b ∧
        _spill_locks b' = _spill_locks b ∧
        _size b' = _size b ∧
        (spillable_of b = false -> b' = b).
Proof.
  intros Hb.
  destruct (spill_touches_self_only self target w) as (_ & _ & f & Hf & Hp).
  exists (if decide (self = r) then f b else b). rewrite Hf.
  destruct (decide (self = r)) as [->|Hne].
  - rewrite lookup_alter_eq, Hb. simpl. destruct (Hp b) as (? & ? & ?).
    split; [done|]. split; [done|]. split; [done|]. split; [done|].
    intros Hs.
    pose proof (spill_unspillable_unchanged r target w b Hb Hs) as Hsame.
    rewrite Hf in Hsame.
    assert (alter f r (objs w) !! r = objs w !! r) as Hlook by (by rewrite Hsame).
    rewrite lookup_alter_eq, Hb in Hlook. simpl in Hlook. congruence.
  - rewrite lookup_alter_ne by done. eauto 10.
Qed.

Lemma spill_leaves_protected_buffers_alone_witness :
  ∃ b', objs (snd (spill 0 "cpu" exposed_world)) !! 0%nat = Some b' ∧
        objs exposed_world !! 0%nat = Some b'.
Proof.
  assert (Hb : objs exposed_world !! 0%nat =
               Some {| _owner := Some {| db_ptr := 100; db_size := 4 |};
                       _ptr := 100; _size := 4; _spill_locks := ∅;
                       _last_accessed := 0;
                       _ptr_desc := {["type" := DStr "gpu"]};
                       _exposed := true |}) by (by vm_compute).
  destruct (spill_leaves_protected_buffers_alone 0 "cpu" exposed_world 0 _ Hb)
    as (b' & Hb' & _ & _ & _ & Hsame).
  exists b'. split; [done|]. rewrite Hb. f_equal. symmetry. apply Hsame.
  by vm_compute.
Defined.

Lemma spill_ok_at_target self target w :
  fst (spill self target w) = Ok tt ->
  ∃ b', objs (snd (spill self target w)) !! self = Some b' ∧
        location b' = Some (DStr target).
Proof.
  unfold location. sunfold. simpl.
  destruct (objs w !! self) as [b|] eqn:Hb; [|done]. simpl.
  destruct (_ptr_desc b !! "type") as [ty|] eqn:Hty; [|done]. simpl.
  case_bool_decide as Hsame.
  { intros _. simpl. rewrite Hb. exists b. by rewrite Hty, Hsame. }
  repeat (progress sstep).
  destruct (spillable_of b) eqn:Hs; simpl; [|done].
  destruct (bool_decide (ty = DStr "gpu") && (target =? "cpu")%string).
  - repeat (progress sstep).
    case_bool_decide; [done|]. repeat (progress sstep). intros _.
    eexists. split; [done|]. simpl. by rewrite lookup_insert_eq.
  - destruct (bool_decide (ty = DStr "cpu") && (target =? "gpu")%string);
      [|done].
    repeat (progress sstep).
    destruct (_ptr_desc b !! "memoryview") as [v|] eqn:Hv; [|done].
    repeat (progress sstep).
    destruct v as [|mv]; [done|]. repeat (progress sstep).
    destruct (dalloc _ _) as [[p d']|] eqn:Ha; [|done].
    repeat (progress sstep).
    case_bool_decide; [|done]. repeat (progress sstep). intros _.
    eexists. split; [done|]. simpl. by rewrite lookup_insert_eq.
Qed.

(** X1: when [spill(target)] returns without raising, the location of the
    buffer is [target]; this holds in every state and for every target
    string. *)
Theorem spill_returns_at_target self target w :
  fst (spill self target w) = Ok tt ->
  ∃ b', objs (snd (spill self target w)) !! self = Some b' ∧
        location b' = Some (DStr target).
Proof. apply spill_ok_at_target. Qed.

Lemma spill_returns_at_target_witness :
  ∃ b', objs (snd (spill 0 "cpu" device_world)) !! 0%nat = Some b' ∧
        location b' = Some (DStr "cpu").
Proof.
  apply (spill_returns_at_target 0 "cpu" device_world). by vm_compute.
Defined.

(** *** Logging and round trips *)

(** X3: what [spill] logs.  A call that finds the buffer at the target
    already logs nothing and changes no buffer, and so does a call that
    raises for an unspillable buffer or an unknown target.  A call that has
    moved the buffer has logged the move, with the old location, the target
    and the size of the buffer, as the last event; for a move to host it is
    the only event logged.  No call removes an event. *)
Theorem spill_logs_iff_it_moves w self b target :
  objs w !! self = Some b ->
  wf_buf b = true ->
  match spill self target w with
  | (Ok _, w') =>
      if bool_decide (location b = Some (DStr target))
      then statistics w' = statistics w ∧ objs w' = objs w
      else ∃ src t l,
             location b = Some src ∧
             statistics w' = l ++ [LogSpill src target (_size b) t] ∧
             statistics w `prefix_of` l ∧
             (target = "cpu" -> l = statistics w)
  | (Raise e, w') =>
      statistics w `prefix_of` statistics w' ∧
      (e ≠ MemoryError -> statistics w' = statistics w ∧ objs w' = objs w)
  end.
Proof.
  intros Hb Hwf.
  destruct (wf_buf_cases _ Hwf) as [Hsz [Hg|(Hc & Hs & mv & Hv & Hlen & Hst)]].
  - destruct (decide (target = "gpu")) as [->|Hng].
    { rewrite (spill_same _ _ _ _ Hb Hg).
      by rewrite bool_decide_eq_true_2. }
    destruct (spillable_of b) eqn:Hs.
    + destruct (decide (target = "cpu")) as [->|Hnc].
      * rewrite (spill_gpu_to_cpu _ _ _ Hb Hg Hs Hsz).
        rewrite bool_decide_eq_false_2 by (rewrite Hg; congruence).
        by exists (DStr "gpu"), 1, (statistics w).
      * rewrite (spill_unknown _ _ _ _ _ Hb Hg) by done. done.
    + rewrite (spill_unspillable _ _ _ _ _ Hb Hg) by congruence. done.
  - destruct (decide (target = "cpu")) as [->|Hnc].
    { rewrite (spill_same _ _ _ _ Hb Hc).
      by rewrite bool_decide_eq_true_2. }
    destruct (decide (target = "gpu")) as [->|Hng].
    + destruct (dalloc (mv_len mv) (device w)) as [[p d']|] eqn:Ha.
      * rewrite (spill_cpu_to_gpu _ _ _ _ _ _ Hb Hc Hv Hs Hlen Ha).
        rewrite bool_decide_eq_false_2 by (rewrite Hc; congruence).
        by exists (DStr "cpu"), 1, (statistics w).
      * by rewrite (spill_cpu_to_gpu_oom _ _ _ _ Hb Hc Hv Hs Ha).
    + rewrite (spill_unknown _ _ _ _ _ Hb Hc) by done. done.
Qed.

Lemma spill_logs_iff_it_moves_witness :
  ∃ w', spill 0 "cpu" device_world = (Ok tt, w') ∧
        statistics w' = [LogSpill (DStr "gpu") "cpu" 4 1].
Proof.
  assert (Hb : ∃ b, objs device_world !! 0%nat = Some b ∧ wf_buf b = true ∧
                    location b = Some (DStr "gpu") ∧ _size b = 4)
    by (by vm_compute; eauto 10).
  destruct Hb as (b & Hb & Hwf & Hg & Hsz).
  pose proof (spill_logs_iff_it_moves device_world 0 b "cpu" Hb Hwf) as H.
  destruct (spill 0 "cpu" device_world) as [[[]|e] w'] eqn:Hrun;
    [|by vm_compute in Hrun].
  rewrite bool_decide_eq_false_2 in H by (rewrite Hg; congruence).
  destruct H as (src & t & l & Hsrc & Hstat & _ & Hl).
  exists w'. split; [done|].
  rewrite Hstat, (Hl eq_refl), Hsz.
  assert (src = DStr "gpu") as -> by congruence.
  assert (Ht : t = 1).
  { vm_compute in Hrun. injection Hrun as <-.
    rewrite (Hl eq_refl) in Hstat. vm_compute in Hstat. congruence. }
  by rewrite Ht.
Defined.

Lemma contents_on_device w b :
  location b = Some (DStr "gpu") ->
  contents w b = dread (device w) (_ptr b) (Z.to_nat (_size b)).
Proof. intros Hg. unfold contents. by rewrite bool_decide_eq_true_2. Qed.

Lemma contents_on_host w b mv :
  location b = Some (DStr "cpu") ->
  host_view b = Some (DView mv) ->
  contents w b = mv_read (host w) mv.
Proof.
  intros Hc Hv. unfold contents.
  rewrite bool_decide_eq_false_2 by (rewrite Hc; congruence).
  by rewrite Hv.
Qed.

(** X4: moving a buffer from device to host and back loses nothing: after
    [spill("cpu")] the host view holds the bytes the buffer had on device,
    and after the following [spill("gpu")] the buffer is on device again, at
    a new address, with the same size and the same bytes.  The way back
    fails only with the [MemoryError] of the device allocation. *)
Theorem spill_round_trip w self b :
  objs w !! self = Some b ->
  location b = Some (DStr "gpu") ->
  spillable_of b = true ->
  0 ≤ _size b ->
  ∃ w1 b1,
    spill self "cpu" w = (Ok tt, w1) ∧
    objs w1 !! self = Some b1 ∧
    location b1 = Some (DStr "cpu") ∧
    contents w1 b1 = contents w b ∧
    match spill self "gpu" w1 with
    | (Ok _, w2) =>
        ∃ b2, objs w2 !! self = Some b2 ∧
              location b2 = Some (DStr "gpu") ∧
              _size b2 = _size b ∧
              _ptr b2 = brk (device w) ∧
              contents w2 b2 = contents w b
    | (Raise e, w2) => e = MemoryError
    end.
Proof.
  intros Hb Hg Hs Hsz.
  set (hv := fresh_view w (_size b)).
  set (b1 := spilled_buf hv b).
  set (w1 := after_spill_cpu self b w).
  assert (Hb1 : objs w1 !! self = Some b1)
    by (unfold w1; simpl; by rewrite lookup_insert_eq).
  assert (Hc1 : location b1 = Some (DStr "cpu"))
    by (unfold location; simpl; by rewrite lookup_insert_eq).
  assert (Hv1 : host_view b1 = Some (DView hv)).
  { unfold host_view. simpl.
    by rewrite lookup_insert_ne, lookup_insert_eq. }
  assert (Hread : mv_read (host w1) hv
                  = dread (device w) (_ptr b) (Z.to_nat (_size b))).
  { unfold mv_read, w1. simpl. rewrite lookup_insert_eq. simpl.
    change (Z.to_nat 0) with 0%nat. rewrite drop_0.
    apply take_ge. rewrite length_dread. lia. }
  assert (Hrun1 : spill self "cpu" w = (Ok tt, w1))
    by (by apply spill_gpu_to_cpu).
  assert (Hdev : device w1 = device w) by done.
  assert (Hs1 : spillable_of b1 = true) by done.
  assert (Hsz1 : _size b1 = _size b) by done.
  assert (Hlen : mv_len hv = _size b1) by done.
  clearbody w1 b1 hv.
  exists w1, b1. split; [done|].
  split; [done|]. split; [done|]. split.
  { rewrite (contents_on_host _ _ hv Hc1 Hv1), (contents_on_device _ _ Hg).
    done. }
  destruct (dalloc (mv_len hv) (device w1)) as [[p d']|] eqn:Ha.
  - rewrite (spill_cpu_to_gpu w1 self b1 hv p d' Hb1 Hc1 Hv1 Hs1 Hlen Ha).
    eexists. split; [by simpl; rewrite lookup_insert_eq|].
    assert (p = brk (device w)) as ->.
    { unfold dalloc in Ha. case_bool_decide; [|done].
      injection Ha as <- <-. by rewrite Hdev. }
    split; [by unfold location; simpl; rewrite lookup_insert_eq|].
    split; [done|]. split; [done|].
    rewrite contents_on_device
      by (unfold location; simpl; by rewrite lookup_insert_eq).
    rewrite (contents_on_device _ _ Hg), <- Hread.
    change (dread (dwrite (brk (device w)) (mv_read (host w1) hv) d')
              (brk (device w)) (Z.to_nat (_size b1))
            = mv_read (host w1) hv).
    pose proof (dread_dwrite_same d' (brk (device w))
                  (mv_read (host w1) hv)) as Hsame.
    assert (Hlenx : length (mv_read (host w1) hv) = Z.to_nat (_size b1))
      by (by rewrite Hread, length_dread, Hsz1).
    by rewrite Hlenx in Hsame.
  - by rewrite (spill_cpu_to_gpu_oom w1 self b1 hv Hb1 Hc1 Hv1 Hs1 Ha).
Qed.

Lemma spill_round_trip_witness :
  ∃ w1 w2 b2,
    spill 0 "cpu" device_world = (Ok tt, w1) ∧
    spill 0 "gpu" w1 = (Ok tt, w2) ∧
    objs w2 !! 0%nat = Some b2 ∧
    contents w2 b2 = [Byte.x00; Byte.x00; Byte.x00; Byte.x00].
Proof.
  assert (Hb : objs device_world !! 0%nat =
               Some {| _owner := Some {| db_ptr := 100; db_size := 4 |};
                       _ptr := 100; _size := 4; _spill_locks := ∅;
                       _last_accessed := 0;
                       _ptr_desc := {["type" := DStr "gpu"]};
                       _exposed := false |}) by (by vm_compute).
  destruct (spill_round_trip device_world 0 _ Hb)
    as (w1 & b1 & Hrun1 & _ & _ & _ & H); [by vm_compute..|].
  destruct (spill 0 "gpu" w1) as [[[]|e] w2] eqn:Hrun2.
  - destruct H as (b2 & Hb2 & _ & _ & _ & Hcont).
    exists w1, w2, b2. split; [done|]. split; [done|]. split; [done|].
    rewrite Hcont. by vm_compute.
  - exfalso. vm_compute in Hrun1. injection Hrun1 as <-.
    by vm_compute in Hrun2.
Defined.

(** *** Addresses that stay valid *)

Lemma spill_keeps_unspillable self target w r b :
  objs w !! r = Some b ->
  spillable_of b = false ->
  objs (snd (spill self target w)) !! r = Some b.
Proof.
  intros Hb Hs. destruct (decide (self = r)) as [->|Hne].
  - by rewrite (spill_unspillable_unchanged r target w b Hb Hs).
  - destruct (spill_touches_self_only self target w) as (_ & _ & f & -> & _).
    by rewrite lookup_alter_ne.
Qed.

Lemma spill_keeps_refs_ok self target w :
  refs_ok w -> refs_ok (snd (spill self target w)).
Proof.
  intros Hrefs k.
  destruct (spill_touches_self_only self target w) as (-> & _ & f & -> & _).
  rewrite lookup_alter_is_Some. apply Hrefs.
Qed.

(** [spill] leaves a pinned buffer alone when what pins it makes it
    unspillable, or is an attribute [spill] never writes. *)
Lemma pinned_spill_unspillable r (Q : t -> Prop) L self target :
  (∀ b, Q b -> spillable_of b = false) ->
  pres (pinned r Q L) (spill self target).
Proof.
  intros HQs w (Hrefs & Hfut & b & Hb & HQ). split; [|split].
  - by apply spill_keeps_refs_ok.
  - destruct (spill_touches_self_only self target w) as (_ & -> & _). done.
  - exists b. split; [|done]. apply spill_keeps_unspillable; auto.
Qed.

Lemma pinned_spill_protection r (Q : t -> Prop) L self target :
  (∀ b b', same_protection b b' -> Q b -> Q b') ->
  pres (pinned r Q L) (spill self target).
Proof.
  intros HQs w (Hrefs & Hfut & b & Hb & HQ). split; [|split].
  - by apply spill_keeps_refs_ok.
  - destruct (spill_touches_self_only self target w) as (_ & -> & _). done.
  - destruct (spill_touches_self_only self target w) as (_ & _ & f & -> & Hp).
    destruct (decide (self = r)) as [->|Hne].
    + exists (f b). rewrite lookup_alter_eq, Hb. split; [done|].
      by apply (HQs b).
    + exists b. by rewrite lookup_alter_ne.
Qed.

Create HintDb ppres.

Section Pinned.
Variables (r : nat) (Q : t -> Prop) (L : nat -> Prop).
Hypothesis HQ_spill :
  ∀ self target, pres (pinned r Q L) (spill self target).
Hypothesis HQ_exposed : ∀ b, Q b -> Q (set_exposed true b).
Hypothesis HQ_accessed : ∀ x b, Q b -> Q (set_last_accessed x b).
Hypothesis HQ_locked :
  ∀ l b, Q b -> Q (set_spill_locks (λ s, {[l]} ∪ s) b).
Hypothesis HQ_unlocked :
  ∀ l b, L l -> Q b -> Q (set_spill_locks (λ s, s ∖ {[l]}) b).

Lemma pinned_frame w w' :
  objs w' = objs w -> next_ref w' = next_ref w -> next_lock w' = next_lock w ->
  pinned r Q L w -> pinned r Q L w'.
Proof.
  intros Ho Hr Hl (Hrefs & Hfut & Hb). split; [|split].
  - intros k. rewrite Ho, Hr. apply Hrefs.
  - by rewrite Hl.
  - by rewrite Ho.
Qed.

Lemma ppres_get_obj self : pres (pinned r Q L) (get_obj self).
Proof. intros w HP. unfold get_obj. by destruct (objs w !! self). Qed.

Lemma ppres_perf_counter : pres (pinned r Q L) perf_counter.
Proof. intros w. by apply pinned_frame. Qed.

Lemma ppres_monotonic : pres (pinned r Q L) monotonic.
Proof. apply ppres_perf_counter. Qed.

Lemma ppres_bytearray n : pres (pinned r Q L) (bytearray n).
Proof.
  intros w. unfold bytearray. case_bool_decide; [done|].
  by apply pinned_frame.
Qed.

Lemma ppres_copy_ptr_to_host p mv :
  pres (pinned r Q L) (copy_ptr_to_host p mv).
Proof. intros w. by apply pinned_frame. Qed.

Lemma ppres_log_expose self : pres (pinned r Q L) (log_expose self).
Proof. intros w. by apply pinned_frame. Qed.

Lemma ppres_dict_getitem d k : pres (pinned r Q L) (dict_getitem d k).
Proof.
  unfold dict_getitem. destruct (d !! k); [apply pres_mret|apply pres_raise].
Qed.

Lemma ppres_spill self target : pres (pinned r Q L) (spill self target).
Proof. apply HQ_spill. Qed.

Lemma ppres_upd_obj self f :
  (∀ b, Q b -> Q (f b)) -> pres (pinned r Q L) (upd_obj self f).
Proof.
  intros Hf w (Hrefs & Hfut & b & Hb & HQ). split; [|split; [done|]].
  - intros k. simpl. rewrite lookup_alter_is_Some. apply Hrefs.
  - simpl. destruct (decide (self = r)) as [->|Hne].
    + rewrite lookup_alter_eq, Hb. simpl. eauto.
    + rewrite lookup_alter_ne by done. eauto.
Qed.

Lemma ppres_SpillLock_new_bind {B} (k : nat -> M World B) :
  (∀ l, L l -> pres (pinned r Q L) (k l)) ->
  pres (pinned r Q L) (SpillLock_new ≫= k).
Proof.
  intros Hk w (Hrefs & Hfut & Hb).
  apply (Hk (next_lock w)); [by apply Hfut|].
  split; [done|]. split; [|done].
  intros l Hl. apply Hfut. simpl in Hl. lia.
Qed.

Lemma ppres_SpillLock_new : pres (pinned r Q L) SpillLock_new.
Proof.
  intros w (Hrefs & Hfut & Hb). split; [done|]. split; [|done].
  intros l Hl. apply Hfut. simpl in Hl. lia.
Qed.

Lemma ppres_SpillLock_del l : L l -> pres (pinned r Q L) (SpillLock_del l).
Proof.
  intros Hl w (Hrefs & Hfut & b & Hb & HQ). split; [|split; [done|]].
  - intros k. simpl. rewrite lookup_fmap, fmap_is_Some. apply Hrefs.
  - simpl. rewrite lookup_fmap, Hb. simpl. eauto.
Qed.

Lemma ppres_new_obj b0 : pres (pinned r Q L) (new_obj b0).
Proof.
  intros w (Hrefs & Hfut & b & Hb & HQ).
  assert (next_ref w ≠ r) as Hne.
  { intros <-. specialize (Hrefs _ (mk_is_Some _ _ Hb)). lia. }
  split; [|split; [done|]].
  - intros k. simpl. rewrite lookup_insert_is_Some.
    intros [<-|[_ Hk]]; [lia|]. specialize (Hrefs k Hk). lia.
  - simpl. rewrite lookup_insert_ne by done. eauto.
Qed.

Hint Resolve ppres_get_obj ppres_perf_counter ppres_monotonic ppres_bytearray
  ppres_copy_ptr_to_host ppres_log_expose ppres_dict_getitem ppres_spill
  ppres_SpillLock_new ppres_new_obj : ppres.

Ltac ppres_go :=
  repeat first
    [ solve [eauto with ppres]
    | apply ppres_SpillLock_new_bind; intros ? ?
    | apply pres_bind; [|intros ?]
    | apply pres_mret
    | apply pres_raise
    | apply pres_assert
    | apply ppres_upd_obj; solve [intros; eauto]
    | apply ppres_SpillLock_del; assumption
    | match goal with
      | |- pres _ (if ?c then _ else _) => destruct c
      | |- pres _ (match ?x with _ => _ end) => destruct x
      end ].

Lemma ppres_spill_victims l : pres (pinned r Q L) (spill_victims l).
Proof.
  induction l as [|k l IH]; simpl; [apply pres_mret|].
  apply pres_bind; [|done].
  intros w HP. unfold spill_victim.
  destruct (objs w !! k) as [b|]; [|done].
  destruct (spillable_of b); [|done]. by apply ppres_spill.
Qed.

Lemma ppres_spill_to_device_limit victims :
  pres (pinned r Q L) (spill_to_device_limit victims).
Proof. intros w. apply ppres_spill_victims. Qed.

Hint Resolve ppres_spill_to_device_limit : ppres.

Lemma ppres_ptr victims self : pres (pinned r Q L) (ptr victims self).
Proof. unfold ptr. ppres_go. Qed.

Lemma ppres_spill_lock self l : pres (pinned r Q L) (spill_lock self l).
Proof. unfold spill_lock. ppres_go. Qed.

Hint Resolve ppres_ptr ppres_spill_lock : ppres.

Lemma ppres_get_ptr victims self l :
  pres (pinned r Q L) (get_ptr victims self l).
Proof. unfold get_ptr. ppres_go. Qed.

Hint Resolve ppres_get_ptr : ppres.

Lemma ppres_mutable_ptr victims self :
  pres (pinned r Q L) (mutable_ptr victims self).
Proof. unfold mutable_ptr. ppres_go. Qed.

Lemma ppres_memoryview self offset n :
  pres (pinned r Q L) (memoryview self offset n).
Proof. unfold memoryview, spillable. ppres_go. Qed.

Lemma ppres_from_device_memory data e :
  pres (pinned r Q L) (_from_device_memory data e).
Proof. unfold _from_device_memory, _finalize_init. ppres_go. Qed.

Lemma ppres_from_host_memory data :
  pres (pinned r Q L) (_from_host_memory data).
Proof. unfold _from_host_memory, _finalize_init. ppres_go. Qed.

Lemma ppres_size self : pres (pinned r Q L) (size self).
Proof. unfold size. ppres_go. Qed.

Lemma ppres_is_spilled self : pres (pinned r Q L) (is_spilled self).
Proof. unfold is_spilled. ppres_go. Qed.

Hint Resolve ppres_size ppres_is_spilled : ppres.

Lemma ppres_slice_init base offset n :
  pres (pinned r Q L) (SpillableBufferSlice.__init__ base offset n).
Proof. unfold SpillableBufferSlice.__init__. ppres_go. Qed.

Hint Resolve ppres_mutable_ptr ppres_memoryview ppres_from_device_memory
  ppres_from_host_memory ppres_slice_init : ppres.

Lemma ppres_obj_ptr victims o : pres (pinned r Q L) (obj_ptr victims o).
Proof.
  destruct o; simpl; [eauto with ppres|].
  unfold SpillableBufferSlice.ptr. ppres_go.
Qed.

Lemma ppres_obj_size o : pres (pinned r Q L) (obj_size o).
Proof.
  destruct o; simpl; [eauto with ppres|].
  unfold SpillableBufferSlice.size. ppres_go.
Qed.

Lemma ppres_obj_get_ptr victims o l :
  pres (pinned r Q L) (obj_get_ptr victims o l).
Proof.
  destruct o; simpl; [eauto with ppres|].
  unfold SpillableBufferSlice.get_ptr. ppres_go.
Qed.

Lemma ppres_obj_mutable_ptr victims o :
  pres (pinned r Q L) (obj_mutable_ptr victims o).
Proof.
  destruct o; simpl; [eauto with ppres|].
  unfold SpillableBufferSlice.mutable_ptr, SpillableBufferSlice.get_ptr.
  ppres_go.
Qed.

Lemma ppres_obj_spill o target : pres (pinned r Q L) (obj_spill o target).
Proof. destruct o; simpl; apply ppres_spill. Qed.

Lemma ppres_obj_spill_lock o l : pres (pinned r Q L) (obj_spill_lock o l).
Proof. destruct o; simpl; apply ppres_spill_lock. Qed.

Lemma ppres_obj_memoryview o offset n :
  pres (pinned r Q L) (obj_memoryview o offset n).
Proof. destruct o; simpl; apply ppres_memoryview. Qed.

Lemma ppres_obj_getitem o offset n :
  pres (pinned r Q L) (obj_getitem o offset n).
Proof. destruct o; simpl; apply ppres_slice_init. Qed.

Lemma ppres_obj_is_spilled o : pres (pinned r Q L) (obj_is_spilled o).
Proof. destruct o; simpl; apply ppres_is_spilled. Qed.

Lemma ppres_obj_owner o : pres (pinned r Q L) (obj_owner o).
Proof. destruct o; simpl; ppres_go. Qed.

Hint Resolve ppres_obj_ptr ppres_obj_size ppres_obj_get_ptr
  ppres_obj_memoryview ppres_obj_is_spilled ppres_obj_owner : ppres.

Lemma ppres_cuda_array_interface o :
  pres (pinned r Q L) (__cuda_array_interface__ o).
Proof. unfold __cuda_array_interface__. ppres_go. Qed.

Lemma ppres_getitem victims d i :
  pres (pinned r Q L) (DelayedPointerTuple.__getitem__ victims d i).
Proof. unfold DelayedPointerTuple.__getitem__. ppres_go. Qed.

Lemma ppres_serialize victims o : pres (pinned r Q L) (serialize victims o).
Proof. unfold serialize. ppres_go. Qed.

Lemma ppres_run_action victims a w :
  spares L a -> pinned r Q L w -> pinned r Q L (run_action victims a w).
Proof.
  intros Ha. revert w. destruct a as [o|o]; simpl; [|apply ppres_serialize].
  destruct o; simpl.
  - apply ppres_obj_spill.
  - apply ppres_obj_ptr.
  - apply ppres_obj_get_ptr.
  - apply ppres_obj_mutable_ptr.
  - apply ppres_obj_spill_lock.
  - apply ppres_obj_memoryview.
  - apply ppres_obj_getitem.
  - apply ppres_cuda_array_interface.
  - apply ppres_getitem.
  - apply ppres_from_device_memory.
  - apply ppres_from_host_memory.
  - apply ppres_spill_to_device_limit.
  - apply ppres_SpillLock_new.
  - by apply ppres_SpillLock_del.
Qed.

Lemma ppres_run_actions victims l w :
  Forall (spares L) l ->
  pinned r Q L w -> pinned r Q L (run_actions victims l w).
Proof.
  revert w. induction l as [|a l IH]; intros w Hl HP; [done|].
  inversion Hl; subst. simpl. apply IH; [done|]. by apply ppres_run_action.
Qed.

End Pinned.

Lemma returns_ptr_of_bind {A} self (m : M World A) (k : A -> M World Z) :
  (∀ a, returns_ptr_of self (k a)) -> returns_ptr_of self (m ≫= k).
Proof.
  intros Hk w q. munfold.
  destruct (m w) as [[a|e] w1]; simpl; [apply Hk|done].
Qed.

Lemma returns_ptr_of_get_obj self :
  returns_ptr_of self (b ← get_obj self; mret (_ptr b)).
Proof.
  intros w q. unfold get_obj. munfold.
  destruct (objs w !! self) as [b|] eqn:Hb; simpl; [|done].
  intros [= <-]. eauto.
Qed.

Lemma returns_ptr_of_ptr victims self : returns_ptr_of self (ptr victims self).
Proof.
  unfold ptr.
  repeat first [ apply returns_ptr_of_get_obj
               | apply returns_ptr_of_bind; intros ? ].
Qed.

Lemma returns_ptr_of_get_ptr victims self lk :
  returns_ptr_of self (get_ptr victims self lk).
Proof.
  destruct lk as [l|]; [|apply returns_ptr_of_ptr].
  unfold get_ptr.
  repeat first [ apply returns_ptr_of_get_obj
               | apply returns_ptr_of_bind; intros ? ].
Qed.

Lemma get_ptr_locked_next_ref victims self l w :
  next_ref (snd (get_ptr victims self (Some l) w)) = next_ref w.
Proof.
  destruct (spill_touches_self_only self "gpu" w) as (Hr & _).
  unfold get_ptr, spill_lock. munfold.
  destruct (spill self "gpu" w) as [[[]|e] w1]; simpl in *; [|done].
  punfold. simpl.
  destruct (alter _ self (alter _ self (objs w1)) !! self); simpl; done.
Qed.

Lemma exposed_at_unspillable p b : exposed_at p b -> spillable_of b = false.
Proof. intros (He & _). by apply exposed_not_spillable. Qed.

Lemma locked_at_unspillable l p b : locked_at l p b -> spillable_of b = false.
Proof.
  intros (Hl & _). apply spillable_of_false. right.
  intros Hempty. rewrite Hempty in Hl. by apply not_elem_of_empty in Hl.
Qed.

Lemma pinned_exposed_run victims self p acts w :
  pinned self (exposed_at p) (λ _, True) w ->
  pinned self (exposed_at p) (λ _, True) (run_actions victims acts w).
Proof.
  apply ppres_run_actions.
  - intros. apply pinned_spill_unspillable, exposed_at_unspillable.
  - by intros b (? & ? & ?).
  - by intros x b (? & ? & ?).
  - by intros l b (? & ? & ?).
  - by intros l b _ (? & ? & ?).
  - apply Forall_forall. intros a _. by destruct a as [[]|].
Qed.

Lemma pinned_locked_run victims self l p acts w :
  Forall (spares (λ l', l' ≠ l)) acts ->
  pinned self (locked_at l p) (λ l', l' ≠ l) w ->
  pinned self (locked_at l p) (λ l', l' ≠ l) (run_actions victims acts w).
Proof.
  apply ppres_run_actions.
  - intros. apply pinned_spill_unspillable, locked_at_unspillable.
  - by intros b (? & ? & ?).
  - by intros x b (? & ? & ?).
  - intros l' b (Hl & ? & ?). split; [|done].
    simpl. by apply elem_of_union_r.
  - intros l' b Hne (Hl & ? & ?). split; [|done].
    simpl. apply elem_of_difference. split; [done|].
    rewrite elem_of_singleton. congruence.
Qed.

Lemma pinned_returns victims self Q L lk w q w' p :
  (∀ b, Q b -> spillable_of b = false) ->
  (∀ b, Q b -> Q (set_exposed true b)) ->
  (∀ x b, Q b -> Q (set_last_accessed x b)) ->
  (∀ l b, Q b -> Q (set_spill_locks (λ s, {[l]} ∪ s) b)) ->
  (∀ l b, L l -> Q b -> Q (set_spill_locks (λ s, s ∖ {[l]}) b)) ->
  (∀ b, Q b -> _ptr b = p) ->
  pinned self Q L w ->
  get_ptr victims self lk w = (Ok q, w') ->
  q = p.
Proof.
  intros H1 H2 H3 H4 H5 Hp HP Hrun.
  assert (HP' : pinned self Q L w').
  { replace w' with (snd (get_ptr victims self lk w)) by (by rewrite Hrun).
    revert HP. apply ppres_get_ptr; try done.
    intros. by apply pinned_spill_unspillable. }
  destruct (returns_ptr_of_get_ptr victims self lk w q) as (b & Hb & ->);
    [by rewrite Hrun|].
  rewrite Hrun in Hb. simpl in Hb.
  destruct HP' as (_ & _ & b' & Hb' & HQ).
  rewrite Hb in Hb'. injection Hb' as <-. by apply Hp.
Qed.

(** X5: once [ptr] has returned a device address, that address stays the
    address of the buffer: whatever operations follow, on this buffer or on
    others (spills, the manager's passes, pointer accesses, locks taken and
    dropped, slices, serialisations, views), whether they succeed or raise,
    the buffer is still exposed, still in device memory and still at the
    address handed out, and every later pointer access that returns gives
    the same address. *)
Theorem exposed_address_is_stable victims w self b p w' :
  wf_world w ->
  objs w !! self = Some b ->
  ptr victims self w = (Ok p, w') ->
  ∀ acts,
    (∃ b', objs (run_actions victims acts w') !! self = Some b' ∧
           _exposed b' = true ∧
           location b' = Some (DStr "gpu") ∧
           _ptr b' = p) ∧
    ∀ lk q w'',
      get_ptr victims self lk (run_actions victims acts w') = (Ok q, w'') ->
      q = p.
Proof.
  intros Hwf Hb Hrun acts.
  destruct (spill_to_device_limit_frame victims w Hwf)
    as (w0 & Hman & Hwf0 & _ & _ & Ho0 & _).
  destruct (Ho0 self b Hb) as (b0 & Hb0 & _).
  pose proof (ptr_after_manager victims w w0 self b0 Hman Hwf0 Hb0) as Hptr.
  rewrite Hrun in Hptr.
  destruct Hptr as (b' & Hobjs & Href & _ & Hloc & Hexp & _ & Hp & _).
  assert (HP : pinned self (exposed_at p) (λ _, True) w').
  { split; [|split; [done|]].
    - intros k. rewrite Hobjs, Href, lookup_insert_is_Some.
      intros [<-|[_ Hk]].
      + by destruct (Hwf0 _ _ Hb0).
      + destruct Hk as [x Hx]. by destruct (Hwf0 _ _ Hx).
    - exists b'. rewrite Hobjs, lookup_insert_eq. by repeat split. }
  apply (pinned_exposed_run victims _ _ acts) in HP.
  split.
  - destruct HP as (_ & _ & b'' & Hb'' & He & Hl & Hq). by exists b''.
  - intros lk q w'' Hq.
    eapply (pinned_returns victims self (exposed_at p)); [..|exact HP|exact Hq].
    + apply exposed_at_unspillable.
    + by intros x (? & ? & ?).
    + by intros t x (? & ? & ?).
    + by intros l x (? & ? & ?).
    + by intros l x _ (? & ? & ?).
    + by intros x (? & ? & ?).
Qed.

Lemma exposed_address_is_stable_witness :
  ∃ w',
    ptr (λ _, [0%nat]) 0 host_world = (Ok 100, w') ∧
    ∀ acts,
      (∃ b', objs (run_actions (λ _, [0%nat]) acts w') !! 0%nat = Some b' ∧
             _exposed b' = true ∧
             location b' = Some (DStr "gpu") ∧
             _ptr b' = 100) ∧
      ∀ lk q w'',
        get_ptr (λ _, [0%nat]) 0 lk (run_actions (λ _, [0%nat]) acts w')
          = (Ok q, w'') ->
        q = 100.
Proof.
  assert (Hwf : wf_world host_world) by (apply (bool_decide_unpack _); by vm_compute).
  destruct (ptr (λ _, [0%nat]) 0 host_world) as [r w'] eqn:Hrun.
  assert (Hr : r = Ok 100) by (by vm_compute in Hrun; injection Hrun as <- _).
  subst r. exists w'. split; [done|].
  assert (Hb : ∃ b, objs host_world !! 0%nat = Some b) by (by vm_compute; eauto).
  destruct Hb as [b Hb].
  exact (exposed_address_is_stable (λ _, [0%nat]) host_world 0 b 100 w'
           Hwf Hb Hrun).
Defined.

(** X6: the address [get_ptr] returns under a spill lock stays valid for
    as long as the lock is alive: after any operations that do not drop
    this lock (spill requests, manager passes, other accesses, other locks
    taken and dropped, serialisations), the buffer still holds the lock, is
    still in device memory at the address handed out, and every later
    pointer access that returns gives that address. *)
Theorem locked_address_is_stable victims w self b l p w' :
  refs_ok w ->
  (l < next_lock w)%nat ->
  objs w !! self = Some b ->
  wf_buf b = true ->
  get_ptr victims self (Some l) w = (Ok p, w') ->
  ∀ acts,
    Forall (spares (λ l', l' ≠ l)) acts ->
    (∃ b', objs (run_actions victims acts w') !! self = Some b' ∧
           l ∈ _spill_locks b' ∧
           location b' = Some (DStr "gpu") ∧
           _ptr b' = p) ∧
    ∀ lk q w'',
      get_ptr victims self lk (run_actions victims acts w') = (Ok q, w'') ->
      q = p.
Proof.
  intros Hrefs Hlt Hb Hwfb Hrun acts Hacts.
  pose proof (get_ptr_locked victims w self b l Hb Hwfb) as Hget.
  pose proof (get_ptr_locked_next_ref victims self l w) as Href.
  rewrite Hrun in Hget, Href. simpl in Href.
  destruct Hget as (b' & Hobjs & Hnl & _ & Hloc & _ & Hlocks & _ & Hp).
  assert (HP : pinned self (locked_at l p) (λ l', l' ≠ l) w').
  { split; [|split].
    - intros k. rewrite Hobjs, Href, lookup_insert_is_Some.
      intros [<-|[_ Hk]]; [|by apply Hrefs].
      apply Hrefs. by rewrite Hb.
    - intros l' Hl'. rewrite Hnl in Hl'. lia.
    - exists b'. rewrite Hobjs, lookup_insert_eq. split; [done|].
      split; [|done]. rewrite Hlocks. apply lock_in_added. }
  apply (pinned_locked_run victims _ _ _ acts _ Hacts) in HP.
  split.
  - destruct HP as (_ & _ & b'' & Hb'' & He & Hl & Hq). by exists b''.
  - intros lk q w'' Hq.
    eapply (pinned_returns victims self (locked_at l p)); [..|exact HP|exact Hq].
    + apply locked_at_unspillable.
    + by intros x (? & ? & ?).
    + by intros t x (? & ? & ?).
    + intros l' x (Hl & ? & ?). split; [|done]. simpl. by apply elem_of_union_r.
    + intros l' x Hne (Hl & ? & ?). split; [|done].
      simpl. apply elem_of_difference. split; [done|].
      rewrite elem_of_singleton. congruence.
    + by intros x (? & ? & ?).
Qed.

Lemma locked_address_is_stable_witness :
  ∃ w',
    get_ptr (λ _, [0%nat]) 0 (Some 0%nat) locked_world = (Ok 100, w') ∧
    let acts := [Act (OSpill (Base 0) "cpu"); Act OSpillToDeviceLimit;
                 Act ONewLock; Act (ODelLock 1); ASerialize (Base 0)] in
    ∃ b', objs (run_actions (λ _, [0%nat]) acts w') !! 0%nat = Some b' ∧
          0%nat ∈ _spill_locks b' ∧
          location b' = Some (DStr "gpu") ∧
          _ptr b' = 100.
Proof.
  destruct (get_ptr (λ _, [0%nat]) 0 (Some 0%nat) locked_world) as [r w'] eqn:Hrun.
  assert (Hr : r = Ok 100) by (by vm_compute in Hrun; injection Hrun as <- _).
  subst r. exists w'. split; [done|]. intros acts.
  assert (Hb : ∃ b, objs locked_world !! 0%nat = Some b ∧ wf_buf b = true)
    by (by vm_compute; eauto).
  destruct Hb as (b & Hb & Hwfb).
  assert (Hrefs : refs_ok locked_world).
  { apply wf_world_refs_ok. apply (bool_decide_unpack _). by vm_compute. }
  refine (proj1 (locked_address_is_stable (λ _, [0%nat]) locked_world 0 b 0 100 w'
           Hrefs _ Hb Hwfb Hrun acts _)).
  - vm_compute. lia.
  - unfold acts. repeat constructor; simpl; lia.
Defined.

(** *** Protected buffers are in device memory *)

Lemma same_protection_spillable b b' :
  same_protection b b' -> spillable_of b' = spillable_of b.
Proof. intros (He & Hl & _). unfold spillable_of. by rewrite He, Hl. Qed.

Lemma protected_frame w w' :
  objs w' = objs w -> next_ref w' = next_ref w ->
  protected_on_device w -> protected_on_device w'.
Proof.
  intros Ho Hr (Hrefs & HI). split.
  - intros k. rewrite Ho, Hr. apply Hrefs.
  - intros r b. rewrite Ho. apply HI.
Qed.

Lemma ipres_get_obj self : pres protected_on_device (get_obj self).
Proof. intros w HP. unfold get_obj. by destruct (objs w !! self). Qed.

Lemma ipres_perf_counter : pres protected_on_device perf_counter.
Proof. intros w. by apply protected_frame. Qed.

Lemma ipres_monotonic : pres protected_on_device monotonic.
Proof. apply ipres_perf_counter. Qed.

Lemma ipres_bytearray n : pres protected_on_device (bytearray n).
Proof.
  intros w. unfold bytearray. case_bool_decide; [done|].
  by apply protected_frame.
Qed.

Lemma ipres_copy_ptr_to_host p mv :
  pres protected_on_device (copy_ptr_to_host p mv).
Proof. intros w. by apply protected_frame. Qed.

Lemma ipres_log_expose self : pres protected_on_device (log_expose self).
Proof. intros w. by apply protected_frame. Qed.

Lemma ipres_dict_getitem d k : pres protected_on_device (dict_getitem d k).
Proof.
  unfold dict_getitem. destruct (d !! k); [apply pres_mret|apply pres_raise].
Qed.

Lemma ipres_SpillLock_new : pres protected_on_device SpillLock_new.
Proof. intros w. by apply protected_frame. Qed.

Lemma ipres_spill self target : pres protected_on_device (spill self target).
Proof.
  intros w (Hrefs & HI). split; [by apply spill_keeps_refs_ok|].
  intros r b' Hb' Hs'.
  destruct (spill_touches_self_only self target w) as (_ & _ & f & Hf & Hp).
  destruct (decide (r = self)) as [->|Hne].
  - destruct (objs w !! self) as [b|] eqn:Hb.
    2:{ by rewrite Hf, lookup_alter_eq, Hb in Hb'. }
    assert (Hs : spillable_of b = false).
    { rewrite Hf, lookup_alter_eq, Hb in Hb'. injection Hb' as <-.
      rewrite <- Hs'. symmetry. apply same_protection_spillable, Hp. }
    rewrite (spill_unspillable_unchanged self target w b Hb Hs), Hb in Hb'.
    injection Hb' as <-. by apply (HI self).
  - rewrite Hf, lookup_alter_ne in Hb' by done. by apply (HI r).
Qed.

(** An attribute written on a buffer that is in device memory. *)
Lemma protected_upd_on_device self f w b :
  (∀ x, location (f x) = location x) ->
  objs w !! self = Some b ->
  location b = Some (DStr "gpu") ->
  protected_on_device w ->
  protected_on_device (snd (upd_obj self f w)).
Proof.
  intros Hloc Hb Hg (Hrefs & HI). split.
  - intros k. simpl. rewrite lookup_alter_is_Some. apply Hrefs.
  - intros r x. simpl. destruct (decide (r = self)) as [->|Hne].
    + rewrite lookup_alter_eq, Hb. simpl. intros [= <-] _.
      by rewrite Hloc.
    + rewrite lookup_alter_ne by done. apply HI.
Qed.

Lemma ipres_spill_gpu_upd {B} self f (k : unit -> M World B) :
  (∀ x, location (f x) = location x) ->
  (∀ a, pres protected_on_device (k a)) ->
  pres protected_on_device (spill self "gpu" ≫= λ _, upd_obj self f ≫= k).
Proof.
  intros Hloc Hk w HP.
  pose proof (ipres_spill self "gpu" w HP) as HP1.
  pose proof (spill_ok_at_target self "gpu" w) as Hat.
  munfold. destruct (spill self "gpu" w) as [[[]|e] w1]; simpl in *; [|done].
  destruct Hat as (b & Hb & Hg); [done|].
  apply Hk.
  exact (protected_upd_on_device self f w1 b Hloc Hb Hg HP1).
Qed.

Lemma ipres_spill_gpu_upd_last self f :
  (∀ x, location (f x) = location x) ->
  pres protected_on_device (spill self "gpu" ≫= λ _, upd_obj self f).
Proof.
  intros Hloc w HP.
  pose proof (ipres_spill self "gpu" w HP) as HP1.
  pose proof (spill_ok_at_target self "gpu" w) as Hat.
  munfold. destruct (spill self "gpu" w) as [[[]|e] w1]; simpl in *; [|done].
  destruct Hat as (b & Hb & Hg); [done|].
  exact (protected_upd_on_device self f w1 b Hloc Hb Hg HP1).
Qed.

Lemma ipres_upd_last_accessed self x :
  pres protected_on_device (upd_obj self (set_last_accessed x)).
Proof.
  intros w (Hrefs & HI). split.
  - intros k. simpl. rewrite lookup_alter_is_Some. apply Hrefs.
  - intros r b'. simpl. destruct (decide (r = self)) as [->|Hne].
    + rewrite lookup_alter_eq.
      destruct (objs w !! self) as [b|] eqn:Hb; simpl; [|done].
      intros [= <-]. apply (HI self b Hb).
    + rewrite lookup_alter_ne by done. apply HI.
Qed.

Lemma ipres_SpillLock_del l : pres protected_on_device (SpillLock_del l).
Proof.
  intros w (Hrefs & HI). split.
  - intros k. simpl. rewrite lookup_fmap, fmap_is_Some. apply Hrefs.
  - intros r b'. simpl. rewrite lookup_fmap.
    destruct (objs w !! r) as [b|] eqn:Hb; simpl; [|done].
    intros [= <-] Hs. apply (HI r b Hb).
    apply spillable_of_false. apply spillable_of_false in Hs as [He|Hl];
      [by left|right].
    simpl in Hl. intros Hempty. apply Hl. rewrite Hempty.
    apply difference_disjoint_L, disjoint_empty_l.
Qed.

Lemma ipres_new_obj b0 :
  (spillable_of b0 = false -> location b0 = Some (DStr "gpu")) ->
  pres protected_on_device (new_obj b0).
Proof.
  intros H0 w (Hrefs & HI). split.
  - intros k. simpl. rewrite lookup_insert_is_Some.
    intros [<-|[_ Hk]]; [lia|]. specialize (Hrefs k Hk). lia.
  - intros r b. simpl. rewrite lookup_insert_Some.
    intros [[_ <-]|[_ Hb]]; [done|]. by apply (HI r).
Qed.

Create HintDb ipres.

#[local] Hint Resolve ipres_get_obj ipres_perf_counter ipres_monotonic
  ipres_bytearray ipres_copy_ptr_to_host ipres_log_expose ipres_dict_getitem
  ipres_SpillLock_new ipres_spill ipres_upd_last_accessed ipres_SpillLock_del
  : ipres.

Ltac ipres_go :=
  repeat first
    [ solve [eauto with ipres]
    | apply ipres_spill_gpu_upd; [done|intros ?]
    | apply ipres_spill_gpu_upd_last; done
    | apply pres_bind; [|intros ?]
    | apply pres_mret
    | apply pres_raise
    | apply pres_assert
    | match goal with
      | |- pres _ (if ?c then _ else _) => destruct c
      | |- pres _ (match ?x with _ => _ end) => destruct x
      end ].

Lemma ipres_spill_victims l : pres protected_on_device (spill_victims l).
Proof.
  induction l as [|k l IH]; simpl; [apply pres_mret|].
  apply pres_bind; [|done].
  intros w HP. unfold spill_victim.
  destruct (objs w !! k) as [b|]; [|done].
  destruct (spillable_of b); [|done]. by apply ipres_spill.
Qed.

Lemma ipres_spill_to_device_limit victims :
  pres protected_on_device (spill_to_device_limit victims).
Proof. intros w. apply ipres_spill_victims. Qed.

#[local] Hint Resolve ipres_spill_to_device_limit : ipres.

Lemma ipres_ptr victims self : pres protected_on_device (ptr victims self).
Proof. unfold ptr. ipres_go. Qed.

Lemma ipres_spill_lock self l : pres protected_on_device (spill_lock self l).
Proof. unfold spill_lock. destruct l; ipres_go. Qed.

#[local] Hint Resolve ipres_ptr ipres_spill_lock : ipres.

Lemma ipres_get_ptr victims self l :
  pres protected_on_device (get_ptr victims self l).
Proof. unfold get_ptr. ipres_go. Qed.

#[local] Hint Resolve ipres_get_ptr : ipres.

Lemma ipres_mutable_ptr victims self :
  pres protected_on_device (mutable_ptr victims self).
Proof. unfold mutable_ptr. ipres_go. Qed.

Lemma ipres_memoryview self offset n :
  pres protected_on_device (memoryview self offset n).
Proof. unfold memoryview, spillable. ipres_go. Qed.

Lemma ipres_from_device_memory data e :
  pres protected_on_device (_from_device_memory data e).
Proof.
  unfold _from_device_memory, _finalize_init.
  apply pres_bind; [apply ipres_monotonic|]. intros now.
  by apply ipres_new_obj.
Qed.

Lemma ipres_from_host_memory data :
  pres protected_on_device (_from_host_memory data).
Proof.
  unfold _from_host_memory, _finalize_init.
  destruct (negb (c_contiguous data)); [apply pres_raise|].
  apply pres_bind; [apply ipres_monotonic|]. intros now.
  by apply ipres_new_obj.
Qed.

Lemma ipres_size self : pres protected_on_device (size self).
Proof. unfold size. ipres_go. Qed.

Lemma ipres_is_spilled self : pres protected_on_device (is_spilled self).
Proof. unfold is_spilled. ipres_go. Qed.

#[local] Hint Resolve ipres_size ipres_is_spilled : ipres.

Lemma ipres_slice_init base offset n :
  pres protected_on_device (SpillableBufferSlice.__init__ base offset n).
Proof. unfold SpillableBufferSlice.__init__. ipres_go. Qed.

#[local] Hint Resolve ipres_mutable_ptr ipres_memoryview
  ipres_from_device_memory ipres_from_host_memory ipres_slice_init : ipres.

Lemma ipres_obj_ptr victims o : pres protected_on_device (obj_ptr victims o).
Proof.
  destruct o; simpl; [eauto with ipres|].
  unfold SpillableBufferSlice.ptr. ipres_go.
Qed.

Lemma ipres_obj_size o : pres protected_on_device (obj_size o).
Proof.
  destruct o; simpl; [eauto with ipres|].
  unfold SpillableBufferSlice.size. ipres_go.
Qed.

Lemma ipres_obj_get_ptr victims o l :
  pres protected_on_device (obj_get_ptr victims o l).
Proof.
  destruct o; simpl; [eauto with ipres|].
  unfold SpillableBufferSlice.get_ptr. ipres_go.
Qed.

Lemma ipres_obj_mutable_ptr victims o :
  pres protected_on_device (obj_mutable_ptr victims o).
Proof.
  destruct o; simpl; [eauto with ipres|].
  unfold SpillableBufferSlice.mutable_ptr, SpillableBufferSlice.get_ptr.
  ipres_go.
Qed.

Lemma ipres_obj_owner o : pres protected_on_device (obj_owner o).
Proof. destruct o; simpl; ipres_go. Qed.

#[local] Hint Resolve ipres_obj_ptr ipres_obj_size ipres_obj_get_ptr
  ipres_obj_owner : ipres.

Lemma ipres_cuda_array_interface o :
  pres protected_on_device (__cuda_array_interface__ o).
Proof. unfold __cuda_array_interface__. ipres_go. Qed.

Lemma ipres_getitem victims d i :
  pres protected_on_device (DelayedPointerTuple.__getitem__ victims d i).
Proof. unfold DelayedPointerTuple.__getitem__. ipres_go. Qed.

Lemma ipres_serialize victims o :
  pres protected_on_device (serialize victims o).
Proof.
  unfold serialize. apply pres_bind.
  { destruct o; simpl; apply ipres_is_spilled. }
  intros [|].
  - apply pres_bind; [|intros ?; apply pres_mret].
    destruct o; simpl; apply ipres_memoryview.
  - ipres_go.
Qed.

Lemma ipres_run_action victims a w :
  protected_on_device w -> protected_on_device (run_action victims a w).
Proof.
  revert w. destruct a as [o|o]; simpl; [|apply ipres_serialize].
  destruct o as [o t|o|o l|o|o l|o off n|o off n|o|d i|data e|data| | |l];
    simpl.
  - destruct o; simpl; apply ipres_spill.
  - apply ipres_obj_ptr.
  - apply ipres_obj_get_ptr.
  - apply ipres_obj_mutable_ptr.
  - destruct o; simpl; apply ipres_spill_lock.
  - destruct o; simpl; apply ipres_memoryview.
  - destruct o; simpl; apply ipres_slice_init.
  - apply ipres_cuda_array_interface.
  - apply ipres_getitem.
  - apply ipres_from_device_memory.
  - apply ipres_from_host_memory.
  - apply ipres_spill_to_device_limit.
  - apply ipres_SpillLock_new.
  - apply ipres_SpillLock_del.
Qed.

(** X7: the invariant behind exposure and spill locks.  In a process where
    every buffer that is exposed or locked is in device memory, this stays
    so after any sequence of operations, successful or not: [spill] refuses
    to move such a buffer, the manager skips it, and [ptr], [get_ptr],
    [mutable_ptr], [spill_lock] and [serialize] protect a buffer only once
    it has been brought to the device. *)
Theorem protected_buffers_stay_on_device victims acts w :
  protected_on_device w ->
  protected_on_device (run_actions victims acts w).
Proof.
  revert w. induction acts as [|a acts IH]; intros w HP; [done|].
  simpl. apply IH. by apply ipres_run_action.
Qed.

Lemma protected_buffers_stay_on_device_witness :
  let acts := [Act (OFromHostMemory three_bytes);
               Act (OSpillLock (Base 0) (Some 7%nat));
               Act (OSpill (Base 0) "cpu");
               ASerialize (Base 0);
               Act (OPtr (Base 0));
               Act OSpillToDeviceLimit] in
  protected_on_device
    (run_actions (λ _, [0%nat]) acts (initial_world (blank_device 100 1000))).
Proof.
  intros acts. apply protected_buffers_stay_on_device. split.
  - intros k [x Hx]. by vm_compute in Hx.
  - intros r b Hb. by vm_compute in Hb.
Defined.

(** *** Serialization *)

(** X8: [serialize] of a buffer (or slice) whose base is in device memory
    returns one device frame at the address of the buffer (plus the offset
    of a slice), with the size of the object, owned by the owner of the
    object and by a new spill lock.  The buffer is not exposed by this and
    nothing is logged; it has become unspillable through the new lock, which
    is in its lock set, and stays where it was. *)
Theorem serialize_on_device victims w o b :
  objs w !! base_of o = Some b ->
  location b = Some (DStr "gpu") ->
  ∃ w' b',
    serialize victims o w =
      (Ok (header_of o,
           [DeviceFrame {| frame_ptr := _ptr b + offset_of o;
                           frame_size := size_in o b;
                           frame_owner := (owner_in o b, next_lock w) |}]),
       w') ∧
    objs w' = <[base_of o := b']> (objs w) ∧
    _exposed b' = _exposed b ∧
    _spill_locks b' = {[next_lock w]} ∪ _spill_locks b ∧
    spillable_of b' = false ∧
    _ptr b' = _ptr b ∧
    location b' = Some (DStr "gpu") ∧
    statistics w' = statistics w ∧
    device w' = device w.
Proof.
  intros Hb Hg.
  set (l := next_lock w). set (w1 := set_next_lock (S l) w).
  assert (Hb1 : objs w1 !! base_of o = Some b) by done.
  assert (Hget : ∃ w' b',
    get_ptr victims (base_of o) (Some l) w1 = (Ok (_ptr b), w') ∧
    objs w' = <[base_of o := b']> (objs w) ∧
    _exposed b' = _exposed b ∧
    _spill_locks b' = {[l]} ∪ _spill_locks b ∧
    _ptr b' = _ptr b ∧ _size b' = _size b ∧ _owner b' = _owner b ∧
    location b' = Some (DStr "gpu") ∧
    statistics w' = statistics w ∧
    device w' = device w).
  { punfold. rewrite (spill_same _ _ _ _ Hb1 Hg).
    repeat (progress sstep).
    eexists _, _. split; [reflexivity|]. simpl.
    split. { rewrite alter_alter_eq. apply alter_lookup_insert. exact Hb. }
    done. }
  destruct Hget as (w' & b' & Hrun & Hobjs & He & Hl & Hp & Hsz & Ho & Hloc
                    & Hst & Hd).
  assert (Hb' : objs w' !! base_of o = Some b')
    by (by rewrite Hobjs, lookup_insert_eq).
  exists w', b'. split.
  { unfold location in Hg. unfold serialize.
    destruct o as [r|s]; simpl base_of in *.
    - unfold obj_is_spilled, obj_get_ptr, obj_size, obj_owner, is_spilled,
        get_obj, dict_getitem, SpillLock_new.
      munfold. rewrite Hb. with_strategy opaque [get_ptr] simpl.
      rewrite Hg. with_strategy opaque [get_ptr] simpl.
      fold l. fold w1. rewrite Hrun. simpl.
      unfold size, get_obj. munfold. rewrite Hb'. simpl.
      rewrite Hb'. simpl.
      rewrite Hsz, Ho, Z.add_0_r. done.
    - unfold obj_is_spilled, obj_get_ptr, obj_size, obj_owner,
        SpillableBufferSlice.is_spilled, is_spilled, get_obj, dict_getitem,
        SpillLock_new, SpillableBufferSlice.get_ptr, SpillableBufferSlice.size.
      munfold. rewrite Hb. with_strategy opaque [get_ptr] simpl.
      rewrite Hg. with_strategy opaque [get_ptr] simpl.
      fold l. fold w1. rewrite Hrun. done. }
  split; [done|]. split; [done|]. split; [done|]. split; [|done].
  apply spillable_of_false. right. rewrite Hl. apply lock_added_nonempty.
Qed.

Lemma serialize_on_device_witness :
  ∃ w' b',
    serialize (λ _, [0%nat]) (Base 0) device_world =
      (Ok (header_of (Base 0),
           [DeviceFrame {| frame_ptr := 100; frame_size := 4;
                           frame_owner :=
                             (OwnerDevice (Some {| db_ptr := 100; db_size := 4 |}),
                              0%nat) |}]),
       w') ∧
    objs w' !! 0%nat = Some b' ∧
    _exposed b' = false ∧
    spillable_of b' = false.
Proof.
  assert (Hb : ∃ b, objs device_world !! 0%nat = Some b ∧
                    location b = Some (DStr "gpu") ∧
                    _ptr b = 100 ∧ _size b = 4 ∧ _exposed b = false ∧
                    _owner b = Some {| db_ptr := 100; db_size := 4 |})
    by (by vm_compute; eauto 10).
  destruct Hb as (b & Hb & Hg & Hp & Hsz & He & Ho).
  destruct (serialize_on_device (λ _, [0%nat]) device_world (Base 0) b Hb Hg)
    as (w' & b' & Hrun & Hobjs & He' & _ & Hs & _).
  exists w', b'. split.
  { rewrite Hrun. simpl. by rewrite Hp, Hsz, Ho. }
  split; [by rewrite Hobjs; simpl; rewrite lookup_insert_eq|].
  split; [congruence|done].
Defined.

Lemma memoryview_on_host w self b hv offset size n :
  objs w !! self = Some b ->
  location b = Some (DStr "cpu") ->
  spillable_of b = true ->
  host_view b = Some (DView hv) ->
  n = default (_size b) size ->
  memoryview self offset size w = (Ok (mv_slice hv offset (offset + n)), tick w).
Proof.
  intros Hb Hc Hs Hv Hn.
  vunfold. repeat (progress sstep).
  rewrite (spill_same _ _ _ _ Hb Hc). unfold host_view in Hv.
  repeat (progress sstep).
  destruct size; simpl in Hn; by subst.
Qed.

Lemma is_spilled_on_host w self b :
  objs w !! self = Some b ->
  location b = Some (DStr "cpu") ->
  is_spilled self w = (Ok true, w).
Proof.
  unfold location. intros Hb Hc.
  unfold is_spilled, get_obj, dict_getitem. munfold. by rewrite Hb, Hc.
Qed.

(** X9: [serialize] of a buffer (or slice) whose base is spilled returns
    one host frame, a view of the bytes of the object, and does not bring
    the buffer back to the device: but for the clock, the process is as it
    was. *)
Theorem serialize_on_host victims w o b :
  objs w !! base_of o = Some b ->
  wf_buf b = true ->
  location b = Some (DStr "cpu") ->
  0 ≤ offset_of o -> 0 ≤ size_in o b -> offset_of o + size_in o b ≤ _size b ->
  ∃ mv,
    serialize victims o w = (Ok (header_of o, [HostFrame mv]), tick w) ∧
    mv_read (host w) mv =
      take (Z.to_nat (size_in o b))
           (drop (Z.to_nat (offset_of o)) (contents w b)).
Proof.
  intros Hb Hwf Hc Ho Hn Hle.
  destruct (wf_buf_cases _ Hwf) as [Hsz [Hg|(_ & Hs & hv & Hv & Hlen & Hst)]];
    [congruence|].
  exists (mv_slice hv (offset_of o) (offset_of o + size_in o b)). split.
  - unfold serialize. munfold. destruct o as [r|s]; simpl in *.
    + rewrite (is_spilled_on_host _ _ _ Hb Hc).
      by rewrite (memoryview_on_host w r b hv 0 None (_size b) Hb Hc Hs Hv).
    + unfold SpillableBufferSlice.is_spilled, SpillableBufferSlice.memoryview.
      rewrite (is_spilled_on_host _ _ _ Hb Hc).
      rewrite (memoryview_on_host w _ b hv _ _ (SpillableBufferSlice._size s)
                 Hb Hc Hs Hv) by done.
      by rewrite Z.add_0_r.
  - rewrite mv_read_slice by lia.
    by rewrite (contents_on_host w b hv Hc Hv).
Qed.

Lemma serialize_on_host_witness :
  ∃ mv,
    serialize (λ _, []) (Base 0) host_world
      = (Ok (header_of (Base 0), [HostFrame mv]), tick host_world) ∧
    mv_read (host host_world) mv = [Byte.x01; Byte.x02; Byte.x03].
Proof.
  assert (Hb : ∃ b, objs host_world !! 0%nat = Some b ∧ wf_buf b = true ∧
                    location b = Some (DStr "cpu") ∧ _size b = 3 ∧
                    contents host_world b = [Byte.x01; Byte.x02; Byte.x03])
    by (by vm_compute; eauto 10).
  destruct Hb as (b & Hb & Hwf & Hc & Hsz & Hbytes).
  destruct (serialize_on_host (λ _, []) host_world (Base 0) b Hb Hwf Hc)
    as (mv & Hrun & Hread); [simpl; lia..|].
  exists mv. split; [done|].
  rewrite Hread, Hbytes. simpl. rewrite Hsz. done.
Defined.

(** *** Locking without a lock *)

Lemma lock_round_trip (l : nat) (X : gset nat) :
  l ∉ X -> ({[l]} ∪ X) ∖ {[l]} = X.
Proof.
  intros Hl. rewrite lock_added_then_dropped.
  apply difference_disjoint_L. by apply disjoint_singleton_r.
Qed.

(** X10: [spill_lock(None)] makes a lock of its own, which nothing refers
    to once the call has returned.  When it returns, the buffer has been
    brought to the device, and its exposed flag, its lock set and so its
    spillability are what they were: no buffer holds the lock of the call.
    It fails only with the [MemoryError] of the device allocation, and then
    has added no lock either. *)
Theorem spill_lock_none_is_temporary w self b :
  objs w !! self = Some b ->
  wf_buf b = true ->
  (∀ l, l ∈ _spill_locks b -> (l < next_lock w)%nat) ->
  match spill_lock self None w with
  | (Ok _, w') =>
      (∀ r x, objs w' !! r = Some x -> next_lock w ∉ _spill_locks x) ∧
      ∃ b', objs w' !! self = Some b' ∧
            location b' = Some (DStr "gpu") ∧
            _exposed b' = _exposed b ∧
            _spill_locks b' = _spill_locks b ∧
            spillable_of b' = spillable_of b
  | (Raise e, w') =>
      e = OutOfMemory ∧
      ∃ b', objs w' !! self = Some b' ∧
            _exposed b' = _exposed b ∧
            _spill_locks b' = _spill_locks b
  end.
Proof.
  intros Hb Hwf Hfresh.
  set (l := next_lock w). set (w1 := set_next_lock (S l) w).
  assert (Hl : l ∉ _spill_locks b).
  { intros Hin. specialize (Hfresh l Hin). unfold l in Hfresh. lia. }
  assert (Hb1 : objs w1 !! self = Some b) by done.
  assert (Hrun : spill_lock self None w =
            ((spill self "gpu";;
              upd_obj self (set_spill_locks (λ s, {[l]} ∪ s));;
              SpillLock_del l) w1)) by done.
  rewrite Hrun. clear Hrun.
  assert (Hnone : ∀ (m : gmap nat t) r x,
            (set_spill_locks (λ s, s ∖ {[l]}) <$> m) !! r = Some x ->
            l ∉ _spill_locks x).
  { intros m r x. rewrite lookup_fmap. intros Hx.
    apply fmap_Some in Hx as (y & _ & ->). apply lock_not_in_dropped. }
  destruct (wf_buf_cases _ Hwf) as [Hsz [Hg|(Hc & Hs & mv & Hv & Hlen & Hst)]].
  - punfold. rewrite (spill_same _ _ _ _ Hb1 Hg). simpl.
    split; [apply Hnone|].
    rewrite lookup_fmap, lookup_alter_eq, Hb. simpl.
    eexists. split; [done|]. simpl. split; [done|]. split; [done|].
    rewrite (lock_round_trip l _ Hl). split; [done|].
    unfold spillable_of. simpl. by rewrite (lock_round_trip l _ Hl).
  - destruct (dalloc (mv_len mv) (device w1)) as [[p d']|] eqn:Ha.
    + punfold. rewrite (spill_cpu_to_gpu _ _ _ _ _ _ Hb1 Hc Hv Hs Hlen Ha).
      simpl. split; [apply Hnone|].
      rewrite lookup_fmap, lookup_alter_eq, lookup_insert_eq. simpl.
      eexists. split; [done|]. simpl.
      split; [by unfold location; simpl; rewrite lookup_insert_eq|].
      split; [done|].
      rewrite (lock_round_trip l _ Hl). split; [done|].
      unfold spillable_of. simpl. by rewrite (lock_round_trip l _ Hl).
    + punfold. rewrite (spill_cpu_to_gpu_oom _ _ _ _ Hb1 Hc Hv Hs Ha).
      simpl. split; [done|]. rewrite lookup_insert_eq. by eexists.
Qed.

Lemma spill_lock_none_is_temporary_witness :
  ∃ w' b',
    spill_lock 0 None host_world = (Ok tt, w') ∧
    objs w' !! 0%nat = Some b' ∧
    location b' = Some (DStr "gpu") ∧
    _spill_locks b' = ∅ ∧
    spillable_of b' = true.
Proof.
  assert (Hb : ∃ b, objs host_world !! 0%nat = Some b ∧ wf_buf b = true ∧
                    _spill_locks b = ∅ ∧ spillable_of b = true)
    by (by vm_compute; eauto 10).
  destruct Hb as (b & Hb & Hwf & Hlocks & Hsp).
  pose proof (spill_lock_none_is_temporary host_world 0 b Hb Hwf) as H.
  destruct (spill_lock 0 None host_world) as [[[]|e] w'] eqn:Hrun;
    [|by vm_compute in Hrun].
  destruct H as (_ & b' & Hb' & Hloc & _ & Hl' & Hs').
  { intros l. rewrite Hlocks. by intros ?%not_elem_of_empty. }
  exists w', b'. split; [done|]. split; [done|]. split; [done|].
  split; congruence.
Defined.

(** *** Slices and their base *)

Lemma slice_init_ok base off n w s w' :
  SpillableBufferSlice.__init__ base off n w = (Ok s, w') ->
  w' = w ∧
  s = {| SpillableBufferSlice._base := base;
         SpillableBufferSlice._offset := off;
         SpillableBufferSlice._size := n |} ∧
  ∃ b, objs w !! base = Some b ∧ 0 ≤ off ∧ 0 ≤ n ∧ off + n ≤ _size b.
Proof.
  unfold SpillableBufferSlice.__init__.
  case_bool_decide; [done|]. case_bool_decide; [done|].
  unfold size, get_obj. munfold.
  destruct (objs w !! base) as [b|] eqn:Hb; simpl; [|done].
  case_bool_decide; [done|]. intros [= <- <-].
  split; [done|]. split; [done|]. exists b. split; [done|]. lia.
Qed.

(** X11: a slice that [_getitem] has returned, from a buffer or from
    another slice, lies within its base buffer, and does so for ever: no
    operation changes the size of a buffer, so that offset and size of the
    slice stay within the base whatever happens to it. *)
Theorem slices_stay_within_base victims o off n w s w' :
  refs_ok w ->
  obj_getitem o off n w = (Ok s, w') ->
  ∀ acts, slice_within s (run_actions victims acts w').
Proof.
  intros Hrefs Hrun acts.
  assert (Hinit : ∃ base off', SpillableBufferSlice.__init__ base off' n w
                               = (Ok s, w')).
  { destruct o as [r|s0]; simpl in Hrun; eauto. }
  destruct Hinit as (base & off' & Hinit).
  apply slice_init_ok in Hinit as (-> & -> & b & Hb & Ho & Hn & Hle).
  simpl.
  assert (HP : pinned base (λ x, off' + n ≤ _size x) (λ _, True) w).
  { split; [done|]. split; [done|]. by exists b. }
  apply (ppres_run_actions base _ (λ _, True)) with (victims := victims)
    (l := acts) in HP.
  - destruct HP as (_ & _ & b' & Hb' & Hle'). by exists b'.
  - intros. apply pinned_spill_protection.
    intros x x' (_ & _ & Hsz) Hx. by rewrite Hsz.
  - done.
  - done.
  - done.
  - done.
  - apply Forall_forall. intros a _. by destruct a as [[]|].
Qed.

Lemma slices_stay_within_base_witness :
  ∃ s,
    obj_getitem (Base 0) 1 2 device_world = (Ok s, device_world) ∧
    ∀ acts, slice_within s (run_actions (λ _, [0%nat]) acts device_world).
Proof.
  destruct (obj_getitem (Base 0) 1 2 device_world) as [r w'] eqn:Hrun.
  assert (Hr : ∃ s, r = Ok s ∧ w' = device_world)
    by (by vm_compute in Hrun; injection Hrun as <- <-; eauto).
  destruct Hr as (s & -> & ->). exists s. split; [done|].
  apply (slices_stay_within_base (λ _, [0%nat]) (Base 0) 1 2 device_world);
    [|done].
  apply wf_world_refs_ok. apply (bool_decide_unpack _). by vm_compute.
Defined.

(** *** Constructors *)

(** X17: a buffer made by [_from_host_memory] from a contiguous view is
    born spilled and spillable, uses no device memory, and stands for the
    bytes of the view; [spill(target="gpu")] then puts these bytes on the
    device, at the address of the new allocation, or fails with the
    [MemoryError] of that allocation. *)
Theorem from_host_memory_holds_bytes w data :
  c_contiguous data = true ->
  length (mv_read (host w) data) = Z.to_nat (mv_len data) ->
  ∃ w1 b,
    _from_host_memory data w = (Ok (next_ref w), w1) ∧
    objs w1 !! next_ref w = Some b ∧
    device w1 = device w ∧
    location b = Some (DStr "cpu") ∧
    spillable_of b = true ∧
    _size b = mv_len data ∧
    contents w1 b = mv_read (host w) data ∧
    match spill (next_ref w) "gpu" w1 with
    | (Ok _, w2) =>
        ∃ b2, objs w2 !! next_ref w = Some b2 ∧
              location b2 = Some (DStr "gpu") ∧
              _ptr b2 = brk (device w) ∧
              contents w2 b2 = mv_read (host w) data
    | (Raise e, w2) => e = MemoryError
    end.
Proof.
  intros Hc Hlen.
  set (b := {| _owner := None; _ptr := 0; _size := mv_len data;
               _spill_locks := ∅; _last_accessed := clock w;
               _ptr_desc := <["type" := DStr "cpu"]>
                              {["memoryview" := DView data]};
               _exposed := false |}).
  set (w1 := set_next_ref (S (next_ref w))
               (set_objs <[next_ref w := b]> (tick w))).
  assert (Hrun : _from_host_memory data w = (Ok (next_ref w), w1)).
  { unfold _from_host_memory. by rewrite Hc. }
  assert (Hb1 : objs w1 !! next_ref w = Some b)
    by (unfold w1; simpl; by rewrite lookup_insert_eq).
  assert (Hloc : location b = Some (DStr "cpu")) by done.
  assert (Hv : host_view b = Some (DView data)) by done.
  assert (Hs : spillable_of b = true) by done.
  exists w1, b. split; [done|]. split; [done|]. split; [done|].
  split; [done|]. split; [done|]. split; [done|]. split.
  { by rewrite (contents_on_host w1 b data Hloc Hv). }
  destruct (dalloc (mv_len data) (device w1)) as [[p d']|] eqn:Ha.
  - rewrite (spill_cpu_to_gpu _ _ _ _ _ _ Hb1 Hloc Hv Hs eq_refl Ha).
    assert (Hp : p = brk (device w)).
    { unfold dalloc in Ha. case_bool_decide; [|done].
      by injection Ha as <- _. }
    eexists. split; [by simpl; rewrite lookup_insert_eq|].
    split; [by unfold location; simpl; rewrite lookup_insert_eq|].
    split; [done|].
    rewrite contents_on_device
      by (by unfold location; simpl; rewrite lookup_insert_eq).
    simpl. rewrite <- Hlen. apply dread_dwrite_same.
  - by rewrite (spill_cpu_to_gpu_oom _ _ _ _ Hb1 Hloc Hv Hs Ha).
Qed.

Lemma from_host_memory_holds_bytes_witness :
  ∃ w1 b w2 b2,
    _from_host_memory three_bytes (initial_world (blank_device 100 1000))
      = (Ok 0%nat, w1) ∧
    objs w1 !! 0%nat = Some b ∧
    contents w1 b = [Byte.x01; Byte.x02; Byte.x03] ∧
    spill 0 "gpu" w1 = (Ok tt, w2) ∧
    objs w2 !! 0%nat = Some b2 ∧
    _ptr b2 = 100 ∧
    contents w2 b2 = [Byte.x01; Byte.x02; Byte.x03].
Proof.
  destruct (from_host_memory_holds_bytes
              (initial_world (blank_device 100 1000)) three_bytes)
    as (w1 & b & Hrun & Hb & _ & _ & _ & _ & Hbytes & Hspill);
    [done|by vm_compute|].
  change (next_ref (initial_world (blank_device 100 1000))) with 0%nat in *.
  change (mv_read (host (initial_world (blank_device 100 1000))) three_bytes)
    with [Byte.x01; Byte.x02; Byte.x03] in *.
  change (brk (device (initial_world (blank_device 100 1000)))) with 100 in *.
  destruct (spill 0 "gpu" w1) as [[[]|e] w2] eqn:Hrun2.
  2:{ exfalso. vm_compute in Hrun. injection Hrun as <-.
      by vm_compute in Hrun2. }
  destruct Hspill as (b2 & Hb2 & _ & Hp & Hbytes2).
  by exists w1, b, w2, b2.
Defined.

(** X18: a buffer that [_from_device_memory] makes with [exposed=True] is
    exposed from birth: it wraps the memory of [data] without copying, and
    whatever operations follow, on it or on other buffers, it is still
    exposed, in device memory and at the address of [data]. *)
Theorem born_exposed_never_moves victims w data :
  refs_ok w ->
  ∃ w1,
    _from_device_memory data true w = (Ok (next_ref w), w1) ∧
    device w1 = device w ∧
    ∀ acts, ∃ b,
      objs (run_actions victims acts w1) !! next_ref w = Some b ∧
      _exposed b = true ∧
      location b = Some (DStr "gpu") ∧
      _ptr b = db_ptr data.
Proof.
  intros Hrefs. eexists. split; [reflexivity|]. split; [done|].
  intros acts.
  match goal with |- context [run_actions _ _ ?w1] => set (w1' := w1) end.
  assert (HP : pinned (next_ref w) (exposed_at (db_ptr data)) (λ _, True) w1').
  { split; [|split; [done|]].
    - intros k. unfold w1'. simpl. rewrite lookup_insert_is_Some.
      intros [<-|[_ Hk]]; [lia|]. specialize (Hrefs k Hk). lia.
    - eexists. unfold w1'. simpl. rewrite lookup_insert_eq.
      split; [done|]. by repeat split. }
  apply (pinned_exposed_run victims _ _ acts) in HP.
  destruct HP as (_ & _ & b & Hb & He & Hl & Hp). by exists b.
Qed.

Lemma born_exposed_never_moves_witness :
  ∃ w1,
    _from_device_memory {| db_ptr := 100; db_size := 4 |} true
      (initial_world (blank_device 104 1000)) = (Ok 0%nat, w1) ∧
    ∀ acts, ∃ b,
      objs (run_actions (λ _, [0%nat]) acts w1) !! 0%nat = Some b ∧
      _exposed b = true ∧
      location b = Some (DStr "gpu") ∧
      _ptr b = 100.
Proof.
  destruct (born_exposed_never_moves (λ _, [0%nat])
              (initial_world (blank_device 104 1000))
              {| db_ptr := 100; db_size := 4 |})
    as (w1 & Hrun & _ & H).
  { intros k [x Hx]. by vm_compute in Hx. }
  by exists w1.
Defined.

(** *** Access times and the exposure log *)

Lemma get_ptr_locked_time victims w self b l :
  objs w !! self = Some b ->
  wf_buf b = true ->
  match get_ptr victims self (Some l) w with
  | (Ok p, w') =>
      ∃ b', objs w' = <[self := b']> (objs w) ∧
            clock w ≤ _last_accessed b' < clock w'
  | (Raise e, w') => e = OutOfMemory
  end.
Proof.
  intros Hb Hwf.
  destruct (wf_buf_cases _ Hwf) as [Hsz [Hg|(Hc & Hs & mv & Hv & Hlen & Hst)]].
  - punfold. rewrite (spill_same _ _ _ _ Hb Hg).
    repeat (progress sstep).
    eexists. split.
    { rewrite alter_alter_eq. apply alter_lookup_insert. exact Hb. }
    simpl. lia.
  - destruct (dalloc (mv_len mv) (device w)) as [[p d']|] eqn:Ha.
    + punfold. rewrite (spill_cpu_to_gpu _ _ _ _ _ _ Hb Hc Hv Hs Hlen Ha).
      repeat (progress sstep).
      eexists. split; [by rewrite !alter_insert_eq|].
      simpl. lia.
    + punfold. by rewrite (spill_cpu_to_gpu_oom _ _ _ _ Hb Hc Hv Hs Ha).
Qed.

(** X19: [get_ptr] under a spill lock stamps the buffer with the time of
    the access.  In a process where every last-access time is one the
    clock has shown, after the call no buffer has a later last-access time
    than this one, and every last-access time is again one the clock has
    shown. *)
Theorem pointer_access_is_most_recent victims w self b l :
  objs w !! self = Some b ->
  wf_buf b = true ->
  (∀ r x, objs w !! r = Some x -> _last_accessed x < clock w) ->
  match get_ptr victims self (Some l) w with
  | (Ok p, w') =>
      ∃ b', objs w' !! self = Some b' ∧
            (∀ r x, objs w' !! r = Some x ->
                    _last_accessed x ≤ _last_accessed b') ∧
            (∀ r x, objs w' !! r = Some x -> _last_accessed x < clock w')
  | (Raise e, w') => e = OutOfMemory
  end.
Proof.
  intros Hb Hwf Hpast.
  pose proof (get_ptr_locked_time victims w self b l Hb Hwf) as H.
  destruct (get_ptr victims self (Some l) w) as [[p|e] w']; [|done].
  destruct H as (b' & Hobjs & Hlo & Hhi).
  exists b'. split; [by rewrite Hobjs, lookup_insert_eq|].
  split; intros r x; rewrite Hobjs, lookup_insert_Some;
    (intros [[_ <-]|[_ Hx]]; [lia|]); specialize (Hpast r x Hx); lia.
Qed.

Lemma pointer_access_is_most_recent_witness :
  ∃ p w' b',
    get_ptr (λ _, []) 0 (Some 0%nat) host_world = (Ok p, w') ∧
    objs w' !! 0%nat = Some b' ∧
    ∀ r x, objs w' !! r = Some x -> _last_accessed x ≤ _last_accessed b'.
Proof.
  assert (Hb : ∃ b, objs host_world !! 0%nat = Some b ∧ wf_buf b = true)
    by (by vm_compute; eauto).
  destruct Hb as (b & Hb & Hwf).
  pose proof (pointer_access_is_most_recent (λ _, []) host_world 0 b 0 Hb Hwf)
    as H.
  destruct (get_ptr (λ _, []) 0 (Some 0%nat) host_world) as [[p|e] w'] eqn:Hrun.
  2:{ by vm_compute in Hrun. }
  destruct H as (b' & Hb' & Hmost & _).
  { intros r x Hx.
    assert (Hr : r = 0%nat).
    { destruct r; [done|]. exfalso. revert Hx. unfold host_world. simpl.
      by rewrite lookup_insert_ne, lookup_empty. }
    subst r. rewrite Hb in Hx. injection Hx as <-.
    revert Hb. unfold host_world. simpl. rewrite lookup_insert_eq.
    intros [= <-]. simpl. lia. }
  by exists p, w', b'.
Defined.

(** X20: [ptr] logs the exposure before it brings the buffer to the
    device.  When the buffer is on host and not exposed, and the device has
    no room for it once the manager's pass is over, [ptr] raises
    [MemoryError]: the exposure has been logged then, and the buffer is not
    exposed. *)
Theorem failed_ptr_has_logged_exposure victims w w0 self b0 mv :
  spill_to_device_limit victims w = (Ok tt, w0) ->
  objs w0 !! self = Some b0 ->
  location b0 = Some (DStr "cpu") ->
  host_view b0 = Some (DView mv) ->
  spillable_of b0 = true ->
  dalloc (mv_len mv) (device w0) = None ->
  ∃ w' b',
    ptr victims self w = (Raise MemoryError, w') ∧
    statistics w' = statistics w0 ++ [LogExpose self] ∧
    objs w' !! self = Some b' ∧
    _exposed b' = false.
Proof.
  intros Hman Hb0 Hc Hv Hs Ha.
  assert (He : _exposed b0 = false).
  { unfold spillable_of in Hs. by destruct (_exposed b0). }
  set (w1 := set_statistics (λ l, l ++ [LogExpose self]) w0).
  assert (Hb1 : objs w1 !! self = Some b0) by done.
  assert (Hrun : ptr victims self w =
     ((spill self "gpu";;
       upd_obj self (set_exposed true);;
       now ← monotonic;
       upd_obj self (set_last_accessed now);;
       b ← get_obj self;
       mret (_ptr b)) w1)).
  { unfold ptr at 1. munfold. rewrite Hman. unfold get_obj at 1. rewrite Hb0.
    unfold w1, log_expose. munfold. by rewrite He. }
  rewrite Hrun. clear Hrun. munfold.
  rewrite (spill_cpu_to_gpu_oom w1 self b0 mv Hb1 Hc Hv Hs Ha).
  eexists _, _. split; [reflexivity|]. split; [done|].
  simpl. rewrite lookup_insert_eq. done.
Qed.

Lemma failed_ptr_has_logged_exposure_witness :
  ∃ w' b',
    ptr (λ _, []) 0 host_world_full = (Raise MemoryError, w') ∧
    statistics w' = [LogExpose 0] ∧
    objs w' !! 0%nat = Some b' ∧
    _exposed b' = false.
Proof.
  assert (Hb : ∃ b0, objs host_world_full !! 0%nat = Some b0 ∧
                     location b0 = Some (DStr "cpu") ∧
                     host_view b0 = Some (DView three_bytes) ∧
                     spillable_of b0 = true)
    by (by vm_compute; eauto 10).
  destruct Hb as (b0 & Hb0 & Hc & Hv & Hs).
  exact (failed_ptr_has_logged_exposure (λ _, []) host_world_full
           host_world_full 0 b0 three_bytes eq_refl Hb0 Hc Hv Hs eq_refl).
Defined.

End SpillableExtras.

(** ** Further properties of copy-on-write buffers *)

Module CowExtras.
Import CopyOnWriteBuffer Cow CowInv CowFacts.

(** *** Weak sets only grow *)

Lemma weaksets_ok_intro w :
  map_Forall (λ s _, (s < next_weakset w)%nat) (weaksets w) -> weaksets_ok w.
Proof. intros H s [X HX]. exact (H s X HX). Qed.

Lemma grown_from_refl w : weaksets_ok w -> grown_from w w.
Proof. intros Hok. split; [done|]. intros s X HX. by exists X. Qed.

Create HintDb gpres.

Section Grown.
Variable w0 : World.

Lemma grown_frame w w' :
  weaksets w' = weaksets w -> next_weakset w' = next_weakset w ->
  grown_from w0 w -> grown_from w0 w'.
Proof.
  intros Hws Hn [Hok Hg]. split.
  - intros s. rewrite Hws, Hn. apply Hok.
  - intros s X. rewrite Hws. apply Hg.
Qed.

Lemma gpres_get_obj self : pres (grown_from w0) (get_obj self).
Proof. intros w HP. unfold get_obj. by destruct (objs w !! self). Qed.

Lemma gpres_upd_obj self f : pres (grown_from w0) (upd_obj self f).
Proof. intros w. by apply grown_frame. Qed.

Lemma gpres_new_obj owner p n : pres (grown_from w0) (new_obj owner p n).
Proof. intros w. by apply grown_frame. Qed.

Lemma gpres_weakset_len s : pres (grown_from w0) (weakset_len s).
Proof. by intros w HP. Qed.

Lemma gpres_poke p bs : pres (grown_from w0) (poke p bs).
Proof. intros w. by apply grown_frame. Qed.

Lemma gpres_DeviceBuffer_new p n : pres (grown_from w0) (DeviceBuffer_new p n).
Proof.
  intros w HP. unfold DeviceBuffer_new. case_bool_decide; [done|].
  destruct (DeviceBuffer_from_ptr p n (device w)) as [[db d']|]; [|done].
  revert HP. by apply grown_frame.
Qed.

Lemma gpres_cls_instances_getitem p :
  pres (grown_from w0) (cls_instances_getitem p).
Proof.
  intros w [Hok Hg]. unfold cls_instances_getitem.
  destruct (cls_instances w !! p); [done|]. simpl. split.
  - intros s. simpl. rewrite lookup_insert_is_Some.
    intros [<-|[_ Hs]]; [lia|]. specialize (Hok s Hs). lia.
  - intros s X HX. simpl. destruct (Hg s X HX) as (X' & HX' & Hsub).
    exists X'. split; [|done]. rewrite lookup_insert_ne; [done|].
    intros <-. specialize (Hok _ (mk_is_Some _ _ HX')). lia.
Qed.

Lemma gpres_weakset_add s self : pres (grown_from w0) (weakset_add s self).
Proof.
  intros w [Hok Hg]. split.
  - intros s'. simpl. rewrite lookup_alter_is_Some. apply Hok.
  - intros s' X HX. simpl. destruct (Hg s' X HX) as (X' & HX' & Hsub).
    destruct (decide (s = s')) as [->|Hne].
    + exists ({[self]} ∪ X'). rewrite lookup_alter_eq, HX'. split; [done|].
      by apply union_subseteq_r'.
    + exists X'. by rewrite lookup_alter_ne.
Qed.

Hint Resolve gpres_get_obj gpres_upd_obj gpres_new_obj gpres_weakset_len
  gpres_poke gpres_DeviceBuffer_new gpres_cls_instances_getitem
  gpres_weakset_add : gpres.

Ltac gpres_go :=
  repeat first
    [ solve [eauto with gpres]
    | apply cpres_bind; [|intros ?]
    | apply cpres_mret
    | apply cpres_raise
    | match goal with
      | |- pres _ (if ?c then _ else _) => destruct c
      end ].

Lemma gpres_finalize_init self : pres (grown_from w0) (_finalize_init self).
Proof. unfold _finalize_init. gpres_go. Qed.

Lemma gpres_is_shared self : pres (grown_from w0) (_is_shared self).
Proof. unfold _is_shared. gpres_go. Qed.

Hint Resolve gpres_finalize_init gpres_is_shared : gpres.

Lemma gpres_unlink self : pres (grown_from w0) (_unlink_shared_buffers self).
Proof. unfold _unlink_shared_buffers, DeviceBuffer_copy. gpres_go. Qed.

Hint Resolve gpres_unlink : gpres.

Lemma gpres_ptr self : pres (grown_from w0) (ptr self).
Proof. unfold ptr. gpres_go. Qed.

Lemma gpres_mutable_ptr self : pres (grown_from w0) (mutable_ptr self).
Proof. unfold mutable_ptr. gpres_go. Qed.

Lemma gpres_from_device_memory owner p n e :
  pres (grown_from w0) (_from_device_memory owner p n e).
Proof. unfold _from_device_memory. gpres_go. Qed.

Hint Resolve gpres_from_device_memory : gpres.

Lemma gpres_copy self deep : pres (grown_from w0) (copy self deep).
Proof. unfold copy. gpres_go. Qed.

Lemma gpres_getitem self offset n :
  pres (grown_from w0) (_getitem self offset n).
Proof. unfold _getitem. gpres_go. Qed.

Lemma gpres_cuda_array_interface self :
  pres (grown_from w0) (__cuda_array_interface__ self).
Proof.
  unfold __cuda_array_interface__, _get_cuda_array_interface. gpres_go.
Qed.

Lemma gpres_run_op o w : grown_from w0 w -> grown_from w0 (run_op o w).
Proof.
  revert w. destruct o; simpl.
  - apply gpres_ptr.
  - apply gpres_mutable_ptr.
  - apply gpres_copy.
  - apply gpres_getitem.
  - apply gpres_cuda_array_interface.
  - apply gpres_from_device_memory.
  - apply gpres_poke.
Qed.

Lemma gpres_run_ops l w : grown_from w0 w -> grown_from w0 (run_ops l w).
Proof.
  revert w. induction l as [|o l IH]; intros w HP; [done|].
  simpl. apply IH. by apply gpres_run_op.
Qed.

End Grown.

(** *** The class dictionary stays consistent *)

Lemma registry_ok_intro w :
  map_Forall (λ r _, (r < next_ref w)%nat) (objs w) ->
  map_Forall (λ s _, (s < next_weakset w)%nat) (weaksets w) ->
  map_Forall (λ _ s, is_Some (weaksets w !! s)) (cls_instances w) ->
  map_Forall (λ r b, registered w r b) (objs w) ->
  registry_ok w.
Proof.
  intros H1 H2 H3 H4. split; [|split; [|split]].
  - intros r [b Hb]. exact (H1 r b Hb).
  - by apply weaksets_ok_intro.
  - intros p s Hs. exact (H3 p s Hs).
  - intros r b _ Hb. exact (H4 r b Hb).
Qed.

Lemma registered_frame w w' r b :
  cls_instances w' = cls_instances w -> weaksets w' = weaksets w ->
  registered w r b -> registered w' r b.
Proof. intros Hc Hws [H1 H2]. split; by rewrite ?Hc, ?Hws. Qed.

Lemma registry_frame skip w w' :
  objs w' = objs w -> next_ref w' = next_ref w ->
  weaksets w' = weaksets w -> next_weakset w' = next_weakset w ->
  cls_instances w' = cls_instances w ->
  registry_ok_except skip w -> registry_ok_except skip w'.
Proof.
  intros Ho Hr Hws Hnw Hc (H1 & H2 & H3 & H4). split; [|split; [|split]].
  - intros r. rewrite Ho, Hr. apply H1.
  - intros s. rewrite Hws, Hnw. apply H2.
  - intros p s. rewrite Hc, Hws. apply H3.
  - intros r b Hne. rewrite Ho. intros Hb.
    apply (registered_frame w); [done..|]. by apply H4.
Qed.

Lemma registry_weaken skip w : registry_ok w -> registry_ok_except skip w.
Proof.
  intros (H1 & H2 & H3 & H4). split; [done|]. split; [done|]. split; [done|].
  intros r b _ Hb. by apply H4.
Qed.

Lemma registry_close self w :
  registry_ok_except (Some self) w ->
  (∀ b, objs w !! self = Some b -> registered w self b) ->
  registry_ok w.
Proof.
  intros (H1 & H2 & H3 & H4) Hself. split; [done|]. split; [done|].
  split; [done|]. intros r b _ Hb.
  destruct (decide (r = self)) as [->|Hne]; [by apply Hself|].
  apply H4; [congruence|done].
Qed.

Lemma registry_new_obj owner p n w :
  registry_ok w ->
  registry_ok_except (Some (next_ref w)) (snd (new_obj owner p n w)).
Proof.
  intros (H1 & H2 & H3 & H4). split; [|split; [done|split; [done|]]].
  - intros r. simpl. rewrite lookup_insert_is_Some.
    intros [<-|[_ Hr]]; [lia|]. specialize (H1 r Hr). lia.
  - intros r b Hne. simpl. rewrite lookup_insert_ne by congruence.
    intros Hb. by apply H4.
Qed.

Lemma registry_upd_self self f w :
  registry_ok_except (Some self) w ->
  registry_ok_except (Some self) (snd (upd_obj self f w)).
Proof.
  intros (H1 & H2 & H3 & H4). split; [|split; [done|split; [done|]]].
  - intros r. simpl. rewrite lookup_alter_is_Some. apply H1.
  - intros r b Hne. simpl. rewrite lookup_alter_ne by congruence.
    intros Hb. by apply H4.
Qed.

Lemma registry_upd_keep skip self f w :
  (∀ b, _ptr (f b) = _ptr b ∧ _instances (f b) = _instances b) ->
  registry_ok_except skip w ->
  registry_ok_except skip (snd (upd_obj self f w)).
Proof.
  intros Hf (H1 & H2 & H3 & H4). split; [|split; [done|split; [done|]]].
  - intros r. simpl. rewrite lookup_alter_is_Some. apply H1.
  - intros r b Hne. simpl. destruct (decide (r = self)) as [->|Hrs].
    + rewrite lookup_alter_eq.
      destruct (objs w !! self) as [b0|] eqn:Hb0; simpl; [|done].
      intros [= <-]. destruct (H4 self b0 Hne Hb0) as [Hc Hm].
      destruct (Hf b0) as [Hp Hi]. split; simpl; by rewrite ?Hp, ?Hi.
    + rewrite lookup_alter_ne by done. intros Hb. by apply H4.
Qed.

Lemma member_default_Some (m : gmap nat (gset nat)) s (r : nat) :
  r ∈ default ∅ (m !! s) -> ∃ X, m !! s = Some X ∧ r ∈ X.
Proof.
  destruct (m !! s) as [X|]; simpl; [eauto|].
  by intros ?%not_elem_of_empty.
Qed.

(** [_finalize_init] registers the buffer, and the others stay
    registered. *)
Lemma registry_finalize_init self w :
  registry_ok_except (Some self) w ->
  registry_ok (snd (_finalize_init self w)).
Proof.
  intros Hex. pose proof Hex as (H1 & H2 & H3 & H4).
  destruct (objs w !! self) as [b|] eqn:Hb.
  2:{ unfold _finalize_init, get_obj. munfold. rewrite Hb. simpl.
      apply (registry_close self); [done|]. intros b. by rewrite Hb. }
  destruct (cls_instances w !! _ptr b) as [s|] eqn:Hs.
  - rewrite (finalize_init_known w self b s Hb Hs). simpl.
    destruct (H3 _ _ Hs) as [X HX].
    split; [|split; [|split]]; simpl.
    + intros r. rewrite lookup_insert_is_Some.
      intros [<-|[_ Hr]]; [apply H1; by rewrite Hb|by apply H1].
    + intros k. simpl. rewrite lookup_alter_is_Some. apply H2.
    + intros p k Hk. rewrite lookup_alter_is_Some. by apply (H3 p).
    + intros r x _. rewrite lookup_insert_Some.
      intros [[<- <-]|[Hne Hx]].
      * split; simpl; [done|]. rewrite lookup_alter_eq, HX. simpl.
        apply elem_of_union_l. by apply elem_of_singleton.
      * destruct (H4 r x) as [Hc Hm]; [congruence|done|].
        split; simpl; [done|].
        destruct (member_default_Some _ _ _ Hm) as (Y & HY & HrY).
        destruct (decide (s = _instances x)) as [->|Hns].
        -- rewrite lookup_alter_eq, HY. simpl. by apply elem_of_union_r.
        -- rewrite lookup_alter_ne by done. by rewrite HY.
  - rewrite (finalize_init_fresh w self b Hb Hs). simpl.
    split; [|split; [|split]]; simpl.
    + intros r. rewrite lookup_insert_is_Some.
      intros [<-|[_ Hr]]; [apply H1; by rewrite Hb|by apply H1].
    + intros k. simpl. rewrite lookup_insert_is_Some.
      intros [<-|[_ Hk]]; [lia|]. specialize (H2 k Hk). lia.
    + intros p k. rewrite lookup_insert_Some.
      intros [[_ <-]|[_ Hk]].
      * rewrite lookup_insert_eq. eauto.
      * rewrite lookup_insert_is_Some.
        destruct (decide (next_weakset w = k)); [by left|right].
        split; [done|]. by apply (H3 p).
    + intros r x _. rewrite lookup_insert_Some.
      intros [[<- <-]|[Hne Hx]].
      * split; simpl; [by rewrite lookup_insert_eq|].
        rewrite lookup_insert_eq. simpl.
        apply elem_of_union_l. by apply elem_of_singleton.
      * destruct (H4 r x) as [Hc Hm]; [congruence|done|].
        destruct (member_default_Some _ _ _ Hm) as (Y & HY & HrY).
        assert (_instances x ≠ next_weakset w) as Hni.
        { intros Heq. specialize (H2 _ (mk_is_Some _ _ HY)). lia. }
        split; simpl.
        -- rewrite lookup_insert_ne; [done|]. intros Heq.
           rewrite <- Heq in Hc. congruence.
        -- rewrite lookup_insert_ne by done. by rewrite HY.
Qed.

Lemma rpres_get_obj self : pres registry_ok (get_obj self).
Proof. intros w HP. unfold get_obj. by destruct (objs w !! self). Qed.

Lemma rpres_weakset_len s : pres registry_ok (weakset_len s).
Proof. by intros w HP. Qed.

Lemma rpres_poke p bs : pres registry_ok (poke p bs).
Proof. intros w. by apply registry_frame. Qed.

Lemma rpres_DeviceBuffer_new p n : pres registry_ok (DeviceBuffer_new p n).
Proof.
  intros w HP. unfold DeviceBuffer_new. case_bool_decide; [done|].
  destruct (DeviceBuffer_from_ptr p n (device w)) as [[db d']|]; [|done].
  revert HP. by apply registry_frame.
Qed.

Lemma rpres_set_zero_copied self e :
  pres registry_ok (upd_obj self (set_zero_copied e)).
Proof. intros w. by apply registry_upd_keep. Qed.

(** A new buffer and its registration. *)
Lemma rpres_new_finalize {B} owner p n (k : nat -> unit -> M World B) :
  (∀ r u, pres registry_ok (k r u)) ->
  pres registry_ok (r ← new_obj owner p n; _finalize_init r ≫= k r).
Proof.
  intros Hk w HP. munfold. unfold new_obj at 1.
  match goal with
  | |- context [_finalize_init ?r ?w1] =>
      pose proof (registry_finalize_init r w1
                    (registry_new_obj owner p n w HP)) as Hfin;
      destruct (_finalize_init r w1) as [[u|e] w2]
  end; simpl in *; [by apply Hk|done].
Qed.

(** A buffer moved to another address and its registration there. *)
Lemma rpres_move_finalize self f1 f2 f3 :
  pres registry_ok
    (upd_obj self f1;; upd_obj self f2;; upd_obj self f3;;
     _finalize_init self).
Proof.
  intros w HP. unfold upd_obj at 1 2 3. munfold. simpl.
  apply registry_finalize_init.
  apply (registry_upd_self self f3 (snd (upd_obj self f2 (snd (upd_obj self f1 w))))).
  apply (registry_upd_self self f2 (snd (upd_obj self f1 w))).
  apply (registry_upd_self self f1 w).
  by apply registry_weaken.
Qed.

Create HintDb rpres.

#[local] Hint Resolve rpres_get_obj rpres_weakset_len rpres_poke
  rpres_DeviceBuffer_new rpres_set_zero_copied rpres_move_finalize : rpres.

Ltac rpres_go :=
  repeat first
    [ solve [eauto with rpres]
    | apply rpres_new_finalize; intros ? ?
    | apply cpres_bind; [|intros ?]
    | apply cpres_mret
    | apply cpres_raise
    | match goal with
      | |- pres _ (if ?c then _ else _) => destruct c
      end ].

Lemma rpres_is_shared self : pres registry_ok (_is_shared self).
Proof. unfold _is_shared. rpres_go. Qed.

#[local] Hint Resolve rpres_is_shared : rpres.

Lemma rpres_unlink self : pres registry_ok (_unlink_shared_buffers self).
Proof. unfold _unlink_shared_buffers, DeviceBuffer_copy. rpres_go. Qed.

#[local] Hint Resolve rpres_unlink : rpres.

Lemma rpres_ptr self : pres registry_ok (ptr self).
Proof. unfold ptr. rpres_go. Qed.

Lemma rpres_mutable_ptr self : pres registry_ok (mutable_ptr self).
Proof. unfold mutable_ptr. rpres_go. Qed.

Lemma rpres_from_device_memory owner p n e :
  pres registry_ok (_from_device_memory owner p n e).
Proof. unfold _from_device_memory. rpres_go. Qed.

#[local] Hint Resolve rpres_from_device_memory : rpres.

Lemma rpres_copy self deep : pres registry_ok (copy self deep).
Proof. unfold copy. rpres_go. Qed.

Lemma rpres_getitem self offset n :
  pres registry_ok (_getitem self offset n).
Proof. unfold _getitem. rpres_go. Qed.

Lemma rpres_cuda_array_interface self :
  pres registry_ok (__cuda_array_interface__ self).
Proof.
  unfold __cuda_array_interface__, _get_cuda_array_interface. rpres_go.
Qed.

Lemma rpres_run_op o w : registry_ok w -> registry_ok (run_op o w).
Proof.
  revert w. destruct o; simpl.
  - apply rpres_ptr.
  - apply rpres_mutable_ptr.
  - apply rpres_copy.
  - apply rpres_getitem.
  - apply rpres_cuda_array_interface.
  - apply rpres_from_device_memory.
  - apply rpres_poke.
Qed.

Lemma rpres_run_ops l w : registry_ok w -> registry_ok (run_ops l w).
Proof.
  revert w. induction l as [|o l IH]; intros w HP; [done|].
  simpl. apply IH. by apply rpres_run_op.
Qed.

(** X12: the class dictionary [_instances] stays consistent with the
    buffers.  In a process where every buffer is a member of the weak set
    it holds and that set is the one the dictionary has under the address
    of the buffer, this is so again after any sequence of operations
    (pointer accesses with their unlinking, copies, slices, new buffers,
    writes), failing or not: a buffer that [_unlink_shared_buffers] has
    moved is registered under its new address.  And no weak set loses a
    member on the way: the buffer that has moved is still in the set of
    the address it left. *)
Theorem registry_stays_consistent ops w :
  registry_ok w ->
  (∀ r b, objs (run_ops ops w) !! r = Some b ->
          cls_instances (run_ops ops w) !! _ptr b = Some (_instances b) ∧
          r ∈ default ∅ (weaksets (run_ops ops w) !! _instances b)) ∧
  (∀ s X, weaksets w !! s = Some X ->
          ∃ X', weaksets (run_ops ops w) !! s = Some X' ∧ X ⊆ X').
Proof.
  intros Hok. split.
  - intros r b Hb.
    destruct (rpres_run_ops ops w Hok) as (_ & _ & _ & Hreg).
    by apply (Hreg r b).
  - destruct Hok as (_ & Hws & _).
    destruct (gpres_run_ops w ops w (grown_from_refl w Hws)) as [_ Hg].
    exact Hg.
Qed.

Lemma registry_stays_consistent_witness :
  let w := run_ops [OCopy 0 false; OMutablePtr 1] one_buffer in
  ∃ b, objs w !! 1%nat = Some b ∧
       _ptr b = 108 ∧
       cls_instances w !! 108 = Some (_instances b) ∧
       1%nat ∈ default ∅ (weaksets w !! _instances b) ∧
       ∃ X', weaksets w !! 0%nat = Some X' ∧ ({[0%nat]} : gset nat) ⊆ X'.
Proof.
  intros w.
  assert (Hok : registry_ok one_buffer).
  { apply registry_ok_intro; apply (bool_decide_unpack _); by vm_compute. }
  destruct (registry_stays_consistent [OCopy 0 false; OMutablePtr 1]
              one_buffer Hok) as [Hreg Hgrow].
  fold w in Hreg, Hgrow.
  assert (Hb : ∃ b, objs w !! 1%nat = Some b ∧ _ptr b = 108)
    by (by vm_compute; eauto).
  destruct Hb as (b & Hb & Hp).
  destruct (Hreg 1%nat b Hb) as [Hc Hm].
  exists b. split; [done|]. split; [done|]. split; [by rewrite <- Hp|].
  split; [done|]. apply Hgrow. by vm_compute.
Defined.

(** *** A buffer that was unlinked still counts *)

(** X13: a buffer that has been unlinked stays in the weak set it has
    left.  After a shallow copy [b] of [a] and a write access to [b], which
    moves [b] to memory of its own, [b] is still a member of the weak set
    of [a]: [a] still reports that it is shared, and its next write access
    copies it too, to memory allocated by that access. *)
Theorem unlinked_copy_still_counts w a ba :
  cow_wf w ->
  weaksets_ok w ->
  objs w !! a = Some ba ->
  _zero_copied ba = false ->
  ∃ w1,
    copy a false w = (Ok (next_ref w), w1) ∧
    match mutable_ptr (next_ref w) w1 with
    | (Ok p, w2) =>
        brk (device w1) ≤ p ∧
        objs w2 !! a = Some ba ∧
        next_ref w ∈ default ∅ (weaksets w2 !! _instances ba) ∧
        _is_shared a w2 = (Ok true, w2) ∧
        match mutable_ptr a w2 with
        | (Ok q, w3) => brk (device w2) ≤ q
        | (Raise e, w3) => e = MemoryError
        end
    | (Raise e, w2) => e = MemoryError
    end.
Proof.
  intros Hwf Hok Ha Hzc.
  destruct (cow_wf_lookup _ _ _ Hwf Ha) as (Href & Hsz & Hbrk & Hreg & Hmem).
  destruct (copy_shallow w a ba Ha Hzc Hreg)
    as (w1 & Hcopy & Hdev1 & Href1 & Hobjs1 & Hws1 & Hcls1).
  exists w1. split; [done|].
  set (b := next_ref w) in *.
  set (bb := {| _owner := _owner ba; _ptr := _ptr ba; _size := _size ba;
                _instances := _instances ba; _zero_copied := false |}) in *.
  assert (Hne : a ≠ b) by (unfold b; lia).
  assert (Hb1 : objs w1 !! b = Some bb) by (by rewrite Hobjs1, lookup_insert_eq).
  assert (Ha1 : objs w1 !! a = Some ba)
    by (by rewrite Hobjs1, lookup_insert_ne).
  destruct (weaksets w !! _instances ba) as [X|] eqn:HX;
    [|by apply not_elem_of_empty in Hmem].
  simpl in Hmem.
  assert (HX1 : weaksets w1 !! _instances ba = Some ({[b]} ∪ X)).
  { by rewrite Hws1, lookup_alter_eq, HX. }
  assert (Hshared1 : (1 < base.size
            (default ∅ (weaksets w1 !! _instances bb)))%nat).
  { simpl. rewrite HX1. simpl. apply (size_two_members _ a b); [| |done].
    - by apply elem_of_union_r.
    - apply elem_of_union_l. by apply elem_of_singleton. }
  assert (Hok1 : weaksets_ok w1).
  { intros k. rewrite Hws1, lookup_alter_is_Some.
    intros Hk. specialize (Hok k Hk).
    assert (Hn : next_weakset w1 = next_weakset w); [|lia].
    revert Hcopy. unfold copy. cunfold. rewrite Ha, Hzc. simpl.
    rewrite lookup_insert_eq. simpl. rewrite Hreg. simpl.
    rewrite Hreg. simpl. by intros [= <-]. }
  pose proof (mutable_ptr_spec w1 b bb Hb1 Hsz) as Hmut.
  pose proof (gpres_mutable_ptr w1 b w1 (grown_from_refl w1 Hok1)) as Hgrow.
  destruct (mutable_ptr b w1) as [[p|e] w2]; [|by destruct Hmut].
  destruct Hmut as (bb' & Hobjs2 & Href2 & Hp & Hsz2 & Hext2 & Hread2 & _ & Hnew).
  simpl in Hgrow. destruct Hgrow as [Hok2 Hgrow].
  destruct (Hgrow _ _ HX1) as (X2 & HX2 & Hsub).
  assert (Ha2 : objs w2 !! a = Some ba)
    by (by rewrite Hobjs2, lookup_insert_ne).
  assert (Hshared2 : (1 < base.size
            (default ∅ (weaksets w2 !! _instances ba)))%nat).
  { rewrite HX2. simpl. apply (size_two_members _ a b); [| |done].
    - apply Hsub. by apply elem_of_union_r.
    - apply Hsub. apply elem_of_union_l. by apply elem_of_singleton. }
  split; [by apply Hnew|]. split; [done|]. split.
  { rewrite HX2. simpl. apply Hsub, elem_of_union_l. by apply elem_of_singleton. }
  split.
  { rewrite (is_shared_run _ _ _ Ha2). by rewrite bool_decide_eq_true_2. }
  pose proof (mutable_ptr_spec w2 a ba Ha2 Hsz) as Hmut2.
  destruct (mutable_ptr a w2) as [[q|e] w3]; [|by destruct Hmut2].
  destruct Hmut2 as (ba' & _ & _ & _ & _ & _ & _ & _ & Hnew2).
  by apply Hnew2.
Qed.

Lemma unlinked_copy_still_counts_witness :
  ∃ w1 p w2 q w3,
    copy 0 false one_buffer = (Ok 1%nat, w1) ∧
    mutable_ptr 1 w1 = (Ok p, w2) ∧
    _is_shared 0 w2 = (Ok true, w2) ∧
    mutable_ptr 0 w2 = (Ok q, w3) ∧
    brk (device w2) ≤ q.
Proof.
  assert (Ha : ∃ ba, objs one_buffer !! 0%nat = Some ba ∧
                     _zero_copied ba = false) by (by vm_compute; eauto).
  destruct Ha as (ba & Ha & Hzc).
  assert (Hok : weaksets_ok one_buffer)
    by (apply weaksets_ok_intro, (bool_decide_unpack _); by vm_compute).
  destruct (unlinked_copy_still_counts one_buffer 0 ba one_buffer_wf Hok Ha Hzc)
    as (w1 & Hcopy & H).
  assert (Hn : next_ref one_buffer = 1%nat) by (by vm_compute).
  rewrite Hn in Hcopy, H.
  destruct (mutable_ptr 1 w1) as [[p|e] w2] eqn:Hrun1.
  2:{ exfalso. vm_compute in Hcopy. injection Hcopy as <-.
      by vm_compute in Hrun1. }
  destruct H as (_ & _ & _ & Hsh & H).
  destruct (mutable_ptr 0 w2) as [[q|e] w3] eqn:Hrun2.
  2:{ exfalso. vm_compute in Hcopy. injection Hcopy as <-.
      vm_compute in Hrun1. injection Hrun1 as <- <-.
      by vm_compute in Hrun2. }
  by exists w1, p, w2, q, w3.
Defined.

(** *** Slices *)

Lemma size_one_member (r : nat) :
  base.size ({[r]} ∪ ∅ : gset nat) = 1%nat.
Proof. rewrite (right_id_L (∅ : gset nat) (∪)). apply size_singleton. Qed.

Lemma alone_not_shared (m : gmap nat (gset nat)) s (r : nat) :
  m !! s = Some ({[r]} ∪ ∅) ->
  ¬ (1 < base.size (default ∅ (m !! s)))%nat.
Proof.
  intros ->. change (¬ (1 < base.size ({[r]} ∪ ∅ : gset nat))%nat).
  rewrite size_one_member. lia.
Qed.

(** X14: a slice that starts inside its base is not under copy-on-write.
    [_getitem] with an offset whose address no buffer is registered under
    wraps the memory of the base, without copying, in a buffer registered
    alone under that address: it does not count as shared, [mutable_ptr]
    of the slice returns the address inside the base without unlinking, and
    a byte written there is a byte of the base. *)
Theorem offset_slice_writes_through w a ba off n :
  cow_wf w ->
  objs w !! a = Some ba ->
  cls_instances w !! (_ptr ba + off) = None ->
  ∃ w1 sb,
    _getitem a off n w = (Ok (next_ref w), w1) ∧
    device w1 = device w ∧
    objs w1 !! a = Some ba ∧
    objs w1 !! next_ref w = Some sb ∧
    _ptr sb = _ptr ba + off ∧ _size sb = n ∧ _owner sb = _owner ba ∧
    _is_shared (next_ref w) w1 = (Ok false, w1) ∧
    mutable_ptr (next_ref w) w1 = (Ok (_ptr ba + off), w1) ∧
    ∀ x, 0 ≤ off < _size ba ->
         bytes_of (snd (poke (_ptr ba + off) [x] w1)) a !! Z.to_nat off
           = Some x.
Proof.
  intros Hwf Ha Hfresh.
  destruct (cow_wf_lookup _ _ _ Hwf Ha) as (Href & Hsz & _).
  destruct (from_device_memory_spec w (_owner ba) (_ptr ba + off) n false)
    as (s & w1 & Hrun & Hdev & Href1 & Hobjs & [(Hk & _)|(_ & -> & Hcls & Hws & Hnw)]);
    [congruence|].
  exists w1. eexists. split.
  { unfold _getitem. munfold. unfold get_obj at 1. by rewrite Ha. }
  split; [done|].
  assert (Hs1 : objs w1 !! next_ref w =
                Some {| _owner := _owner ba; _ptr := _ptr ba + off; _size := n;
                        _instances := next_weakset w; _zero_copied := false |})
    by (by rewrite Hobjs, lookup_insert_eq).
  assert (Hone : ¬ (1 < base.size (default ∅
            (weaksets w1 !! next_weakset w)))%nat).
  { apply (alone_not_shared _ _ (next_ref w)).
    by rewrite Hws, lookup_insert_eq. }
  split; [by rewrite Hobjs, lookup_insert_ne by lia|].
  split; [exact Hs1|]. split; [done|]. split; [done|]. split; [done|].
  split.
  { rewrite (is_shared_run _ _ _ Hs1). simpl.
    by rewrite bool_decide_eq_false_2. }
  split.
  { unfold mutable_ptr. munfold.
    rewrite (unlink_unshared _ _ _ Hs1) by (by right).
    unfold get_obj. by rewrite Hs1. }
  intros x Hoff. unfold bytes_of. simpl.
  rewrite Hobjs, lookup_insert_ne, Ha by lia.
  rewrite lookup_dread by lia. simpl.
  rewrite Z2Nat.id by lia.
  rewrite bool_decide_eq_true_2 by lia.
  by replace (_ptr ba + off - (_ptr ba + off)) with 0 by lia.
Qed.

Lemma offset_slice_writes_through_witness :
  ∃ w1,
    _getitem 0 1 2 one_buffer = (Ok 1%nat, w1) ∧
    mutable_ptr 1 w1 = (Ok 101, w1) ∧
    bytes_of w1 0 = [Byte.x07; Byte.x08; Byte.x09; Byte.x0a] ∧
    bytes_of (snd (poke 101 [Byte.xff] w1)) 0 !! 1%nat = Some Byte.xff.
Proof.
  assert (Ha : ∃ ba, objs one_buffer !! 0%nat = Some ba ∧ _ptr ba = 100 ∧
                     _size ba = 4 ∧ cls_instances one_buffer !! 101 = None)
    by (by vm_compute; eauto 10).
  destruct Ha as (ba & Ha & Hp & Hsz & Hfresh).
  destruct (offset_slice_writes_through one_buffer 0 ba 1 2 one_buffer_wf Ha)
    as (w1 & sb & Hrun & Hdev & Ha1 & _ & _ & _ & _ & _ & Hmut & Hpoke).
  { by rewrite Hp. }
  assert (Hn : next_ref one_buffer = 1%nat) by (by vm_compute).
  rewrite Hn, Hp in *. exists w1.
  split; [done|]. split; [done|]. split.
  { unfold bytes_of. rewrite Ha1, Hdev, Hp, Hsz. by vm_compute. }
  apply (Hpoke Byte.xff). lia.
Defined.

(** *** Unlinking once is enough *)

Lemma unlink_shared_fresh w b bb :
  objs w !! b = Some bb ->
  0 ≤ _size bb ->
  _zero_copied bb = false ->
  (1 < base.size (default ∅ (weaksets w !! _instances bb)))%nat ->
  cls_instances w !! (brk (device w) + _size bb) = None ->
  match _unlink_shared_buffers b w with
  | (Ok _, w') =>
      ∃ bb', objs w' !! b = Some bb' ∧
             _ptr bb' = brk (device w) + _size bb ∧
             _size bb' = _size bb ∧
             _zero_copied bb' = false ∧
             weaksets w' !! _instances bb' = Some ({[b]} ∪ ∅)
  | (Raise e, w') => e = MemoryError
  end.
Proof.
  intros Hb Hsz Hzc Hshared Hfresh.
  assert (Hrun : _unlink_shared_buffers b w =
    ((current_buf ← DeviceBuffer_new (_ptr bb) (_size bb);
      new_buf ← DeviceBuffer_copy current_buf;
      upd_obj b (set_ptr (db_ptr new_buf));;
      upd_obj b (set_size (db_size new_buf));;
      upd_obj b (set_owner (Some new_buf));;
      _finalize_init b) w)).
  { unfold _unlink_shared_buffers. munfold. unfold get_obj at 1. rewrite Hb.
    rewrite (is_shared_run _ _ _ Hb), Hzc. simpl.
    by rewrite bool_decide_eq_true_2. }
  rewrite Hrun. clear Hrun. munfold.
  pose proof (DeviceBuffer_new_spec (_ptr bb) (_size bb) w Hsz) as Hnew1.
  destruct (DeviceBuffer_new (_ptr bb) (_size bb) w) as [[db1|e] w1];
    [|by destruct Hnew1].
  destruct Hnew1 as (-> & Hbrk1 & Hext1 & Hread1 & Hobjs1 & Href1
                     & Hws1 & Hnw1 & Hreg1).
  unfold DeviceBuffer_copy. simpl.
  pose proof (DeviceBuffer_new_spec (brk (device w)) (_size bb) w1 Hsz) as Hnew2.
  destruct (DeviceBuffer_new (brk (device w)) (_size bb) w1) as [[db2|e] w2];
    [|by destruct Hnew2].
  destruct Hnew2 as (-> & Hbrk2 & Hext2 & Hread2 & Hobjs2 & Href2
                     & Hws2 & Hnw2 & Hreg2).
  unfold upd_obj. munfold. simpl.
  set (bb' := set_owner (Some {| db_ptr := brk (device w1);
                                 db_size := _size bb |})
                (set_size (_size bb) (set_ptr (brk (device w1)) bb))).
  set (w3 := set_objs _ (set_objs _ (set_objs _ w2))).
  assert (Hb3 : objs w3 !! b = Some bb').
  { unfold w3. simpl. rewrite !lookup_alter_eq, Hobjs2, Hobjs1, Hb. done. }
  assert (Hfresh3 : cls_instances w3 !! _ptr bb' = None).
  { unfold w3, bb'. simpl. by rewrite Hreg2, Hreg1, Hbrk1. }
  rewrite (finalize_init_fresh w3 b bb' Hb3 Hfresh3).
  eexists. simpl. rewrite lookup_insert_eq. split; [done|]. simpl.
  split; [done|]. split; [done|]. split; [done|].
  by rewrite lookup_insert_eq.
Qed.

(** X15: a write access unlinks at most once.  When [mutable_ptr] has
    returned, having copied the buffer to an address no buffer was
    registered under or having found nothing to unlink, a second
    [mutable_ptr] returns the same address and changes nothing: no device
    memory is allocated again. *)
Theorem mutable_ptr_twice w b bb :
  objs w !! b = Some bb ->
  0 ≤ _size bb ->
  cls_instances w !! (brk (device w) + _size bb) = None ->
  match mutable_ptr b w with
  | (Ok p, w1) => mutable_ptr b w1 = (Ok p, w1)
  | (Raise e, w1) => e = MemoryError
  end.
Proof.
  intros Hb Hsz Hfresh.
  assert (Hstay : ∀ w1 bb1, objs w1 !! b = Some bb1 ->
            _zero_copied bb1 = true ∨
            ¬ (1 < base.size (default ∅ (weaksets w1 !! _instances bb1)))%nat ->
            mutable_ptr b w1 = (Ok (_ptr bb1), w1)).
  { intros w1 bb1 Hb1 Hun. unfold mutable_ptr. munfold.
    rewrite (unlink_unshared _ _ _ Hb1 Hun). unfold get_obj. by rewrite Hb1. }
  destruct (_zero_copied bb) eqn:Hzc;
    [|destruct (decide (1 < base.size
                          (default ∅ (weaksets w !! _instances bb)))%nat)
        as [Hsh|Hsh]].
  - rewrite (Hstay w bb Hb) by (by left). apply Hstay; [done|by left].
  - pose proof (unlink_shared_fresh w b bb Hb Hsz Hzc Hsh Hfresh) as H.
    unfold mutable_ptr at 1. munfold.
    destruct (_unlink_shared_buffers b w) as [[[]|e] w1]; [|done].
    destruct H as (bb' & Hb' & Hp & Hsz' & Hzc' & Hws).
    unfold get_obj. rewrite Hb'.
    apply Hstay; [done|]. right. by apply (alone_not_shared _ _ b).
  - rewrite (Hstay w bb Hb) by (by right). apply Hstay; [done|by right].
Qed.

Lemma mutable_ptr_twice_witness :
  ∃ w0 p w1,
    copy 0 false one_buffer = (Ok 1%nat, w0) ∧
    mutable_ptr 0 w0 = (Ok p, w1) ∧
    p ≠ 100 ∧
    mutable_ptr 0 w1 = (Ok p, w1).
Proof.
  destruct (copy 0 false one_buffer) as [r w0] eqn:Hcopy.
  assert (Hr : r = Ok 1%nat) by (by vm_compute in Hcopy; injection Hcopy as <- _).
  subst r.
  assert (Hb : ∃ bb, objs w0 !! 0%nat = Some bb ∧ _size bb = 4 ∧
                     brk (device w0) = 104 ∧
                     cls_instances w0 !! 108 = None).
  { vm_compute in Hcopy. injection Hcopy as <-. by vm_compute; eauto 10. }
  destruct Hb as (bb & Hb & Hsz & Hbrk & Hfresh).
  assert (H := mutable_ptr_twice w0 0 bb Hb).
  rewrite Hsz, Hbrk in H. specialize (H ltac:(lia) Hfresh).
  destruct (mutable_ptr 0 w0) as [[p|e] w1] eqn:Hrun.
  2:{ exfalso. vm_compute in Hcopy. injection Hcopy as <-.
      by vm_compute in Hrun. }
  exists w0, p, w1. split; [done|]. split; [done|]. split; [|done].
  vm_compute in Hcopy. injection Hcopy as <-.
  vm_compute in Hrun. injection Hrun as <- _. done.
Defined.

(** *** The array interface *)

Lemma cuda_array_interface_as_ptr self w :
  __cuda_array_interface__ self w =
  match ptr self w with
  | (Ok p, w') =>
      match objs w' !! self with
      | Some b =>
          (Ok {| data := (_ptr b, false); shape := _size b; strides := None;
                 typestr := "|u1"; version := 0 |}, w')
      | None => (Raise ReferenceError, w')
      end
  | (Raise e, w') => (Raise e, w')
  end.
Proof.
  unfold __cuda_array_interface__, ptr, _get_cuda_array_interface. munfold.
  destruct (_unlink_shared_buffers self w) as [[[]|e] w1]; [|done].
  unfold upd_obj, get_obj. munfold. simpl.
  destruct (alter (set_zero_copied true) self (objs w1) !! self) as [x|] eqn:Hx;
    simpl; [|done].
  by rewrite Hx.
Qed.

(** [ptr] is [mutable_ptr] followed by the zero-copied mark. *)
Lemma ptr_after_mutable_ptr w a :
  match mutable_ptr a w, ptr a w with
  | (Ok p, w'), (Ok q, w1) =>
      q = p ∧ device w1 = device w' ∧
      ∃ bb', objs w' !! a = Some bb' ∧
             objs w1 !! a = Some (set_zero_copied true bb')
  | (Raise e, _), (Raise e', _) => e' = e
  | _, _ => False
  end.
Proof.
  unfold mutable_ptr, ptr. munfold.
  destruct (_unlink_shared_buffers a w) as [[[]|e] w']; [|done].
  unfold upd_obj, get_obj. munfold. simpl. rewrite lookup_alter_eq.
  destruct (objs w' !! a) as [x|] eqn:Hx; simpl; [|done].
  split; [done|]. split; [done|]. exists x. split; [done|].
  by rewrite lookup_alter_eq, Hx.
Qed.

(** X16: reading [__cuda_array_interface__] unlinks the buffer if it is
    shared and marks it zero-copied, and the address it publishes stays the
    address of the buffer.  When the buffer was shared and not zero-copied,
    the address published lies in memory allocated by the read; otherwise
    it is the address the buffer had and no device memory is allocated.  In
    both cases the bytes of the buffer are those it had, the dictionary
    holds the address and the size the buffer now has, with the read-only
    flag off, and from then on no operation moves, resizes or unmarks the
    buffer.  The read fails only with the [MemoryError] of the unlinking
    copy. *)
Theorem published_address_is_stable w a ba0 :
  cow_wf w ->
  objs w !! a = Some ba0 ->
  match __cuda_array_interface__ a w with
  | (Ok ai, w1) =>
      ∃ ba, objs w1 !! a = Some ba ∧
            ai = {| data := (_ptr ba, false); shape := _size ba;
                    strides := None; typestr := "|u1"; version := 0 |} ∧
            _size ba = _size ba0 ∧
            _zero_copied ba = true ∧
            (_zero_copied ba0 = false -> _is_shared a w = (Ok true, w) ->
             brk (device w) ≤ _ptr ba) ∧
            (_zero_copied ba0 = true ∨ _is_shared a w = (Ok false, w) ->
             _ptr ba = _ptr ba0 ∧ device w1 = device w) ∧
            bytes_of w1 a = bytes_of w a ∧
            ∀ ops, objs (run_ops ops w1) !! a = Some ba
  | (Raise e, w1) => e = MemoryError
  end.
Proof.
  intros Hwf Ha. rewrite cuda_array_interface_as_ptr.
  pose proof (ptr_freezes w a ba0 Hwf Ha) as Hfr.
  destruct (cow_wf_lookup _ _ _ Hwf Ha) as (_ & Hsz & Hbrk & _).
  pose proof (mutable_ptr_spec w a ba0 Ha Hsz) as Hm.
  pose proof (ptr_after_mutable_ptr w a) as Hrel.
  pose proof (is_shared_run w a ba0 Ha) as Hshared.
  assert (Hstay : _zero_copied ba0 = true ∨ _is_shared a w = (Ok false, w) ->
                  mutable_ptr a w = (Ok (_ptr ba0), w)).
  { intros Hun. unfold mutable_ptr. munfold.
    rewrite (unlink_unshared w a ba0 Ha).
    - unfold get_obj. by rewrite Ha.
    - destruct Hun as [Hzc|Hns]; [by left|right].
      rewrite Hshared in Hns. injection Hns as Hns.
      by apply bool_decide_eq_false in Hns. }
  destruct (ptr a w) as [[p|e] w1] eqn:Hptr; [|done].
  destruct Hfr as (ba & Hfrozen & ->).
  destruct (mutable_ptr a w) as [[p'|e'] w'] eqn:Hmut; [|done].
  destruct Hrel as (Hpp & Hdev & bb' & Hbb' & Hba1).
  destruct Hm as (bb'' & Hobjs & _ & Hp' & Hsz' & Hext & Hread & _ & Hnew).
  assert (bb'' = bb') as ->.
  { rewrite Hobjs, lookup_insert_eq in Hbb'. by injection Hbb'. }
  assert (Ha1 : objs w1 !! a = Some ba) by (by destruct Hfrozen as (_ & ? & _)).
  assert (Hzc : _zero_copied ba = true) by (by destruct Hfrozen as (_ & _ & ? & _)).
  assert (ba = set_zero_copied true bb') as Hba by congruence.
  assert (Hptr_ba : _ptr ba = p') by (by rewrite Hba, Hp').
  assert (Hsize_ba : _size ba = _size ba0) by (by rewrite Hba).
  rewrite Ha1. exists ba. split; [done|]. split; [done|].
  split; [done|]. split; [done|]. split.
  { intros Hzc0 Hsh. rewrite Hptr_ba. apply Hnew; [done|].
    rewrite Hshared in Hsh. injection Hsh as Hsh.
    by apply bool_decide_eq_true in Hsh. }
  split.
  { intros Hun. specialize (Hstay Hun). injection Hstay as <- <-.
    by rewrite Hptr_ba, Hdev. }
  split.
  { unfold bytes_of. rewrite Ha1, Ha, Hptr_ba, Hsize_ba, Hdev. exact Hread. }
  intros ops. by destruct (cpres_run_ops a ba Hzc ops w1 Hfrozen) as (_ & ? & _).
Qed.

Lemma published_address_is_stable_witness :
  ∃ w0 ai w1 ba,
    copy 0 false one_buffer = (Ok 1%nat, w0) ∧
    __cuda_array_interface__ 0 w0 = (Ok ai, w1) ∧
    data ai = (108, false) ∧ shape ai = 4 ∧
    bytes_of w1 0 = [Byte.x07; Byte.x08; Byte.x09; Byte.x0a] ∧
    ∀ ops, objs (run_ops ops w1) !! 0%nat = Some ba.
Proof.
  destruct (copy 0 false one_buffer) as [r w0] eqn:Hcopy.
  assert (Hr : r = Ok 1%nat) by (by vm_compute in Hcopy; injection Hcopy as <- _).
  subst r.
  assert (Hwf : cow_wf w0).
  { vm_compute in Hcopy. injection Hcopy as <-.
    apply (bool_decide_unpack _). by vm_compute. }
  assert (Ha : ∃ ba0, objs w0 !! 0%nat = Some ba0 ∧ _zero_copied ba0 = false ∧
                      _is_shared 0 w0 = (Ok true, w0) ∧
                      brk (device w0) = 104 ∧ _size ba0 = 4 ∧
                      bytes_of w0 0 = [Byte.x07; Byte.x08; Byte.x09; Byte.x0a]).
  { vm_compute in Hcopy. injection Hcopy as <-. by vm_compute; eauto 10. }
  destruct Ha as (ba0 & Ha & Hzc0 & Hsh & Hbrk & Hsz0 & Hbytes).
  pose proof (published_address_is_stable w0 0 ba0 Hwf Ha) as H.
  destruct (__cuda_array_interface__ 0 w0) as [[ai|e] w1] eqn:Hrun.
  2:{ exfalso. vm_compute in Hcopy. injection Hcopy as <-.
      by vm_compute in Hrun. }
  destruct H as (ba & Ha1 & Hai & Hsz & _ & Hnew & _ & Hb & Hops).
  exists w0, ai, w1, ba.
  split; [done|]. split; [done|].
  assert (Hp : _ptr ba = 108).
  { vm_compute in Hcopy. injection Hcopy as <-.
    vm_compute in Hrun. injection Hrun as <- <-.
    vm_compute in Ha1. by injection Ha1 as <-. }
  rewrite Hai. simpl. rewrite Hp, Hsz, Hsz0, Hb, Hbytes. done.
Defined.

End CowExtras.
